(** * p4harmonize, package [internal/p4]: a shallow embedding and its properties

    The development follows [internal/p4/p4.go]: the reserved-character path
    codec ([EscapePath], [UnescapePath]), the depth and prefix helpers
    ([streamDepth], [getDepotPrefix], [getDepotName]), the line streamer
    ([cmdAndScan]) and the tagged-record parser ([runAndParseDepotFiles]);
    then [files.go] ([ListDepotFiles], [GetDepotSpec], [CreateStreamDepot])
    and [set.go] ([GetVariable]).

    Go strings are byte sequences; [for _, r := range s] decodes UTF-8 and
    [strings.Builder.WriteRune] encodes it, so both are modelled on bytes.
    The pieces of the Go standard library the package calls ([unicode/utf8],
    [strings], [strconv], [sort]) are embedded next to the code that uses
    them. *)

From Stdlib Require Import List Ascii String ZArith Lia Bool Arith.
From Stdlib Require Import Permutation Sorted Zbitwise.
Import ListNotations.

Local Open Scope Z_scope.

(* ------------------------------------------------------------------ *)
(** ** Go strings *)

(** A Go [string] is an immutable sequence of bytes. *)
Definition gostring : Type := list ascii.

(** A string literal of the source. *)
Definition go (s : string) : gostring := list_ascii_of_string s.

(** [len(s)], a Go [int]. *)
Definition len (s : gostring) : Z := Z.of_nat (List.length s).

(** The numeric value of a byte, and the conversion [byte(x)] that keeps
    the low eight bits. *)
Definition byteZ (b : ascii) : Z := Z.of_N (N_of_ascii b).
Definition byte_of_Z (z : Z) : ascii := ascii_of_N (Z.to_N (z mod 256)).

Definition gostring_eqb (s t : gostring) : bool :=
  if list_eq_dec ascii_dec s t then true else false.

(** [s < t] on strings: bytewise lexicographic order. *)
Fixpoint string_ltb (s t : gostring) : bool :=
  match s, t with
  | _, [] => false
  | [], _ :: _ => true
  | a :: s', b :: t' =>
      if byteZ a <? byteZ b then true
      else if byteZ b <? byteZ a then false
      else string_ltb s' t'
  end.

(** Run-time panics of the slice expressions used by the package. *)
Inductive panic : Type :=
| SliceBoundsOutOfRange (lo hi : Z).

(** [s[lo:hi]]: panics unless [0 <= lo <= hi <= len(s)]. *)
Definition slice (s : gostring) (lo hi : Z) : panic + gostring :=
  if (0 <=? lo) && (lo <=? hi) && (hi <=? len s)
  then inr (firstn (Z.to_nat hi - Z.to_nat lo) (skipn (Z.to_nat lo) s))
  else inl (SliceBoundsOutOfRange lo hi).

(** [s[lo:]] and [s[:hi]]. *)
Definition slice_from (s : gostring) (lo : Z) : panic + gostring :=
  slice s lo (len s).
Definition slice_to (s : gostring) (hi : Z) : panic + gostring :=
  slice s 0 hi.

(** [strings.HasPrefix]. *)
Fixpoint HasPrefix (s prefix : gostring) {struct prefix} : bool :=
  match prefix, s with
  | [], _ => true
  | _ :: _, [] => false
  | p :: prefix', a :: s' =>
      if ascii_dec a p then HasPrefix s' prefix' else false
  end.

(** [strings.Index(s, substr)]: the index of the first instance of
    [substr] in [s], or [-1]. *)
Fixpoint Index_from (i : Z) (s substr : gostring) : Z :=
  if HasPrefix s substr then i
  else match s with
       | [] => -1
       | _ :: s' => Index_from (i + 1) s' substr
       end.
Definition Index (s substr : gostring) : Z := Index_from 0 s substr.

(** [strings.Contains]. *)
Definition Contains (s substr : gostring) : bool := 0 <=? Index s substr.

(* ------------------------------------------------------------------ *)
(** ** UTF-8, as the Go runtime and [unicode/utf8] implement it *)

Module utf8.

Definition RuneError : Z := 0xFFFD.
Definition RuneSelf : Z := 0x80.
Definition MaxRune : Z := 0x10FFFF.
Definition UTFMax : Z := 4.

Definition surrogateMin : Z := 0xD800.
Definition surrogateMax : Z := 0xDFFF.

Definition t1 : Z := 0x00.
Definition tx : Z := 0x80.
Definition t2 : Z := 0xC0.
Definition t3 : Z := 0xE0.
Definition t4 : Z := 0xF0.
Definition t5 : Z := 0xF8.

Definition maskx : Z := 0x3F.
Definition mask2 : Z := 0x1F.
Definition mask3 : Z := 0x0F.
Definition mask4 : Z := 0x07.

Definition rune1Max : Z := 0x7F.
Definition rune2Max : Z := 0x7FF.
Definition rune3Max : Z := 0xFFFF.

Definition locb : Z := 0x80.
Definition hicb : Z := 0xBF.

(** [locb <= b && b <= hicb]: a continuation byte. *)
Definition cont (b : ascii) : bool :=
  (locb <=? byteZ b) && (byteZ b <=? hicb).

(** One step of [for i, r := range s] at a non-empty [s]: the rune and
    its width in bytes.  Bytes below [RuneSelf] are taken as they are;
    the rest goes through the runtime's [decoderune], which gives
    [RuneError] and width 1 on every ill-formed sequence. *)
Definition decoderune (s : gostring) : Z * nat :=
  match s with
  | [] => (RuneError, 1%nat)
  | s0 :: rest =>
      let c := byteZ s0 in
      if c <? RuneSelf then (c, 1%nat)
      else if (t2 <=? c) && (c <? t3) then
        match rest with
        | s1 :: _ =>
            if cont s1 then
              let r := Z.lor (Z.shiftl (Z.land c mask2) 6)
                             (Z.land (byteZ s1) maskx) in
              if rune1Max <? r then (r, 2%nat) else (RuneError, 1%nat)
            else (RuneError, 1%nat)
        | _ => (RuneError, 1%nat)
        end
      else if (t3 <=? c) && (c <? t4) then
        match rest with
        | s1 :: s2 :: _ =>
            if cont s1 && cont s2 then
              let r := Z.lor (Z.lor (Z.shiftl (Z.land c mask3) 12)
                                    (Z.shiftl (Z.land (byteZ s1) maskx) 6))
                             (Z.land (byteZ s2) maskx) in
              if (rune2Max <? r)
                 && negb ((surrogateMin <=? r) && (r <=? surrogateMax))
              then (r, 3%nat) else (RuneError, 1%nat)
            else (RuneError, 1%nat)
        | _ => (RuneError, 1%nat)
        end
      else if (t4 <=? c) && (c <? t5) then
        match rest with
        | s1 :: s2 :: s3 :: _ =>
            if cont s1 && cont s2 && cont s3 then
              let r := Z.lor (Z.lor (Z.lor
                         (Z.shiftl (Z.land c mask4) 18)
                         (Z.shiftl (Z.land (byteZ s1) maskx) 12))
                         (Z.shiftl (Z.land (byteZ s2) maskx) 6))
                         (Z.land (byteZ s3) maskx) in
              if (rune3Max <? r) && (r <=? MaxRune)
              then (r, 4%nat) else (RuneError, 1%nat)
            else (RuneError, 1%nat)
        | _ => (RuneError, 1%nat)
        end
      else (RuneError, 1%nat)
  end.

(** [utf8.AppendRune(p, r)], which [strings.Builder.WriteRune] calls.
    [r] is an [int32]; [i] is [uint32(r)]. *)
Definition AppendRune (p : gostring) (r : Z) : gostring :=
  let i := r mod 2 ^ 32 in
  if i <=? rune1Max then p ++ [byte_of_Z r]
  else if i <=? rune2Max then
    p ++ [byte_of_Z (Z.lor t2 (byteZ (byte_of_Z (Z.shiftr r 6))));
          byte_of_Z (Z.lor tx (Z.land (byteZ (byte_of_Z r)) maskx))]
  else
    let bad := (MaxRune <? i) || ((surrogateMin <=? i) && (i <=? surrogateMax)) in
    let r := if bad then RuneError else r in
    if bad || (i <=? rune3Max) then
      p ++ [byte_of_Z (Z.lor t3 (byteZ (byte_of_Z (Z.shiftr r 12))));
            byte_of_Z (Z.lor tx (Z.land (byteZ (byte_of_Z (Z.shiftr r 6))) maskx));
            byte_of_Z (Z.lor tx (Z.land (byteZ (byte_of_Z r)) maskx))]
    else
      p ++ [byte_of_Z (Z.lor t4 (byteZ (byte_of_Z (Z.shiftr r 18))));
            byte_of_Z (Z.lor tx (Z.land (byteZ (byte_of_Z (Z.shiftr r 12))) maskx));
            byte_of_Z (Z.lor tx (Z.land (byteZ (byte_of_Z (Z.shiftr r 6))) maskx));
            byte_of_Z (Z.lor tx (Z.land (byteZ (byte_of_Z r)) maskx))].

(** The iterations of [for i, r := range s]: the byte index and the rune
    of each step.  [skip] counts the bytes of the current rune that are
    still to be passed over. *)
Fixpoint range_from (i : nat) (skip : nat) (s : gostring) : list (Z * Z) :=
  match s with
  | [] => []
  | _ :: rest =>
      match skip with
      | S k => range_from (S i) k rest
      | O => let '(r, w) := decoderune s in
             (Z.of_nat i, r) :: range_from (S i) (w - 1) rest
      end
  end.

Definition range (s : gostring) : list (Z * Z) := range_from 0 0 s.

(** [utf8.ValidString]: every step of the decoding consumes a
    well-formed sequence. *)
Fixpoint valid_from (skip : nat) (s : gostring) : bool :=
  match s with
  | [] => Nat.eqb skip 0
  | s0 :: rest =>
      match skip with
      | S k => valid_from k rest
      | O => let '(r, w) := decoderune s in
             ((byteZ s0 <? RuneSelf) || Nat.ltb 1 w) && valid_from (w - 1) rest
      end
  end.

Definition ValidString (s : gostring) : bool := valid_from 0 s.

End utf8.

(* ------------------------------------------------------------------ *)
(** ** Errors and results *)

(** Go [error] values.  [wrapError pre e] is [fmt.Errorf] with a format
    ending in [%w]: [pre] is the formatted text before the wrapped error
    [e].  [NumError] is [*strconv.NumError]. *)
Inductive error : Type :=
| errorString (msg : gostring)
| wrapError (pre : gostring) (err : error)
| NumError (Func Num : gostring) (Err : error).

(** The outcome of a call that returns [(T, error)] and may panic. *)
Inductive result (A : Type) : Type :=
| Ok (a : A)
| Err (e : error)
| Panic (p : panic).
Arguments Ok {A} a.
Arguments Err {A} e.
Arguments Panic {A} p.

Definition lift_slice {A} (x : panic + A) : result A :=
  match x with inl p => Panic p | inr a => Ok a end.

(* ------------------------------------------------------------------ *)
(** ** Package [unicode] and [strings] *)

Module unicode.

(** [unicode.IsSpace]: the Latin-1 spaces and the [White_Space] table. *)
Definition IsSpace (r : Z) : bool :=
  ((0x09 <=? r) && (r <=? 0x0D)) || (r =? 0x20) || (r =? 0x85) || (r =? 0xA0)
  || (r =? 0x1680) || ((0x2000 <=? r) && (r <=? 0x200A))
  || (r =? 0x2028) || (r =? 0x2029) || (r =? 0x202F) || (r =? 0x205F)
  || (r =? 0x3000).

(** [unicode.ToLower]: ASCII letters are lowered in place; every other
    rune goes through the case table [lowerCase] ([To(LowerCase, r)]). *)
Definition ToLower (lowerCase : Z -> Z) (r : Z) : Z :=
  if r <=? 0x7F then
    if (0x41 <=? r) && (r <=? 0x5A) then r + 0x20 else r
  else lowerCase r.

End unicode.

Module strings.

(** [s[i]] at an index the caller has checked. *)
Definition byte_at (s : gostring) (i : Z) : ascii := nth (Z.to_nat i) s zero.

Definition DecodeRuneInString (s : gostring) : Z * nat :=
  match s with
  | [] => (utf8.RuneError, 0%nat)
  | _ => utf8.decoderune s
  end.

(** [utf8.RuneStart]. *)
Definition RuneStart (b : ascii) : bool :=
  negb (Z.land (byteZ b) 0xC0 =? 0x80).

(** The backward search of [DecodeLastRuneInString] for a start byte,
    no further back than [lim]. *)
Fixpoint back (fuel : nat) (s : gostring) (start lim : Z) : Z :=
  match fuel with
  | O => start
  | S f =>
      if lim <=? start then
        if RuneStart (byte_at s start) then start
        else back f s (start - 1) lim
      else start
  end.

(** [utf8.DecodeLastRuneInString]. *)
Definition DecodeLastRuneInString (s : gostring) : Z * Z :=
  let e := len s in
  if e =? 0 then (utf8.RuneError, 0)
  else
    let r := byteZ (byte_at s (e - 1)) in
    if r <? utf8.RuneSelf then (r, 1)
    else
      let lim := Z.max 0 (e - utf8.UTFMax) in
      let start := back 4 s (e - 2) lim in
      let start := if start <? 0 then 0 else start in
      let '(r, size) := DecodeRuneInString (skipn (Z.to_nat start) s) in
      if start + Z.of_nat size =? e then (r, Z.of_nat size)
      else (utf8.RuneError, 1).

(** [indexFunc]: the index of the first rune [r] with [f r = truth]. *)
Fixpoint indexFunc_loop (its : list (Z * Z)) (f : Z -> bool) (truth : bool) : Z :=
  match its with
  | [] => -1
  | (i, r) :: its' =>
      if Bool.eqb (f r) truth then i else indexFunc_loop its' f truth
  end.
Definition indexFunc (s : gostring) (f : Z -> bool) (truth : bool) : Z :=
  indexFunc_loop (utf8.range s) f truth.

(** [lastIndexFunc]; every round takes at least one byte off [s[0:i]]. *)
Fixpoint lastIndexFunc_loop (fuel : nat) (s : gostring) (i : Z)
         (f : Z -> bool) (truth : bool) : Z :=
  match fuel with
  | O => -1
  | S fuel' =>
      if 0 <? i then
        let '(r, size) := DecodeLastRuneInString (firstn (Z.to_nat i) s) in
        let i := i - size in
        if Bool.eqb (f r) truth then i
        else lastIndexFunc_loop fuel' s i f truth
      else -1
  end.
Definition lastIndexFunc (s : gostring) (f : Z -> bool) (truth : bool) : Z :=
  lastIndexFunc_loop (S (List.length s)) s (len s) f truth.

Definition TrimLeftFunc (s : gostring) (f : Z -> bool) : gostring :=
  let i := indexFunc s f false in
  if i =? -1 then [] else skipn (Z.to_nat i) s.

Definition TrimRightFunc (s : gostring) (f : Z -> bool) : gostring :=
  let i := lastIndexFunc s f false in
  let i :=
    if (0 <=? i) && (utf8.RuneSelf <=? byteZ (byte_at s i)) then
      i + Z.of_nat (snd (DecodeRuneInString (skipn (Z.to_nat i) s)))
    else i + 1 in
  firstn (Z.to_nat i) s.

(** [strings.TrimSpace]: leading and trailing white space removed.  The
    source's loops over ASCII bytes are a fast path of this function. *)
Definition TrimSpace (s : gostring) : gostring :=
  TrimRightFunc (TrimLeftFunc s unicode.IsSpace) unicode.IsSpace.

(** [strings.Map]: the mapped runes written one after the other, the
    negative ones dropped. *)
Definition Map (mapping : Z -> Z) (s : gostring) : gostring :=
  fold_left
    (fun b '(_, c) => let r := mapping c in
                      if 0 <=? r then utf8.AppendRune b r else b)
    (utf8.range s) [].

Definition lower_byte (c : ascii) : ascii :=
  if (0x41 <=? byteZ c) && (byteZ c <=? 0x5A)
  then byte_of_Z (byteZ c + 0x20) else c.

(** [strings.ToLower]: bytewise on ASCII-only strings, [Map] with
    [unicode.ToLower] otherwise. *)
Definition ToLower (lowerCase : Z -> Z) (s : gostring) : gostring :=
  if forallb (fun c => byteZ c <? utf8.RuneSelf) s
  then map lower_byte s
  else Map (unicode.ToLower lowerCase) s.

End strings.

(* ------------------------------------------------------------------ *)
(** ** Package [strconv]: [ParseInt] for an explicit base *)

Module strconv.

Definition ErrSyntax : error := errorString (go "invalid syntax").
Definition ErrRange : error := errorString (go "value out of range").

(** [lower(c)]: [c | ('x' - 'X')]. *)
Definition lower (c : Z) : Z := Z.lor c 0x20.

(** The value of one digit, if [c] is a digit or a letter. *)
Definition digit (c : Z) : option Z :=
  if (0x30 <=? c) && (c <=? 0x39) then Some (c - 0x30)
  else if (0x61 <=? lower c) && (lower c <=? 0x7A) then Some (lower c - 0x61 + 10)
  else None.

(** The digit loop of [ParseUint] for [2 <= base <= 36]: [inl] is the
    error kind, [inr] the value. *)
Fixpoint ParseUint_loop (base bitSize : Z) (cs : gostring) (n : Z) : error + Z :=
  match cs with
  | [] => inr n
  | c :: cs' =>
      match digit (byteZ c) with
      | None => inl ErrSyntax
      | Some d =>
          if base <=? d then inl ErrSyntax
          else
            let cutoff := (2 ^ 64 - 1) / base + 1 in
            let maxVal := 2 ^ bitSize - 1 in
            if cutoff <=? n then inl ErrRange
            else
              let n := n * base in
              let n1 := (n + d) mod 2 ^ 64 in
              if (n1 <? n) || (maxVal <? n1) then inl ErrRange
              else ParseUint_loop base bitSize cs' n1
      end
  end.

Definition ParseUint (s : gostring) (base bitSize : Z) : error + Z :=
  match s with
  | [] => inl ErrSyntax
  | _ => ParseUint_loop base bitSize s 0
  end.

(** [strconv.ParseInt(s, base, bitSize)] with [2 <= base <= 36] and
    [1 <= bitSize <= 64]: an optional sign, then [ParseUint]. *)
Definition ParseInt (s : gostring) (base bitSize : Z) : error + Z :=
  let fnParseInt := go "ParseInt" in
  match s with
  | [] => inl (NumError fnParseInt s ErrSyntax)
  | c :: rest =>
      let neg := byteZ c =? 0x2D in
      let digits := if (byteZ c =? 0x2B) || neg then rest else s in
      match ParseUint digits base bitSize with
      | inl kind => inl (NumError fnParseInt s kind)
      | inr un =>
          let cutoff := 2 ^ (bitSize - 1) in
          if negb neg && (cutoff <=? un) then inl (NumError fnParseInt s ErrRange)
          else if neg && (cutoff <? un) then inl (NumError fnParseInt s ErrRange)
          else inr (if neg then - un else un)
      end
  end.

End strconv.

(* ------------------------------------------------------------------ *)
(** ** Package [p4]: the pure helpers of [p4.go] *)

(** [streamDepth]: one less than the number of ['/'] runes. *)
Definition streamDepth (stream : gostring) : result Z :=
  let count :=
    fold_left (fun count '(_, r) => if r =? 0x2F then count + 1 else count)
              (utf8.range stream) (-1) in
  if count <? 1
  then Err (errorString (go "unable to get stream depth of '" ++ stream ++ go "'"))
  else Ok count.

(** The loop of [getDepotPrefix]: [n] rounds of
    [i += strings.Index(line[i:], "/"); i++]. *)
Fixpoint getDepotPrefix_loop (n : nat) (line : gostring) (i : Z) : panic + Z :=
  match n with
  | O => inr i
  | S n' =>
      match slice_from line i with
      | inl p => inl p
      | inr rest => getDepotPrefix_loop n' line (i + Index rest (go "/") + 1)
      end
  end.

Definition getDepotPrefix (line : gostring) (depth : Z) : result gostring :=
  if negb (HasPrefix line (go "//"))
  then Err (errorString (go "line '" ++ line ++ go "' does not begin with '//'"))
  else
    match getDepotPrefix_loop (Z.to_nat depth) line 2 with
    | inl p => Panic p
    | inr i => lift_slice (slice_to line i)
    end.

Definition getDepotName (line : gostring) : result gostring :=
  match getDepotPrefix line 1 with
  | Ok prefix =>
      if len prefix <? 3
      then Err (errorString
                  (go "line '" ++ line ++ go "' does not have a full depot prefix"))
      else lift_slice (slice prefix 2 (len prefix - 1))
  | Err e => Err e
  | Panic p => Panic p
  end.

(** [EscapePath].  The first loop of the source only sizes the builder. *)
Definition EscapePath (path : gostring) : gostring :=
  fold_left
    (fun sb '(_, r) =>
       if r =? 0x40 then sb ++ go "%40"
       else if r =? 0x23 then sb ++ go "%23"
       else if r =? 0x2A then sb ++ go "%2A"
       else if r =? 0x25 then sb ++ go "%25"
       else utf8.AppendRune sb r)
    (utf8.range path) [].

(** The conversion [rune(c)] of an [int64]. *)
Definition rune_of_int64 (c : Z) : Z := (c + 2 ^ 31) mod 2 ^ 32 - 2 ^ 31.

(** The local variables of [UnescapePath]. *)
Record unescape : Type := mkUnescape {
  sb : gostring;
  escaped : bool;
  start : Z
}.

Fixpoint UnescapePath_loop (path : gostring) (its : list (Z * Z)) (st : unescape)
  : result unescape :=
  match its with
  | [] => Ok st
  | (i, r) :: its' =>
      if escaped st then
        if 2 <=? i - start st then
          match slice path (start st + 1) (i + 1) with
          | inl p => Panic p
          | inr digits =>
              match strconv.ParseInt digits 16 64 with
              | inl err =>
                  match slice path (start st) (i + 1) with
                  | inl p => Panic p
                  | inr code =>
                      Err (wrapError
                             (go "error parsing perforce-style escape code '"
                                 ++ code ++ go "': ") err)
                  end
              | inr c =>
                  UnescapePath_loop path its'
                    (mkUnescape (utf8.AppendRune (sb st) (rune_of_int64 c))
                                false (start st))
              end
          end
        else UnescapePath_loop path its' st
      else if r =? 0x25 then
        UnescapePath_loop path its' (mkUnescape (sb st) true i)
      else
        UnescapePath_loop path its'
          (mkUnescape (utf8.AppendRune (sb st) r) false (start st))
  end.

Definition UnescapePath (path : gostring) : result gostring :=
  match UnescapePath_loop path (utf8.range path) (mkUnescape [] false 0) with
  | Ok st =>
      if escaped st
      then Err (errorString
                  (go "string ended before escaped character value in '"
                      ++ path ++ go "'"))
      else Ok (sb st)
  | Err e => Err e
  | Panic p => Panic p
  end.

(* ------------------------------------------------------------------ *)
(** ** Depot files and their order *)

Record DepotFile : Type := mkDepotFile {
  Path : gostring;
  Action : gostring;
  CL : gostring;
  Type_ : gostring;
  Digest : gostring
}.

(** The zero value [DepotFile{}]. *)
Definition DepotFile_zero : DepotFile := mkDepotFile [] [] [] [] [].

(** [DepotFileCaseInsensitive.Less], on the elements themselves;
    [lowerCase] is the case table of package [unicode]. *)
Definition Less (lowerCase : Z -> Z) (x y : DepotFile) : bool :=
  string_ltb (strings.ToLower lowerCase (Path x)) (strings.ToLower lowerCase (Path y)).

(* ------------------------------------------------------------------ *)
(** ** Package [sort]: [sort.Sort], the pattern-defeating quicksort

    [data] is the slice behind the [sort.Interface] value; [Less] and
    [Swap] are its methods.  Every loop runs on fuel that covers the range
    it works on. *)

Module sort.
Section Interface.

Variable A : Type.
Variable less : A -> A -> bool.

Definition get (data : list A) (i : Z) : option A :=
if i <? 0 then None else nth_error data (Z.to_nat i).

Fixpoint set_nth (data : list A) (n : nat) (x : A) : list A :=
match data, n with
| [], _ => []
| _ :: tl, O => x :: tl
| y :: tl, S n' => y :: set_nth tl n' x
end.

(** [data.Less(i, j)]. *)
Definition Less (data : list A) (i j : Z) : bool :=
match get data i, get data j with
| Some x, Some y => less x y
| _, _ => false
end.

(** [data.Swap(i, j)]. *)
Definition Swap (data : list A) (i j : Z) : list A :=
match get data i, get data j with
| Some x, Some y => set_nth (set_nth data (Z.to_nat i) y) (Z.to_nat j) x
| _, _ => data
end.

(** The inner loop of [insertionSort]:
  [for j := i; j > a && data.Less(j, j-1); j-- { data.Swap(j, j-1) }]. *)
Fixpoint insertionSort_inner (fuel : nat) (data : list A) (a j : Z) : list A :=
match fuel with
| O => data
| S f =>
    if (a <? j) && Less data j (j - 1)
    then insertionSort_inner f (Swap data j (j - 1)) a (j - 1)
    else data
end.

Fixpoint insertionSort_outer (fuel : nat) (data : list A) (a b i : Z) : list A :=
match fuel with
| O => data
| S f =>
    if i <? b
    then insertionSort_outer f
           (insertionSort_inner (Z.to_nat (i - a)) data a i) a b (i + 1)
    else data
end.

Definition insertionSort (data : list A) (a b : Z) : list A :=
insertionSort_outer (Z.to_nat (b - a)) data a b (a + 1).

(** [siftDown(data, lo, hi, first)]. *)
Fixpoint siftDown_loop (fuel : nat) (data : list A) (root hi first : Z) : list A :=
match fuel with
| O => data
| S f =>
    let child := 2 * root + 1 in
    if hi <=? child then data
    else
      let child :=
        if (child + 1 <? hi) && Less data (first + child) (first + child + 1)
        then child + 1 else child in
      if negb (Less data (first + root) (first + child)) then data
      else siftDown_loop f (Swap data (first + root) (first + child)) child hi first
end.

Definition siftDown (data : list A) (lo hi first : Z) : list A :=
siftDown_loop (S (Z.to_nat hi)) data lo hi first.

(** The loops of [heapSort], counting [i] down to [0]. *)
Fixpoint heapSort_build (n : nat) (data : list A) (hi first : Z) : list A :=
match n with
| O => data
| S n' => heapSort_build n' (siftDown data (Z.of_nat n') hi first) hi first
end.

Fixpoint heapSort_pop (n : nat) (data : list A) (lo first : Z) : list A :=
match n with
| O => data
| S n' =>
    let i := Z.of_nat n' in
    heapSort_pop n' (siftDown (Swap data first (first + i)) lo i first) lo first
end.

Definition heapSort (data : list A) (a b : Z) : list A :=
let first := a in
let lo := 0 in
let hi := b - a in
let data := heapSort_build (Z.to_nat (Z.quot (hi - 1) 2 + 1)) data hi first in
heapSort_pop (Z.to_nat hi) data lo first.

Inductive sortedHint : Type := unknownHint | increasingHint | decreasingHint.

(** [xorshift.Next] on a [uint64]. *)
Definition xorshift_Next (r : Z) : Z :=
let r := Z.lxor r (Z.shiftl r 13 mod 2 ^ 64) in
let r := Z.lxor r (Z.shiftr r 7) in
Z.lxor r (Z.shiftl r 17 mod 2 ^ 64).

(** [bits.Len]. *)
Definition bits_Len (x : Z) : Z := if x <=? 0 then 0 else Z.log2 x + 1.

Definition nextPowerOfTwo (length : Z) : Z := Z.shiftl 1 (bits_Len length).

Fixpoint breakPatterns_loop (n : nat) (data : list A) (a length idx modulus random i : Z)
: list A :=
match n with
| O => data
| S n' =>
    let random := xorshift_Next random in
    let other := Z.land random (modulus - 1) in
    let other := if length <=? other then other - length else other in
    breakPatterns_loop n' (Swap data (idx - 1 + i) (a + other))
                       a length idx modulus random (i + 1)
end.

Definition breakPatterns (data : list A) (a b : Z) : list A :=
let length := b - a in
if 8 <=? length then
  let random := length in
  let modulus := nextPowerOfTwo length in
  let idx := a + Z.quot length 4 * 2 - 1 in
  breakPatterns_loop 3 data a length idx modulus random 0
else data.

(** [order2], [median] and [medianAdjacent]; the counter [*swaps] is
  threaded through. *)
Definition order2 (data : list A) (a b swaps : Z) : Z * Z * Z :=
if Less data b a then (b, a, swaps + 1) else (a, b, swaps).

Definition median (data : list A) (a b c swaps : Z) : Z * Z :=
let '(a, b, swaps) := order2 data a b swaps in
let '(b, c, swaps) := order2 data b c swaps in
let '(a, b, swaps) := order2 data a b swaps in
(b, swaps).

Definition medianAdjacent (data : list A) (a swaps : Z) : Z * Z :=
median data (a - 1) a (a + 1) swaps.

Definition choosePivot (data : list A) (a b : Z) : Z * sortedHint :=
let shortestNinther := 50 in
let maxSwaps := 4 * 3 in
let l := b - a in
let swaps := 0 in
let i := a + Z.quot l 4 * 1 in
let j := a + Z.quot l 4 * 2 in
let k := a + Z.quot l 4 * 3 in
let '(j, swaps) :=
  if 8 <=? l then
    let '(i, j, k, swaps) :=
      if shortestNinther <=? l then
        let '(i, swaps) := medianAdjacent data i swaps in
        let '(j, swaps) := medianAdjacent data j swaps in
        let '(k, swaps) := medianAdjacent data k swaps in
        (i, j, k, swaps)
      else (i, j, k, swaps) in
    median data i j k swaps
  else (j, swaps) in
if swaps =? 0 then (j, increasingHint)
else if swaps =? maxSwaps then (j, decreasingHint)
else (j, unknownHint).

Fixpoint reverseRange_loop (fuel : nat) (data : list A) (i j : Z) : list A :=
match fuel with
| O => data
| S f => if i <? j then reverseRange_loop f (Swap data i j) (i + 1) (j - 1) else data
end.

Definition reverseRange (data : list A) (a b : Z) : list A :=
reverseRange_loop (Z.to_nat (b - a)) data a (b - 1).

(** The two scans of [partition] and [partitionEqual]. *)
Fixpoint scan_up (fuel : nat) (test : Z -> bool) (i j : Z) : Z :=
match fuel with
| O => i
| S f => if (i <=? j) && test i then scan_up f test (i + 1) j else i
end.

Fixpoint scan_down (fuel : nat) (test : Z -> bool) (i j : Z) : Z :=
match fuel with
| O => j
| S f => if (i <=? j) && test j then scan_down f test i (j - 1) else j
end.

Fixpoint partition_loop (fuel : nat) (data : list A) (a i j : Z) : list A * Z :=
match fuel with
| O => (data, j)
| S f =>
    let i := scan_up (S (Z.to_nat (j - i))) (fun i => Less data i a) i j in
    let j := scan_down (S (Z.to_nat (j - i))) (fun j => negb (Less data j a)) i j in
    if j <? i then (data, j)
    else partition_loop f (Swap data i j) a (i + 1) (j - 1)
end.

Definition partition (data : list A) (a b pivot : Z) : list A * Z * bool :=
let data := Swap data a pivot in
let i := a + 1 in
let j := b - 1 in
let i := scan_up (S (Z.to_nat (j - i))) (fun i => Less data i a) i j in
let j := scan_down (S (Z.to_nat (j - i))) (fun j => negb (Less data j a)) i j in
if j <? i then (Swap data j a, j, true)
else
  let data := Swap data i j in
  let '(data, j) := partition_loop (Z.to_nat (b - a)) data a (i + 1) (j - 1) in
  (Swap data j a, j, false).

Fixpoint partitionEqual_loop (fuel : nat) (data : list A) (a i j : Z) : list A * Z :=
match fuel with
| O => (data, i)
| S f =>
    let i := scan_up (S (Z.to_nat (j - i))) (fun i => negb (Less data a i)) i j in
    let j := scan_down (S (Z.to_nat (j - i))) (fun j => Less data a j) i j in
    if j <? i then (data, i)
    else partitionEqual_loop f (Swap data i j) a (i + 1) (j - 1)
end.

Definition partitionEqual (data : list A) (a b pivot : Z) : list A * Z :=
let data := Swap data a pivot in
partitionEqual_loop (S (Z.to_nat (b - a))) data a (a + 1) (b - 1).

(** The two shifts of [partialInsertionSort]. *)
Fixpoint shift_left (fuel : nat) (data : list A) (j : Z) : list A :=
match fuel with
| O => data
| S f =>
    if 1 <=? j then
      if negb (Less data j (j - 1)) then data
      else shift_left f (Swap data j (j - 1)) (j - 1)
    else data
end.

Fixpoint shift_right (fuel : nat) (data : list A) (j b : Z) : list A :=
match fuel with
| O => data
| S f =>
    if j <? b then
      if negb (Less data j (j - 1)) then data
      else shift_right f (Swap data j (j - 1)) (j + 1) b
    else data
end.

Fixpoint partialInsertionSort_loop (steps : nat) (data : list A) (a b i : Z)
: list A * bool :=
match steps with
| O => (data, false)
| S steps' =>
    let shortestShifting := 50 in
    let i := scan_up (S (Z.to_nat (b - i)))
                     (fun i => negb (Less data i (i - 1))) i (b - 1) in
    if i =? b then (data, true)
    else if b - a <? shortestShifting then (data, false)
    else
      let data := Swap data i (i - 1) in
      let data := if 2 <=? i - a then shift_left (Z.to_nat i) data (i - 1) else data in
      let data := if 2 <=? b - i then shift_right (Z.to_nat (b - i)) data (i + 1) b else data in
      partialInsertionSort_loop steps' data a b i
end.

Definition partialInsertionSort (data : list A) (a b : Z) : list A * bool :=
let maxSteps := 5%nat in
partialInsertionSort_loop maxSteps data a b (a + 1).

(** [pdqsort(data, a, b, limit)]: one round of its loop per unit of
  fuel; the recursive call on the smaller side starts with both flags
  set. *)
Fixpoint pdqsort (fuel : nat) (data : list A) (a b limit : Z)
       (wasBalanced wasPartitioned : bool) : list A :=
match fuel with
| O => data
| S f =>
    let maxInsertion := 12 in
    let length := b - a in
    if length <=? maxInsertion then insertionSort data a b
    else if limit =? 0 then heapSort data a b
    else
      let data := if wasBalanced then data else breakPatterns data a b in
      let limit := if wasBalanced then limit else limit - 1 in
      let '(pivot, hint) := choosePivot data a b in
      let '(data, pivot, hint) :=
        match hint with
        | decreasingHint =>
            (reverseRange data a b, (b - 1) - (pivot - a), increasingHint)
        | _ => (data, pivot, hint)
        end in
      let '(data, sorted) :=
        match wasBalanced && wasPartitioned, hint with
        | true, increasingHint => partialInsertionSort data a b
        | _, _ => (data, false)
        end in
      if sorted then data
      else if (0 <? a) && negb (Less data (a - 1) pivot) then
        let '(data, mid) := partitionEqual data a b pivot in
        pdqsort f data mid b limit wasBalanced wasPartitioned
      else
        let '(data, mid, alreadyPartitioned) := partition data a b pivot in
        let wasPartitioned := alreadyPartitioned in
        let leftLen := mid - a in
        let rightLen := b - mid in
        let balanceThreshold := Z.quot length 8 in
        if leftLen <? rightLen then
          let wasBalanced := balanceThreshold <=? leftLen in
          let data := pdqsort f data a mid limit true true in
          pdqsort f data (mid + 1) b limit wasBalanced wasPartitioned
        else
          let wasBalanced := balanceThreshold <=? rightLen in
          let data := pdqsort f data (mid + 1) b limit true true in
          pdqsort f data a mid limit wasBalanced wasPartitioned
end.

(** [sort.Sort(data)]. *)
Definition Sort (data : list A) : list A :=
let n := Z.of_nat (List.length data) in
if n <=? 1 then data
else
  let limit := bits_Len n in
  pdqsort (S (List.length data)) data 0 n limit true true.

End Interface.
End sort.

(* ------------------------------------------------------------------ *)
(** ** The [P4] object, its world and the external commands *)

Record P4 : Type := mkP4 {
  Port : gostring;
  User : gostring;
  Charset : gostring;
  Client : gostring;
  streamDepthCache : Z
}.

(** The receiver [p] and the commands handed to the shell so far. *)
Record World : Type := mkWorld {
  self : P4;
  launched : list gostring
}.

(** A method of [*P4]: it may read and update the world, and it returns a
    value, returns an error, or panics. *)
Definition M (A : Type) : Type := World -> result A * World.

Definition ret {A} (a : A) : M A := fun w => (Ok a, w).
Definition fail {A} (e : error) : M A := fun w => (Err e, w).
Definition lift {A} (r : result A) : M A := fun w => (r, w).

Definition bind {A B} (m : M A) (k : A -> M B) : M B :=
  fun w =>
    match m w with
    | (Ok a, w') => k a w'
    | (Err e, w') => (Err e, w')
    | (Panic p, w') => (Panic p, w')
    end.

(** [if err != nil { return ..., fmt.Errorf(pre + "%w", err) }]. *)
Definition wrap {A} (pre : gostring) (m : M A) : M A :=
  fun w =>
    match m w with
    | (Err e, w') => (Err (wrapError pre e), w')
    | other => other
    end.

Notation "x <- m ;; k" := (bind m (fun x => k))
  (at level 61, m at next level, right associativity).

Definition launch (cmd : gostring) (w : World) : World :=
  mkWorld (self w) (launched w ++ [cmd]).

Definition set_streamDepthCache (depth : Z) (w : World) : World :=
  mkWorld (mkP4 (Port (self w)) (User (self w)) (Charset (self w))
                (Client (self w)) depth)
          (launched w).

(** A [map[string]string], as the entries in the order in which a [range]
    over it visits them. *)
Definition spec : Type := list (gostring * gostring).

Fixpoint lookup (m : spec) (key : gostring) : option gostring :=
  match m with
  | [] => None
  | (k, v) :: m' => if gostring_eqb k key then Some v else lookup m' key
  end.

(** What [cmdAndScan] observes of one run of a command behind the pipe:
    the texts [s.Scan()] delivers, the result of [RunErr()] that arrives
    on [chCmd], and [s.Err()] after the loop.  The last two may depend on
    the error the read side of the pipe was closed with. *)
Record PipeRun : Type := mkPipeRun {
  tokens : list gostring;
  RunErr : option error -> option error;
  ScanErr : option error -> option error
}.

(** [r.CloseWithError(err)]: the first error stays. *)
Definition CloseWithError (rerr : option error) (err : error) : option error :=
  match rerr with
  | Some e => Some e
  | None => Some err
  end.

(** A callback [func(line string) error] closing over variables of type
    [H]: it panics, or leaves the variables in a new state and returns an
    error or [nil]. *)
Definition callback (H : Type) : Type := H -> gostring -> panic + (H * option error).

(** The loop [for s.Scan() { ... }] of [cmdAndScan]. *)
Fixpoint scan_loop {H} (fnEachLine : callback H) (ts : list gostring)
         (h : H) (rerr : option error) : panic + (H * option error) :=
  match ts with
  | [] => inr (h, rerr)
  | t :: ts' =>
      match fnEachLine h t with
      | inl p => inl p
      | inr (h', None) => scan_loop fnEachLine ts' h' rerr
      | inr (h', Some err) => scan_loop fnEachLine ts' h' (CloseWithError rerr err)
      end
  end.

(** The variables the callback of [runAndParseDepotFiles] closes over. *)
Record parser : Type := mkParser {
  out : list DepotFile;
  cur : DepotFile;
  prefix : gostring
}.

Definition with_cur (st : parser) (c : DepotFile) : parser :=
  mkParser (out st) c (prefix st).

Definition set_Path (d : DepotFile) (v : gostring) : DepotFile :=
  mkDepotFile v (Action d) (CL d) (Type_ d) (Digest d).
Definition set_Action (d : DepotFile) (v : gostring) : DepotFile :=
  mkDepotFile (Path d) v (CL d) (Type_ d) (Digest d).
Definition set_CL (d : DepotFile) (v : gostring) : DepotFile :=
  mkDepotFile (Path d) (Action d) v (Type_ d) (Digest d).
Definition set_Type (d : DepotFile) (v : gostring) : DepotFile :=
  mkDepotFile (Path d) (Action d) (CL d) v (Digest d).
Definition set_Digest (d : DepotFile) (v : gostring) : DepotFile :=
  mkDepotFile (Path d) (Action d) (CL d) (Type_ d) v.

(** A field assignment [cur.F = strings.TrimSpace(line[n:])]. *)
Definition assign (st : parser) (set : DepotFile -> gostring -> DepotFile)
           (line : gostring) (n : Z) : panic + (parser * option error) :=
  match slice_from line n with
  | inl p => inl p
  | inr v => inr (with_cur st (set (cur st) (strings.TrimSpace v)), None)
  end.

(** The callback of [runAndParseDepotFiles]. *)
Definition onLine (streamDepth : Z) : callback parser :=
  fun st rawLine =>
    let line := strings.TrimSpace rawLine in
    if len line =? 0 then
      let out' := if negb (len (Path (cur st)) =? 0)
                  then out st ++ [cur st] else out st in
      inr (mkParser out' DepotFile_zero (prefix st), None)
    else if (len line <? 5) || negb (HasPrefix line (go "... ")) then
      inr (st, Some (errorString (go "expected '... <tag>', but got: " ++ line)))
    else
      match slice_from line 4 with
      | inl p => inl p
      | inr tag =>
          if HasPrefix tag (go "depotFile") then
            match slice_from line 14 with
            | inl p => inl p
            | inr v =>
                let raw := strings.TrimSpace v in
                let found :=
                  if len (prefix st) =? 0
                  then getDepotPrefix raw streamDepth
                  else Ok (prefix st) in
                match found with
                | Panic p => inl p
                | Err err =>
                    inr (mkParser (out st) (cur st) [],
                         Some (wrapError (go "error parsing depot prefix: ") err))
                | Ok pre =>
                    match slice_from raw (len pre) with
                    | inl p => inl p
                    | inr path =>
                        inr (mkParser (out st) (set_Path (cur st) path) pre, None)
                    end
                end
            end
          else if HasPrefix tag (go "action") then assign st set_Action line 10
          else if HasPrefix tag (go "headAction") then assign st set_Action line 14
          else if HasPrefix tag (go "change") then assign st set_CL line 10
          else if HasPrefix tag (go "headChange") then assign st set_CL line 14
          else if HasPrefix tag (go "type") then assign st set_Type line 8
          else if HasPrefix tag (go "headType") then assign st set_Type line 12
          else if HasPrefix tag (go "digest") then assign st set_Digest line 10
          else inr (st, None)
      end.

Section Environment.

(** The case table of package [unicode]. *)
Variable lowerCase : Z -> Z.

(** [P4.GetClientSpec] and [ParseSpec] live in files of the package
    that are not part of this development. *)
Variable GetClientSpec : M spec.
Variable ParseSpec : gostring -> spec.

(** [p.sh.Cmd(cmd).Out(&sb).RunErr()]: what the command wrote and the
    error of the run. *)
Variable sh_Out : World -> gostring -> gostring * option error.

(** [p.sh.Cmd(cmd).Out(w).RunErr()] behind the pipe of [cmdAndScan]. *)
Variable sh_Pipe : World -> gostring -> PipeRun.

(** [P4.cmd]. *)
Definition cmd (p : P4) : gostring :=
  go "p4"
  ++ (if 0 <? len (Port p) then go " -p " ++ Port p else [])
  ++ (if 0 <? len (User p) then go " -u " ++ User p else [])
  ++ (if 0 <? len (Client p) then go " -c " ++ Client p else [])
  ++ (if 0 <? len (Charset p) then go " -C " ++ Charset p else []).

(** [P4.cmdAndScan]: the final state of the callback's variables and
    the returned error. *)
Definition cmdAndScan {H} (cmd : gostring) (fnEachLine : callback H) (h : H)
  : M (H * option error) :=
  fun w =>
    let run := sh_Pipe w cmd in
    let w' := launch cmd w in
    match scan_loop fnEachLine (tokens run) h None with
    | inl p => (Panic p, w')
    | inr (h', rerr) =>
        let err := RunErr run rerr in
        let err := match err with Some _ => err | None => ScanErr run rerr end in
        (Ok (h', err), w')
    end.

(** [P4.GetDepotSpec]. *)
Definition GetDepotSpec (name : gostring) : M spec :=
  fun w =>
    let c := cmd (self w) ++ go " -z tag depot -o " ++ name in
    let '(text, err) := sh_Out w c in
    match err with
    | Some e => (Err (wrapError (go "error getting depot " ++ name ++ go ": ") e),
                 launch c w)
    | None => (Ok (ParseSpec text), launch c w)
    end.

(** The loop over the client spec in [P4.Depot]. *)
Fixpoint Depot_views (m : spec) : result gostring :=
  match m with
  | [] => Err (errorString
                 (go "could not find any View or Stream entries in client spec"))
  | (key, value) :: m' =>
      if negb (HasPrefix key (go "View")) then Depot_views m'
      else match getDepotName value with
           | Err e => Err (wrapError (go "error getting depot from mapping "
                                         ++ value ++ go ": ") e)
           | other => other
           end
  end.

(** [P4.Depot]. *)
Definition Depot : M gostring :=
  m <- wrap (go "error getting depot: ") GetClientSpec ;;
  match lookup m (go "Stream") with
  | Some stream =>
      if 3 <? len stream then
        lift (match getDepotName stream with
              | Err e => Err (wrapError (go "error getting depot from stream "
                                            ++ stream ++ go ": ") e)
              | other => other
              end)
      else lift (Depot_views m)
  | None => lift (Depot_views m)
  end.

(** [P4.StreamDepth]. *)
Definition StreamDepth : M Z :=
  fun w =>
    if 0 <? streamDepthCache (self w) then (Ok (streamDepthCache (self w)), w)
    else
      (depot <- Depot ;;
       depotSpec <- GetDepotSpec depot ;;
       match lookup depotSpec (go "StreamDepth") with
       | None => fail (errorString
                         (go "no StreamDepth field in depot spec for " ++ depot))
       | Some depotDepthPath =>
           depth <- lift (streamDepth depotDepthPath) ;;
           fun w => (Ok depth, set_streamDepthCache depth w)
       end) w.

(** [P4.runAndParseDepotFiles]. *)
Definition runAndParseDepotFiles (cmd : gostring) : M (list DepotFile) :=
  if negb (Contains cmd (go "-ztag")) && negb (Contains cmd (go "-z tag"))
     && negb (Contains cmd (go "fstat"))
  then fail (errorString (go "missing '-z tag' in non-fstat cmd: " ++ cmd))
  else
    streamDepth <- StreamDepth ;;
    res <- cmdAndScan cmd (onLine streamDepth) (mkParser [] DepotFile_zero []) ;;
    match snd res with
    | Some err => fail (wrapError (go "error listing files: ") err)
    | None => ret (sort.Sort DepotFile (Less lowerCase) (out (fst res)))
    end.

End Environment.

(* ------------------------------------------------------------------ *)
(** ** The other functions of the package

    The rest of [p4.go] ([New], [DisplayName], [SetStreamName] and the
    sizing loop of [EscapePath]), [files.go] ([ListDepotFiles],
    [CreateStreamDepot]) and [set.go] ([GetVariable]). *)

(** [New]: the fields as given, and no depth cached. *)
Definition New (port user charset client : gostring) : P4 :=
  mkP4 port user charset client 0.

(** [P4.DisplayName]. *)
Definition DisplayName (p : P4) : gostring := Port p.

(** [P4.SetStreamName]: the cached depth is dropped; the name itself is
    not kept anywhere. *)
Definition SetStreamName (stream : gostring) : M unit :=
  fun w => (Ok tt, set_streamDepthCache 0 w).

(** [strings.CutPrefix]. *)
Definition CutPrefix (s prefix : gostring) : panic + (gostring * bool) :=
  if negb (HasPrefix s prefix) then inr (s, false)
  else match slice_from s (len prefix) with
       | inl p => inl p
       | inr after => inr (after, true)
       end.

(** The first loop of [EscapePath]: the size handed to [sb.Grow]. *)
Definition EscapePath_size (path : gostring) : Z :=
  fold_left
    (fun size '(_, r) =>
       if (r =? 0x40) || (r =? 0x23) || (r =? 0x2A) || (r =? 0x25)
       then size + 2 else size)
    (utf8.range path) (len path).

(** The callback of [GetVariable]; it closes over [variableValue]. *)
Definition GetVariable_onLine (variable : gostring) : callback gostring :=
  fun variableValue rawLine =>
    match CutPrefix rawLine (variable ++ go "=") with
    | inl p => inl p
    | inr (value, found) => inr (if found then value else variableValue, None)
    end.

(** The command line that [ListDepotFiles] builds. *)
Definition ListDepotFiles_cmd (p : P4) (fileSpecs : list gostring) : gostring :=
  let fileSpecs :=
    if Z.of_nat (List.length fileSpecs) =? 0 then [go "..."] else fileSpecs in
  fold_left
    (fun c fileSpec => c ++ go " //" ++ Client p ++ go "/" ++ fileSpec)
    fileSpecs
    (cmd p ++ go " fstat -T depotFile,headAction,headChange,headType,digest -Ol "
           ++ go "-F '^(headAction=move/delete | headAction=purge | headAction=archive | headAction=delete)'").

Section Methods.

Variable lowerCase : Z -> Z.
Variable GetClientSpec : M spec.
Variable ParseSpec : gostring -> spec.
Variable sh_Out : World -> gostring -> gostring * option error.
Variable sh_Pipe : World -> gostring -> PipeRun.

(** [p.sh.Cmd(cmd).In(r).RunErr()]: the error of a run that reads the
    given text on its standard input. *)
Variable sh_In : World -> gostring -> gostring -> option error.

(** [P4.ListDepotFiles]. *)
Definition ListDepotFiles (fileSpecs : list gostring) : M (list DepotFile) :=
  fun w =>
    runAndParseDepotFiles lowerCase GetClientSpec ParseSpec sh_Out sh_Pipe
      (ListDepotFiles_cmd (self w) fileSpecs) w.

(** [P4.GetVariable]. *)
Definition GetVariable (variable : gostring) : M gostring :=
  fun w =>
    (res <- cmdAndScan sh_Pipe (cmd (self w) ++ go " set -q " ++ variable)
                       (GetVariable_onLine variable) [] ;;
     match snd res with
     | Some err => fail err
     | None => ret (fst res)
     end) w.

(** [P4.CreateStreamDepot]: a depot spec is generated, then fed back. *)
Definition CreateStreamDepot (name : gostring) : M unit :=
  fun w =>
    let c1 := cmd (self w) ++ go " --field " ++ ["034"%char] ++ go "Type=stream"
                  ++ ["034"%char] ++ go " depot -o " ++ name in
    let '(b, err) := sh_Out w c1 in
    let w1 := launch c1 w in
    match err with
    | Some e => (Err (wrapError (go "error building depot spec: ") e), w1)
    | None =>
        let c2 := cmd (self w) ++ go " depot -i" in
        match sh_In w1 c2 b with
        | Some e => (Err (wrapError (go "error creating depot: ") e), launch c2 w1)
        | None => (Ok tt, launch c2 w1)
        end
    end.

End Methods.

(* ------------------------------------------------------------------ *)
(** ** Notions used in the statements *)

(** The number of ['/'] bytes of a string. *)
Definition slashes (s : gostring) : Z :=
  Z.of_nat (count_occ ascii_dec s "/"%char).

(** The body of the loop of [streamDepth]. *)
Definition count_slash (count : Z) (ir : Z * Z) : Z :=
  let '(_, r) := ir in if r =? 0x2F then count + 1 else count.

(** The percent-code of one byte: the four reserved characters, and every
    other byte as it is. *)
Definition escape_byte (c : ascii) : gostring :=
  if ascii_dec c "@" then go "%40"
  else if ascii_dec c "#" then go "%23"
  else if ascii_dec c "*" then go "%2A"
  else if ascii_dec c "%" then go "%25"
  else [c].

(** The body of the second loop of [EscapePath]. *)
Definition escape_rune (sb : gostring) (ir : Z * Z) : gostring :=
  let '(_, r) := ir in
  if r =? 0x40 then sb ++ go "%40"
  else if r =? 0x23 then sb ++ go "%23"
  else if r =? 0x2A then sb ++ go "%2A"
  else if r =? 0x25 then sb ++ go "%25"
  else utf8.AppendRune sb r.

(** The transposition of two indices. *)
Definition transpose (i j k : Z) : Z :=
  if k =? i then j else if k =? j then i else k.

(** [swaps a b d d']: the slice [d'] comes from [d] by exchanges of
    elements at indices in [[a, b)]. *)
Inductive swaps (A : Type) (a b : Z) : list A -> list A -> Prop :=
| swaps_refl (d : list A) : swaps A a b d d
| swaps_step (d d' : list A) (i j : Z) :
    a <= i < b -> a <= j < b -> swaps A a b (sort.Swap A d i j) d' -> swaps A a b d d'.

(** [adjacent less d a b]: no element of the slice at an index in
    [[a, b)] is less than the one just before it; [adjacent_but] leaves out
    the pair that ends at index [j]. *)
Definition adjacent (A : Type) (less : A -> A -> bool) (d : list A) (a b : Z) : Prop :=
  forall k, a <= k -> k + 1 < b -> sort.Less A less d (k + 1) k = false.

Definition adjacent_but (A : Type) (less : A -> A -> bool) (d : list A)
           (a b j : Z) : Prop :=
  forall k, a <= k -> k + 1 < b -> k + 1 <> j -> sort.Less A less d (k + 1) k = false.

(** [bounded_below less d a b]: the element just before index [a] is not
    greater than any element at an index in [[a, b)]. *)
Definition bounded_below (A : Type) (less : A -> A -> bool) (d : list A)
           (a b : Z) : Prop :=
  forall k, a <= k < b -> sort.Less A less d k (a - 1) = false.

(** [heap_from less d first lo hi]: in the heap laid out from index
    [first], no node from [lo] on is less than a child of it below [hi];
    [heap_but] leaves out the node [r]. *)
Definition heap_from (A : Type) (less : A -> A -> bool) (d : list A)
           (first lo hi : Z) : Prop :=
  forall i c, lo <= i -> c = 2 * i + 1 \/ c = 2 * i + 2 -> c < hi ->
              sort.Less A less d (first + i) (first + c) = false.

Definition heap_but (A : Type) (less : A -> A -> bool) (d : list A)
           (first lo hi r : Z) : Prop :=
  forall i c, lo <= i -> i <> r -> c = 2 * i + 1 \/ c = 2 * i + 2 -> c < hi ->
              sort.Less A less d (first + i) (first + c) = false.

(** The case-folded path that [Less] compares, and the records of a list
    that share the folded path [key], in the order of the list. *)
Definition folded (lowerCase : Z -> Z) (d : DepotFile) : gostring :=
  strings.ToLower lowerCase (Path d).

Definition tied (lowerCase : Z -> Z) (key : gostring) (recs : list DepotFile)
  : list DepotFile :=
  filter (fun r => gostring_eqb (folded lowerCase r) key) recs.


(** The state in which the callback of [runAndParseDepotFiles] starts. *)
Definition parser_zero : parser := mkParser [] DepotFile_zero [].

(** The value [GetVariable] ends with: what follows ["<variable>="] on
    the last of the lines that begin with it, and the empty string when
    no line does. *)
Definition last_value (variable : gostring) (lines : list gostring) : gostring :=
  match find (fun l => HasPrefix l (variable ++ go "=")) (rev lines) with
  | Some l => skipn (List.length (variable ++ go "=")) l
  | None => []
  end.

(** The four characters that [EscapePath] replaces. *)
Definition reserved (c : ascii) : bool :=
  if ascii_dec c "@" then true
  else if ascii_dec c "#" then true
  else if ascii_dec c "*" then true
  else if ascii_dec c "%" then true
  else false.

(** The bodies of the first loop of [EscapePath] and of a loop that
    writes every rune as it is. *)
Definition size_rune (size : Z) (ir : Z * Z) : Z :=
  let '(_, r) := ir in
  if (r =? 0x40) || (r =? 0x23) || (r =? 0x2A) || (r =? 0x25)
  then size + 2 else size.

(** A printable character of ASCII other than the space, and a text that
    begins and ends with such a character. *)
Definition graphic (c : ascii) : bool := (0x20 <? byteZ c) && (byteZ c <? 0x7F).

Definition plain (v : gostring) : bool :=
  match v with
  | [] => false
  | c :: _ => graphic c && graphic (last v c)
  end.

(** The lines of one record of a tagged listing, as [p4 fstat] prints it
    for the fields that [ListDepotFiles] asks for: the depot path under
    the stream prefix [pre], the four other fields, and the blank line
    that ends the record. *)
Definition render (pre : gostring) (d : DepotFile) : list gostring :=
  [go "... depotFile " ++ pre ++ Path d;
   go "... headAction " ++ Action d;
   go "... headChange " ++ CL d;
   go "... headType " ++ Type_ d;
   go "... digest " ++ Digest d;
   []].



(** The runes of a string written one after the other, as a loop
    [for _, r := range s { sb.WriteRune(r) }] builds them: the string
    itself when it is well-formed UTF-8, and otherwise the string with
    each ill-formed byte replaced by the three bytes of [RuneError]. *)
Definition write_rune (sb : gostring) (ir : Z * Z) : gostring :=
  let '(_, r) := ir in utf8.AppendRune sb r.

Definition rewritten (s : gostring) : gostring :=
  fold_left write_rune (utf8.range s) [].

(* ------------------------------------------------------------------ *)
(** ** A small world for the examples *)

(** A client whose stream depth is already resolved to 2, and no command
    launched yet. *)
Definition example_world : World :=
  mkWorld (mkP4 (go "perforce:1666") (go "alice") [] (go "ws") 2) [].

(** A case table without entries, enough for ASCII paths. *)
Definition example_lowerCase (r : Z) : Z := r.

Definition example_GetClientSpec : M spec :=
  fun w => (Ok [(go "Stream", go "//depot/main")], w).

Definition example_ParseSpec (text : gostring) : spec :=
  [(go "StreamDepth", go "//depot/1")].

Definition example_sh_Out (w : World) (c : gostring) : gostring * option error :=
  ([], None).

(** A command that writes the given lines and exits cleanly; on an early
    close of the pipe its run returns the error of the failed write. *)
Definition example_sh_Pipe (lines : list gostring) (w : World) (c : gostring) : PipeRun :=
  mkPipeRun lines (fun rerr => rerr) (fun _ => None).




(** The lines of a listing of the stream [//depot/main]: one record of a
    single [depotFile] line per name, each closed by a blank line. *)
Definition example_listing (names : list gostring) : list gostring :=
  flat_map (fun n => [go "... depotFile //depot/main/" ++ n; []]) names.

(** Thirteen files, two of which differ in case only. *)
Definition example_names : list gostring :=
  map go ["c.txt"; "d.txt"; "Makefile"; "e.txt"; "f.txt"; "g.txt"; "makefile";
          "n.txt"; "o.txt"; "p.txt"; "q.txt"; "r.txt"; "a.txt"]%string.

(** The record of a file of which only the path is known. *)
Definition example_record (name : gostring) : DepotFile :=
  mkDepotFile name [] [] [] [].

(** The order in which [sort.Sort] leaves the thirteen files. *)
Definition example_sorted : list gostring :=
  map go ["a.txt"; "c.txt"; "d.txt"; "e.txt"; "f.txt"; "g.txt"; "makefile";
          "Makefile"; "n.txt"; "o.txt"; "p.txt"; "q.txt"; "r.txt"]%string.

(** A record closed by a blank line, and one that no blank line closes. *)
Definition example_unfinished : list gostring :=
  [go "... depotFile //depot/main/a.txt"; go "... headAction edit"; [];
   go "... depotFile //depot/main/b.txt"; go "... headAction add"].

(** A new object for the same client: no depth is cached yet. *)
Definition example_new_world : World :=
  mkWorld (New (go "perforce:1666") (go "alice") [] (go "ws")) [].

(** A client without a stream: two mappings, the first one visited being
    an exclusion. *)
Definition example_GetClientSpec_views : M spec :=
  fun w => (Ok [(go "Client", go "ws");
                (go "View0", go "-//depot/main/secret/... //ws/secret/...");
                (go "View1", go "//depot/main/... //ws/...")], w).

(** The answer of [p4 set -q P4PORT] with a stray line before it, and a
    setting given twice. *)
Definition example_settings : list gostring :=
  [go "P4PORTAL=elsewhere"; go "P4PORT=perforce:1666"; go "P4PORT=backup:1666"].

(** Two records with all five fields, and a pair of records that differ
    in the case of the path only. *)
Definition example_records : list DepotFile :=
  [mkDepotFile (go "src/main.go") (go "edit") (go "1042") (go "text") (go "9F86D081");
   mkDepotFile (go "README.md") (go "add") (go "1001") (go "text+x") (go "2C26B46B")].

Definition example_case_pair : list DepotFile :=
  [mkDepotFile (go "Makefile") (go "edit") (go "7") (go "text") (go "AA");
   mkDepotFile (go "makefile") (go "add") (go "8") (go "text") (go "BB")].

(** A server that takes every depot spec fed to it. *)
Definition example_sh_In (w : World) (c : gostring) (text : gostring) : option error :=
  None.

(* ================================================================== *)
(** * Properties *)
(* ------------------------------------------------------------------ *)
(** ** Bytes *)

Lemma byteZ_range (b : ascii) : 0 <= byteZ b < 256.
Proof.
  unfold byteZ. pose proof (N_ascii_bounded b) as H. lia.
Qed.

Lemma byte_of_Z_byteZ (b : ascii) : byte_of_Z (byteZ b) = b.
Proof.
  unfold byte_of_Z. pose proof (byteZ_range b) as H.
  rewrite Z.mod_small by lia. unfold byteZ.
  rewrite N2Z.id. apply ascii_N_embedding.
Qed.

Lemma byteZ_inj (a b : ascii) : byteZ a = byteZ b -> a = b.
Proof.
  intros H. rewrite <- (byte_of_Z_byteZ a), <- (byte_of_Z_byteZ b). now rewrite H.
Qed.

Lemma byteZ_byte_of_Z (z : Z) : byteZ (byte_of_Z z) = z mod 256.
Proof.
  unfold byteZ, byte_of_Z.
  assert (0 <= z mod 256 < 256) by (apply Z.mod_pos_bound; lia).
  rewrite N_ascii_embedding.
  - rewrite Z2N.id; lia.
  - lia.
Qed.

Lemma cont_range (b : ascii) : utf8.cont b = true -> 0x80 <= byteZ b <= 0xBF.
Proof.
  unfold utf8.cont, utf8.locb, utf8.hicb. intros H.
  apply andb_prop in H as [H1 H2]. lia.
Qed.

(** The shape of one decoding step: a single byte, or a lead byte of a
    rune of at least [0x80] followed by [w - 1] continuation bytes. *)
Lemma decoderune_shape (s0 : ascii) (rest : gostring) (r : Z) (w : nat) :
  utf8.decoderune (s0 :: rest) = (r, w) ->
  (w = 1%nat /\ (if byteZ s0 <? 0x80 then r = byteZ s0 else r = utf8.RuneError))
  \/ (0x80 <= byteZ s0 /\ 0x80 <= r /\ (2 <= w <= 4)%nat /\
      exists l1 l2, rest = l1 ++ l2 /\ List.length l1 = (w - 1)%nat /\
                    Forall (fun b => utf8.cont b = true) l1).
Proof.
  unfold utf8.decoderune.
  change utf8.RuneSelf with 0x80.
  destruct (byteZ s0 <? 0x80) eqn:Hself.
  { intros [= <- <-]. left. split; reflexivity. }
  assert (Hge : 0x80 <= byteZ s0) by lia.
  assert (Hone : (utf8.RuneError, 1%nat) = (r, w) ->
                 (w = 1%nat /\ r = utf8.RuneError) \/
                 (0x80 <= byteZ s0 /\ 0x80 <= r /\ (2 <= w <= 4)%nat /\
                  exists l1 l2, rest = l1 ++ l2 /\ List.length l1 = (w - 1)%nat /\
                                Forall (fun b => utf8.cont b = true) l1)).
  { intros [= <- <-]. left. split; reflexivity. }
  destruct ((utf8.t2 <=? byteZ s0) && (byteZ s0 <? utf8.t3)).
  { destruct rest as [|s1 rest]; [exact Hone|].
    destruct (utf8.cont s1) eqn:C1; [|exact Hone].
    cbv zeta. match goal with |- context [utf8.rune1Max <? ?x] =>
      generalize x; intros rr; destruct (utf8.rune1Max <? rr) eqn:Hr end; [|exact Hone].
    intros [= <- <-]. right.
    unfold utf8.rune1Max in Hr.
    split; [lia|split; [lia|split; [lia|]]].
    exists [s1], rest. repeat split; auto. }
  destruct ((utf8.t3 <=? byteZ s0) && (byteZ s0 <? utf8.t4)).
  { destruct rest as [|s1 [|s2 rest]]; [exact Hone|exact Hone|].
    destruct (utf8.cont s1) eqn:C1; [|exact Hone].
    destruct (utf8.cont s2) eqn:C2; [|exact Hone].
    cbv zeta. simpl andb at 1.
    match goal with |- context [utf8.rune2Max <? ?x] =>
      generalize x; intros rr; destruct (utf8.rune2Max <? rr) eqn:Hr end; [|exact Hone].
    simpl andb.
    match goal with |- context [negb ?x] => destruct x end; simpl negb; [exact Hone|].
    intros [= <- <-]. right.
    unfold utf8.rune2Max in Hr.
    split; [lia|split; [lia|split; [lia|]]].
    exists [s1; s2], rest. repeat split; auto. }
  destruct ((utf8.t4 <=? byteZ s0) && (byteZ s0 <? utf8.t5)); [|exact Hone].
  destruct rest as [|s1 [|s2 [|s3 rest]]]; [exact Hone|exact Hone|exact Hone|].
  destruct (utf8.cont s1) eqn:C1; [|exact Hone].
  destruct (utf8.cont s2) eqn:C2; [|exact Hone].
  destruct (utf8.cont s3) eqn:C3; [|exact Hone].
  cbv zeta. simpl andb at 1.
  match goal with |- context [utf8.rune3Max <? ?x] =>
    generalize x; intros rr; destruct (utf8.rune3Max <? rr) eqn:Hr end; [|exact Hone].
  simpl andb.
  destruct (rr <=? utf8.MaxRune); [|exact Hone].
  intros [= <- <-]. right.
  unfold utf8.rune3Max in Hr.
  split; [lia|split; [lia|split; [lia|]]].
  exists [s1; s2; s3], rest. repeat split; auto.
Qed.

(* ------------------------------------------------------------------ *)
(** ** [streamDepth] *)

Lemma slash_byte (a : ascii) : byteZ a = 0x2F <-> a = "/"%char.
Proof.
  split.
  - intros H. apply byteZ_inj. rewrite H. reflexivity.
  - intros ->. reflexivity.
Qed.

Lemma cont_not_slash (l : gostring) :
  Forall (fun b => utf8.cont b = true) l -> Forall (fun b => b <> "/"%char) l.
Proof.
  intros H. eapply Forall_impl; [|exact H].
  intros b Hb ->. apply cont_range in Hb. cbv in Hb. destruct Hb as [Hb _].
  now apply Hb.
Qed.

(** The runes equal to ['/'] that the loop meets are the ['/'] bytes. *)
Lemma range_count_slash (s : gostring) :
  forall (i k : nat) (acc : Z),
    Forall (fun b => b <> "/"%char) (firstn k s) ->
    fold_left count_slash (utf8.range_from i k s) acc = acc + slashes s.
Proof.
  unfold slashes.
  induction s as [|a s IH]; intros i k acc Hk.
  - simpl. lia.
  - destruct k as [|k].
    + cbn [utf8.range_from].
      destruct (utf8.decoderune (a :: s)) as [r w] eqn:Hd.
      cbn [fold_left count_slash].
      apply decoderune_shape in Hd.
      destruct Hd as [[-> Hr] | (Hge & Hr & Hw & l1 & l2 & -> & Hl & Hc)].
      * rewrite IH by (simpl; constructor).
        destruct (byteZ a <? 0x80) eqn:Hlt.
        -- subst r. cbn [count_occ].
           destruct (ascii_dec a "/") as [->|Hne].
           ++ change (byteZ "/" =? 0x2F) with true. cbv iota. lia.
           ++ destruct (byteZ a =? 0x2F) eqn:He.
              ** exfalso. apply Hne, slash_byte. lia.
              ** lia.
        -- subst r. change (utf8.RuneError =? 0x2F) with false. cbv iota.
           cbn [count_occ].
           destruct (ascii_dec a "/") as [->|Hne]; [discriminate Hlt|lia].
      * assert (Hr' : (r =? 0x2F) = false) by lia.
        rewrite Hr'.
        rewrite IH.
        -- cbn [count_occ].
           destruct (ascii_dec a "/") as [->|Hne]; [|lia].
           exfalso. change (byteZ "/") with 0x2F in Hge. lia.
        -- rewrite <- Hl, firstn_app, Nat.sub_diag, firstn_all, firstn_O, app_nil_r.
           now apply cont_not_slash.
    + cbn [utf8.range_from firstn] in *.
      inversion Hk as [|? ? Ha Hk']; subst.
      rewrite IH by assumption.
      cbn [count_occ].
      destruct (ascii_dec a "/") as [->|Hne]; [now elim Ha|lia].
Qed.

(** C6: [streamDepth] returns the number of ['/'] bytes of its input
    less one when that is at least 1, and otherwise (the empty string and
    strings with fewer than two slashes included) the error
    ["unable to get stream depth of '<input>'"]. *)
Theorem streamDepth_slashes (s : gostring) :
  streamDepth s =
  if 1 <=? slashes s - 1
  then Ok (slashes s - 1)
  else Err (errorString (go "unable to get stream depth of '" ++ s ++ go "'")).
Proof.
  unfold streamDepth, utf8.range.
  change (fun (count : Z) '(_, r) => if r =? 0x2F then count + 1 else count)
    with count_slash.
  rewrite range_count_slash by constructor.
  replace (-1 + slashes s) with (slashes s - 1) by lia.
  destruct (1 <=? slashes s - 1) eqn:H.
  - replace (slashes s - 1 <? 1) with false by lia. reflexivity.
  - replace (slashes s - 1 <? 1) with true by lia. reflexivity.
Qed.

(* ------------------------------------------------------------------ *)
(** ** [getDepotPrefix] *)

Lemma slice_from_ok (s : gostring) (i : nat) :
  (i <= List.length s)%nat -> slice_from s (Z.of_nat i) = inr (skipn i s).
Proof.
  intros Hi. unfold slice_from, slice, len.
  replace ((0 <=? Z.of_nat i) && (Z.of_nat i <=? Z.of_nat (List.length s))
           && (Z.of_nat (List.length s) <=? Z.of_nat (List.length s))) with true
    by (symmetry; rewrite !andb_true_iff; lia).
  rewrite !Nat2Z.id. f_equal.
  apply firstn_all2. rewrite length_skipn. lia.
Qed.

Lemma slice_to_ok (s : gostring) (i : nat) :
  (i <= List.length s)%nat -> slice_to s (Z.of_nat i) = inr (firstn i s).
Proof.
  intros Hi. unfold slice_to, slice, len.
  replace ((0 <=? 0) && (0 <=? Z.of_nat i)
           && (Z.of_nat i <=? Z.of_nat (List.length s))) with true
    by (symmetry; rewrite !andb_true_iff; lia).
  rewrite Nat2Z.id. simpl. now rewrite Nat.sub_0_r.
Qed.

Lemma HasPrefix_slash (s : gostring) :
  HasPrefix s (go "/") = true <-> exists s', s = "/"%char :: s'.
Proof.
  destruct s as [|a s]; simpl.
  - split; [discriminate|intros [? ?]; discriminate].
  - destruct (ascii_dec a "/") as [->|Hne].
    + split; eauto.
    + split; [discriminate|]. intros [s' [= -> _]]. now elim Hne.
Qed.

(** [strings.Index(s, "/")]: [-1] when [s] has no slash, the length of
    the slash-free part before the first slash otherwise. *)
Lemma Index_slash (s : gostring) (i : Z) :
  (Index_from i s (go "/") = -1 /\ count_occ ascii_dec s "/"%char = 0%nat /\ i <> -1 - 0)
  \/ (exists l1 l2, s = l1 ++ "/"%char :: l2 /\
                    count_occ ascii_dec l1 "/"%char = 0%nat /\
                    Index_from i s (go "/") = i + Z.of_nat (List.length l1))
  \/ i < 0.
Proof.
  revert i. induction s as [|a s IH]; intros i.
  - destruct (Z_lt_dec i 0); [now right; right|]. left. simpl. repeat split; lia.
  - destruct (Z_lt_dec i 0) as [Hi|Hi]; [now right; right|].
    cbn [Index_from].
    destruct (HasPrefix (a :: s) (go "/")) eqn:Hp.
    + right; left. apply HasPrefix_slash in Hp as [s' [= -> ->]].
      exists [], s'. repeat split. simpl. lia.
    + assert (Ha : a <> "/"%char).
      { intros ->. assert (HasPrefix ("/"%char :: s) (go "/") = true)
          by (apply HasPrefix_slash; eauto). congruence. }
      destruct (IH (i + 1)) as [(H1 & H2 & _) | [(l1 & l2 & -> & Hl1 & Hi') | Hneg]].
      * left. rewrite H1. cbn [count_occ].
        destruct (ascii_dec a "/"); [congruence|]. repeat split; auto. lia.
      * right; left. exists (a :: l1), l2. repeat split.
        -- cbn [count_occ]. destruct (ascii_dec a "/"); [congruence|assumption].
        -- rewrite Hi'. cbn [List.length]. lia.
      * lia.
Qed.

Lemma Index_slash_0 (s : gostring) :
  (Index s (go "/") = -1 /\ count_occ ascii_dec s "/"%char = 0%nat)
  \/ (exists l1 l2, s = l1 ++ "/"%char :: l2 /\
                    count_occ ascii_dec l1 "/"%char = 0%nat /\
                    Index s (go "/") = Z.of_nat (List.length l1)).
Proof.
  unfold Index. destruct (Index_slash s 0) as [(H1 & H2 & _) | [H | H]].
  - now left.
  - right. destruct H as (l1 & l2 & H1 & H2 & H3). exists l1, l2. now rewrite H3.
  - lia.
Qed.

Lemma count_occ_firstn_le {A} (dec : forall x y : A, {x = y} + {x <> y})
      (l : list A) (x : A) (n : nat) :
  (count_occ dec (firstn n l) x <= count_occ dec l x)%nat.
Proof.
  rewrite <- (firstn_skipn n l) at 2. rewrite count_occ_app. lia.
Qed.

(** The loop never fails and never leaves the line: after [n] rounds from
    [i] it stands behind the [n]-th slash at or after [i], or behind the
    last one when there are fewer. *)
Lemma getDepotPrefix_loop_spec (line : gostring) :
  forall (n i : nat),
    (i <= List.length line)%nat ->
    exists i',
      getDepotPrefix_loop n line (Z.of_nat i) = inr (Z.of_nat i')
      /\ (i <= i' <= List.length line)%nat
      /\ count_occ ascii_dec (firstn (i' - i) (skipn i line)) "/"%char
         = Nat.min n (count_occ ascii_dec (skipn i line) "/"%char)
      /\ (i' = i \/ nth_error line (i' - 1) = Some "/"%char).
Proof.
  induction n as [|n IH]; intros i Hi.
  - exists i. cbn [getDepotPrefix_loop]. rewrite Nat.sub_diag. simpl. repeat split; auto.
  - cbn [getDepotPrefix_loop]. rewrite slice_from_ok by assumption.
    destruct (Index_slash_0 (skipn i line)) as [[Hx Hc] | (l1 & l2 & Hs & Hc & Hx)].
    + rewrite Hx. replace (Z.of_nat i + -1 + 1) with (Z.of_nat i) by lia.
      destruct (IH i Hi) as (i' & H1 & H2 & H3 & H4).
      exists i'. split; [exact H1|]. split; [lia|]. split; [|exact H4].
      rewrite H3, Hc. lia.
    + rewrite Hx.
      replace (Z.of_nat i + Z.of_nat (List.length l1) + 1)
        with (Z.of_nat (i + List.length l1 + 1)) by lia.
      assert (Hlen : (i + List.length l1 + 1 <= List.length line)%nat).
      { assert (H := f_equal (@List.length _) Hs).
        rewrite length_skipn, length_app in H. cbn [List.length] in H. lia. }
      assert (Hrest : skipn (i + List.length l1 + 1) line = l2).
      { replace (i + List.length l1 + 1)%nat with ((List.length l1 + 1) + i)%nat by lia.
        rewrite <- skipn_skipn, Hs.
        rewrite skipn_app.
        rewrite (skipn_all2 l1) by lia. simpl.
        now replace (List.length l1 + 1 - List.length l1)%nat with 1%nat by lia. }
      destruct (IH (i + List.length l1 + 1)%nat Hlen) as (i' & H1 & H2 & H3 & H4).
      exists i'. split; [exact H1|]. split; [lia|]. split.
      * rewrite Hrest in H3.
        rewrite Hs.
        replace (i' - i)%nat
          with (List.length (l1 ++ ["/"%char]) + (i' - (i + List.length l1 + 1)))%nat
          by (rewrite length_app; simpl; lia).
        change (l1 ++ "/"%char :: l2) with (l1 ++ ["/"%char] ++ l2).
        rewrite app_assoc, firstn_app_2, !count_occ_app, H3, Hc. simpl.
        lia.
      * right. destruct H4 as [-> | H4]; [|exact H4].
        replace (i + List.length l1 + 1 - 1)%nat with (List.length l1 + i)%nat by lia.
        rewrite <- (firstn_skipn i line) at 1.
        rewrite nth_error_app2 by (rewrite length_firstn; lia).
        rewrite length_firstn, Nat.min_l by lia.
        replace (List.length l1 + i - i)%nat with (List.length l1 + 0)%nat by lia.
        rewrite Hs, nth_error_app2 by lia.
        now replace (List.length l1 + 0 - List.length l1)%nat with 0%nat by lia.
Qed.

Lemma HasPrefix_app (s p : gostring) :
  HasPrefix s p = true <-> exists rest, s = p ++ rest.
Proof.
  revert s. induction p as [|a p IH]; intros s.
  - simpl. split; eauto.
  - destruct s as [|b s]; simpl.
    + split; [discriminate|intros [? ?]; discriminate].
    + destruct (ascii_dec b a) as [->|Hne].
      * rewrite IH. split; intros [rest H]; exists rest; congruence.
      * split; [discriminate|]. intros [rest [= -> _]]. now elim Hne.
Qed.

Lemma firstn_snoc {A} (l : list A) (k : nat) (x : A) :
  nth_error l k = Some x -> firstn (S k) l = firstn k l ++ [x].
Proof.
  revert k. induction l as [|a l IH]; intros [|k] H; simpl in *; try discriminate.
  - now inversion H.
  - f_equal. now apply IH.
Qed.

(** On a line that begins with the root [getDepotPrefix] returns a prefix
    of the line: the root, and what follows it up to a slash. *)
Lemma getDepotPrefix_rooted (line : gostring) (depth : Z) :
  HasPrefix line (go "//") = true ->
  exists p rest,
    getDepotPrefix line depth = Ok p
    /\ line = p ++ rest
    /\ HasPrefix p (go "//") = true
    /\ slashes (skipn 2 p) = Z.min (Z.max 0 depth) (slashes (skipn 2 line))
    /\ exists q, p = q ++ go "/".
Proof.
  intros Hp. unfold getDepotPrefix. rewrite Hp. cbn [negb].
  pose proof Hp as Hp'. apply HasPrefix_app in Hp' as [rest0 Hline].
  assert (Hlen : (2 <= List.length line)%nat)
    by (rewrite Hline, length_app; simpl; lia).
  destruct (getDepotPrefix_loop_spec line (Z.to_nat depth) 2 Hlen)
    as (i' & H1 & H2 & H3 & H4).
  change 2 with (Z.of_nat 2). rewrite H1.
  rewrite slice_to_ok by lia. cbn [lift_slice].
  exists (firstn i' line), (skipn i' line).
  split; [reflexivity|]. split; [symmetry; apply firstn_skipn|]. split.
  - apply HasPrefix_app. exists (firstn (i' - 2) rest0).
    rewrite Hline.
    replace i' with (List.length (go "//") + (i' - 2))%nat at 1 by (simpl; lia).
    apply firstn_app_2.
  - split.
    + unfold slashes. rewrite skipn_firstn_comm, H3. lia.
    + destruct H4 as [-> | H4].
      * exists (go "/"). rewrite Hline. reflexivity.
      * exists (firstn (i' - 1) line).
        replace i' with (S (i' - 1)) at 1 by lia.
        now apply firstn_snoc.
Qed.

(** C2, amended: on a line that begins with ["//"] [getDepotPrefix] never
    fails, whatever the depth: it returns the prefix of the line that ends
    with the [depth]-th slash after the root, or with the last slash there
    is when fewer than [depth] follow (the root ["//"] itself when none
    does).  On a line that does not begin with ["//"] it returns the
    error that says so. *)
Theorem getDepotPrefix_result (line : gostring) (depth : Z) :
  if HasPrefix line (go "//")
  then exists p rest,
      getDepotPrefix line depth = Ok p
      /\ line = p ++ rest
      /\ HasPrefix p (go "//") = true
      /\ slashes (skipn 2 p) = Z.min (Z.max 0 depth) (slashes (skipn 2 line))
      /\ exists q, p = q ++ go "/"
  else getDepotPrefix line depth =
       Err (errorString (go "line '" ++ line ++ go "' does not begin with '//'")).
Proof.
  destruct (HasPrefix line (go "//")) eqn:Hp.
  - now apply getDepotPrefix_rooted.
  - unfold getDepotPrefix. rewrite Hp. reflexivity.
Qed.

(** C2 as stated fails: a line with no slash after the root gets a
    prefix, not an error, at depth 1. *)
Lemma getDepotPrefix_few_slashes_no_error :
  ~ (forall (line : gostring) (d : Z),
        HasPrefix line (go "//") = true -> 1 <= d ->
        slashes (skipn 2 line) < d ->
        exists e, getDepotPrefix line d = Err e).
Proof.
  intros H.
  destruct (H (go "//abc") 1) as [e He]; [reflexivity|lia|reflexivity|].
  vm_compute in He. discriminate He.
Qed.

(** The caller [getDepotName] is where a line without a slash after the
    root is turned into an error. *)
Lemma getDepotName_no_slash (line : gostring) :
  HasPrefix line (go "//") = true ->
  slashes (skipn 2 line) = 0 ->
  getDepotName line =
  Err (errorString (go "line '" ++ line ++ go "' does not have a full depot prefix")).
Proof.
  intros Hp Hs. unfold getDepotName.
  destruct (getDepotPrefix_rooted line 1 Hp)
    as (p & rest & -> & Hl & Hpp & Hsl & q & Hq).
  rewrite Hs in Hsl. change (Z.min (Z.max 0 1) 0) with 0 in Hsl.
  apply HasPrefix_app in Hpp as [r Hr].
  assert (r = []) as ->.
  { destruct r as [|a r] using rev_ind; [reflexivity|exfalso].
    rewrite Hr in Hq. rewrite app_assoc in Hq.
    apply app_inj_tail in Hq as [_ ->].
    rewrite Hr in Hsl. unfold slashes in Hsl. simpl in Hsl.
    rewrite count_occ_app in Hsl. simpl in Hsl. lia. }
  subst p. reflexivity.
Qed.

(* ------------------------------------------------------------------ *)
(** ** [strings.Contains] *)

Lemma Index_from_found (s sub : gostring) :
  forall i, 0 <= i ->
    (Index_from i s sub = -1 /\ forall l1 l2, s <> l1 ++ sub ++ l2)
    \/ (i <= Index_from i s sub /\ exists l1 l2, s = l1 ++ sub ++ l2).
Proof.
  induction s as [|a s IH]; intros i Hi; cbn [Index_from].
  - destruct (HasPrefix [] sub) eqn:Hp.
    + right. split; [lia|]. apply HasPrefix_app in Hp as [rest Hr].
      exists [], rest. exact Hr.
    + left. split; [reflexivity|]. intros l1 l2 H.
      symmetry in H. apply app_eq_nil in H as [-> H].
      apply app_eq_nil in H as [-> ->]. discriminate Hp.
  - destruct (HasPrefix (a :: s) sub) eqn:Hp.
    + right. split; [lia|]. apply HasPrefix_app in Hp as [rest Hr].
      exists [], rest. exact Hr.
    + destruct (IH (i + 1)) as [[H1 H2] | [H1 (l1 & l2 & ->)]]; [lia| |].
      * left. split; [exact H1|]. intros l1 l2 H.
        destruct l1 as [|b l1].
        -- simpl in H. assert (HasPrefix (a :: s) sub = true)
             by (apply HasPrefix_app; eauto). congruence.
        -- injection H as _ H. now apply (H2 l1 l2).
      * right. split; [lia|]. exists (a :: l1), l2. reflexivity.
Qed.

(** [Contains s sub] holds exactly when [sub] occurs in [s]. *)
Lemma Contains_spec (s sub : gostring) :
  Contains s sub = true <-> exists l1 l2, s = l1 ++ sub ++ l2.
Proof.
  unfold Contains, Index.
  destruct (Index_from_found s sub 0) as [[H1 H2] | [H1 H2]]; [lia| |].
  - rewrite H1. split; [discriminate|]. intros (l1 & l2 & H). now elim (H2 l1 l2).
  - split; [intros _; exact H2|]. intros _. lia.
Qed.

(* ------------------------------------------------------------------ *)
(** ** [runAndParseDepotFiles]: the guard on the command *)

Section Guard.

Variable lowerCase : Z -> Z.
Variable GetClientSpec : M spec.
Variable ParseSpec : gostring -> spec.
Variable sh_Out : World -> gostring -> gostring * option error.
Variable sh_Pipe : World -> gostring -> PipeRun.

(** C10: a command that contains none of ["-ztag"], ["-z tag"] and
    ["fstat"] is refused with the error
    ["missing '-z tag' in non-fstat cmd: <cmd>"], and the world is left
    as it was: the stream depth is not resolved (whatever the client and
    depot queries would do) and no command is launched. *)
Theorem runAndParseDepotFiles_missing_ztag (c : gostring) (w : World) :
  Contains c (go "-ztag") = false ->
  Contains c (go "-z tag") = false ->
  Contains c (go "fstat") = false ->
  runAndParseDepotFiles lowerCase GetClientSpec ParseSpec sh_Out sh_Pipe c w
  = (Err (errorString (go "missing '-z tag' in non-fstat cmd: " ++ c)), w).
Proof.
  intros H1 H2 H3. unfold runAndParseDepotFiles.
  rewrite H1, H2, H3. reflexivity.
Qed.

End Guard.

Lemma runAndParseDepotFiles_missing_ztag_witness :
  runAndParseDepotFiles example_lowerCase example_GetClientSpec example_ParseSpec
    example_sh_Out (example_sh_Pipe [go "... depotFile //depot/main/a"; []])
    (go "p4 files //ws/...") example_world
  = (Err (errorString (go "missing '-z tag' in non-fstat cmd: p4 files //ws/...")),
     example_world).
Proof.
  apply (runAndParseDepotFiles_missing_ztag example_lowerCase example_GetClientSpec
           example_ParseSpec example_sh_Out
           (example_sh_Pipe [go "... depotFile //depot/main/a"; []])
           (go "p4 files //ws/...") example_world);
    reflexivity.
Defined.

(* ------------------------------------------------------------------ *)
(** ** The callback on a [depotFile] line without a value *)

(** C9: the line ["... depotFile"] has 13 bytes and passes the guard of
    the callback (at least 5 bytes, beginning with ["... "]); the callback
    then panics in [line[14:]] with slice bounds out of range [14:13],
    returning neither the malformed-line error nor any other error, in
    every state and at every depth; the loop of [cmdAndScan] passes the
    panic on. *)
Theorem onLine_depotFile_without_value_panics :
  len (go "... depotFile") = 13
  /\ strings.TrimSpace (go "... depotFile") = go "... depotFile"
  /\ (len (go "... depotFile") <? 5) || negb (HasPrefix (go "... depotFile") (go "... "))
     = false
  /\ (forall (streamDepth : Z) (st : parser),
         onLine streamDepth st (go "... depotFile") = inl (SliceBoundsOutOfRange 14 13))
  /\ (forall (streamDepth : Z) (st : parser) (ts : list gostring) (rerr : option error),
         scan_loop (onLine streamDepth) (go "... depotFile" :: ts) st rerr
         = inl (SliceBoundsOutOfRange 14 13)).
Proof.
  assert (H : forall streamDepth st,
             onLine streamDepth st (go "... depotFile")
             = inl (SliceBoundsOutOfRange 14 13)).
  { intros streamDepth st. unfold onLine.
    replace (strings.TrimSpace (go "... depotFile")) with (go "... depotFile")
      by (vm_compute; reflexivity).
    reflexivity. }
  split; [reflexivity|].
  split; [vm_compute; reflexivity|].
  split; [reflexivity|].
  split; [exact H|].
  intros streamDepth st ts rerr. cbn [scan_loop]. now rewrite H.
Qed.

(** The same through the whole of [runAndParseDepotFiles]: the call
    panics after the command has been launched. *)
Example runAndParseDepotFiles_panics :
  runAndParseDepotFiles example_lowerCase example_GetClientSpec example_ParseSpec
    example_sh_Out (example_sh_Pipe [go "... depotFile"])
    (go "p4 fstat //ws/...") example_world
  = (Panic (SliceBoundsOutOfRange 14 13),
     launch (go "p4 fstat //ws/...") example_world).
Proof. vm_compute. reflexivity. Qed.

(** With an empty cache [StreamDepth] asks for the client and the depot,
    takes the depth from the depot's [StreamDepth] field and keeps it. *)
Example StreamDepth_resolved :
  let w := mkWorld (mkP4 (go "perforce:1666") (go "alice") [] (go "ws") 0) [] in
  StreamDepth example_GetClientSpec example_ParseSpec example_sh_Out w
  = (Ok 2,
     mkWorld (mkP4 (go "perforce:1666") (go "alice") [] (go "ws") 2)
             [go "p4 -p perforce:1666 -u alice -c ws -z tag depot -o depot"]).
Proof. vm_compute. reflexivity. Qed.

(* ------------------------------------------------------------------ *)
(** ** The callback on tag lines *)

Lemma len_app (s t : gostring) : len (s ++ t) = len s + len t.
Proof. unfold len. rewrite length_app. lia. Qed.

Lemma len_nonneg (s : gostring) : 0 <= len s.
Proof. unfold len. lia. Qed.

Lemma len_0 (s : gostring) : len s = 0 <-> s = [].
Proof.
  unfold len. destruct s; simpl; split; try reflexivity; try discriminate; lia.
Qed.

Lemma slice_from_app (pre x : gostring) (n : Z) :
  n = len pre -> slice_from (pre ++ x) n = inr x.
Proof.
  intros ->. unfold len. rewrite slice_from_ok by (rewrite length_app; lia).
  f_equal. rewrite skipn_app, skipn_all, Nat.sub_diag. reflexivity.
Qed.

(** A trimmed line [pre ++ x] whose fixed part [pre] selects the
    assignment [cur.F = strings.TrimSpace(line[n:])] with [n = len(pre)]. *)
Lemma onLine_assign (streamDepth : Z) (st : parser) (raw pre x : gostring)
      (set : DepotFile -> gostring -> DepotFile) :
  strings.TrimSpace raw = pre ++ x ->
  In (pre, set)
     [(go "... action", set_Action); (go "... headAction", set_Action);
      (go "... change", set_CL); (go "... headChange", set_CL);
      (go "... type", set_Type); (go "... headType", set_Type);
      (go "... digest", set_Digest)] ->
  onLine streamDepth st raw
  = inr (with_cur st (set (cur st) (strings.TrimSpace x)), None).
Proof.
  intros Ht Hin. unfold onLine. rewrite Ht.
  assert (Hx := len_nonneg x).
  simpl in Hin.
  repeat (destruct Hin as [[= <- <-] | Hin]); try contradiction;
    match goal with |- context [len (?p ++ x)] =>
      rewrite (len_app p x);
      let n := eval vm_compute in (len p) in
      change (len p) with n;
      match goal with |- context [?a + len x =? 0] =>
        replace (a + len x =? 0) with false by lia;
        replace (a + len x <? 5) with false by lia
      end;
      cbn [orb];
      change (HasPrefix (p ++ x) (go "... ")) with true;
      cbn [negb];
      let t := eval vm_compute in (skipn 4 p) in
      rewrite (slice_from_app (go "... ") (t ++ x) 4 eq_refl
               : slice_from (p ++ x) 4 = inr (t ++ x));
      cbn -[strings.TrimSpace slice_from];
      unfold assign; rewrite (slice_from_app p x) by reflexivity; reflexivity
    end.
Qed.

(** A blank line closes the record in progress. *)
Lemma onLine_blank (streamDepth : Z) (st : parser) (raw : gostring) :
  strings.TrimSpace raw = [] ->
  onLine streamDepth st raw
  = inr (mkParser (if negb (len (Path (cur st)) =? 0)
                   then out st ++ [cur st] else out st)
                  DepotFile_zero (prefix st), None).
Proof.
  intros Ht. unfold onLine. rewrite Ht. reflexivity.
Qed.

Lemma blank_line_empty : strings.TrimSpace [] = [].
Proof. reflexivity. Qed.

(** Two tag lines that assign the same field, then a blank line: the later
    line gives the emitted record its value. *)
Lemma two_assignments_then_blank
      (streamDepth : Z) (st : parser) (rerr : option error)
      (r1 r2 blank pre1 pre2 x y : gostring)
      (set : DepotFile -> gostring -> DepotFile) :
  (forall d u v, set (set d u) v = set d v) ->
  (forall d v, Path (set d v) = Path d) ->
  In (pre1, set)
     [(go "... action", set_Action); (go "... headAction", set_Action);
      (go "... change", set_CL); (go "... headChange", set_CL);
      (go "... type", set_Type); (go "... headType", set_Type);
      (go "... digest", set_Digest)] ->
  In (pre2, set)
     [(go "... action", set_Action); (go "... headAction", set_Action);
      (go "... change", set_CL); (go "... headChange", set_CL);
      (go "... type", set_Type); (go "... headType", set_Type);
      (go "... digest", set_Digest)] ->
  Path (cur st) <> [] ->
  strings.TrimSpace r1 = pre1 ++ x ->
  strings.TrimSpace r2 = pre2 ++ y ->
  strings.TrimSpace blank = [] ->
  scan_loop (onLine streamDepth) [r1; r2; blank] st rerr
  = inr (mkParser (out st ++ [set (cur st) (strings.TrimSpace y)])
                  DepotFile_zero (prefix st), rerr).
Proof.
  intros Hset Hpath H1 H2 Hp Hr1 Hr2 Hb.
  cbn [scan_loop].
  rewrite (onLine_assign _ _ _ _ _ _ Hr1 H1).
  rewrite (onLine_assign _ _ _ _ _ _ Hr2 H2).
  rewrite (onLine_blank _ _ _ Hb).
  unfold with_cur. cbn [cur out prefix].
  rewrite Hset, Hpath.
  replace (len (Path (cur st)) =? 0) with false; [reflexivity|].
  symmetry. apply Z.eqb_neq. intros H. now apply len_0 in H.
Qed.


(** The same through the whole of [runAndParseDepotFiles]. *)
Example runAndParseDepotFiles_primary_last :
  fst (runAndParseDepotFiles example_lowerCase example_GetClientSpec example_ParseSpec
         example_sh_Out
         (example_sh_Pipe [go "... depotFile //depot/main/a";
                           go "... headAction edit";
                           go "... action add";
                           []])
         (go "p4 fstat //ws/...") example_world)
  = Ok [mkDepotFile (go "a") (go "add") [] [] []].
Proof. vm_compute. reflexivity. Qed.

(* ------------------------------------------------------------------ *)
(** ** [cmdAndScan]: which error comes back *)



Section Streaming.

Variable sh_Pipe : World -> gostring -> PipeRun.


End Streaming.



(* ------------------------------------------------------------------ *)
(** ** Bit operations as arithmetic *)

Lemma land_low_bits (z : Z) (n : Z) :
  0 <= n -> Z.land z (2 ^ n - 1) = z mod 2 ^ n.
Proof.
  intros Hn. rewrite <- Z.land_ones by assumption.
  now rewrite Z.ones_equiv, <- Z.sub_1_r.
Qed.

Lemma lor_disjoint_add (a y n : Z) :
  0 <= n -> 0 <= y < 2 ^ n -> a mod 2 ^ n = 0 -> Z.lor a y = a + y.
Proof.
  intros Hn Hy Ha.
  rewrite <- (Z.add_lor_land a y).
  assert (Hl : Z.land a y = 0); [|lia].
  apply Z.bits_inj'. intros k Hk.
  rewrite Z.land_spec, Z.bits_0.
  destruct (Z_lt_dec k n) as [Hlt | Hge].
  - assert (Hb : Z.testbit a k = false); [|now rewrite Hb].
    rewrite <- (Z.mod_pow2_bits_low a n k) by lia.
    rewrite Ha. apply Z.bits_0.
  - assert (Hb : Z.testbit y k = false); [|now rewrite Hb, andb_false_r].
    destruct (Z.eq_dec y 0) as [-> | Hy0]; [apply Z.bits_0|].
    apply Z.bits_above_log2; [lia|].
    apply Z.log2_lt_pow2; [lia|].
    apply Z.lt_le_trans with (2 ^ n); [lia|].
    apply Z.pow_le_mono_r; lia.
Qed.


Lemma land_maskx (z : Z) : Z.land z utf8.maskx = z mod 64.
Proof. exact (land_low_bits z 6 ltac:(lia)). Qed.
Lemma land_mask2 (z : Z) : Z.land z utf8.mask2 = z mod 32.
Proof. exact (land_low_bits z 5 ltac:(lia)). Qed.
Lemma land_mask3 (z : Z) : Z.land z utf8.mask3 = z mod 16.
Proof. exact (land_low_bits z 4 ltac:(lia)). Qed.
Lemma land_mask4 (z : Z) : Z.land z utf8.mask4 = z mod 8.
Proof. exact (land_low_bits z 3 ltac:(lia)). Qed.

(** The rune of a two-, three- and four-byte sequence as a sum. *)
Lemma rune2_value (c c1 : Z) :
  Z.lor (Z.shiftl (Z.land c utf8.mask2) 6) (Z.land c1 utf8.maskx)
  = (c mod 32) * 64 + c1 mod 64.
Proof.
  rewrite land_mask2, land_maskx, Z.shiftl_mul_pow2 by lia.
  apply (lor_disjoint_add _ _ 6); [lia| |].
  - apply Z.mod_pos_bound. lia.
  - change (2 ^ 6) with 64. now rewrite Z.mod_mul by lia.
Qed.

Lemma rune3_value (c c1 c2 : Z) :
  Z.lor (Z.lor (Z.shiftl (Z.land c utf8.mask3) 12)
               (Z.shiftl (Z.land c1 utf8.maskx) 6))
        (Z.land c2 utf8.maskx)
  = (c mod 16) * 4096 + (c1 mod 64) * 64 + c2 mod 64.
Proof.
  rewrite land_mask3, !land_maskx, !Z.shiftl_mul_pow2 by lia.
  change (2 ^ 12) with 4096. change (2 ^ 6) with 64.
  assert (H1 := Z.mod_pos_bound c1 64 ltac:(lia)).
  assert (H2 := Z.mod_pos_bound c2 64 ltac:(lia)).
  rewrite (lor_disjoint_add (c mod 16 * 4096) (c1 mod 64 * 64) 12); [|lia|lia|].
  - apply (lor_disjoint_add _ _ 6); [lia|exact H2|].
    change (2 ^ 6) with 64.
    replace (c mod 16 * 4096 + c1 mod 64 * 64)
      with ((c mod 16 * 64 + c1 mod 64) * 64) by lia.
    now rewrite Z.mod_mul by lia.
  - change (2 ^ 12) with 4096. now rewrite Z.mod_mul by lia.
Qed.

Lemma rune4_value (c c1 c2 c3 : Z) :
  Z.lor (Z.lor (Z.lor (Z.shiftl (Z.land c utf8.mask4) 18)
                      (Z.shiftl (Z.land c1 utf8.maskx) 12))
               (Z.shiftl (Z.land c2 utf8.maskx) 6))
        (Z.land c3 utf8.maskx)
  = (c mod 8) * 262144 + (c1 mod 64) * 4096 + (c2 mod 64) * 64 + c3 mod 64.
Proof.
  rewrite land_mask4, !land_maskx, !Z.shiftl_mul_pow2 by lia.
  change (2 ^ 18) with 262144. change (2 ^ 12) with 4096. change (2 ^ 6) with 64.
  assert (H1 := Z.mod_pos_bound c1 64 ltac:(lia)).
  assert (H2 := Z.mod_pos_bound c2 64 ltac:(lia)).
  assert (H3 := Z.mod_pos_bound c3 64 ltac:(lia)).
  rewrite (lor_disjoint_add (c mod 8 * 262144) (c1 mod 64 * 4096) 18); [|lia|lia|].
  - rewrite (lor_disjoint_add (c mod 8 * 262144 + c1 mod 64 * 4096) (c2 mod 64 * 64) 12); [|lia|lia|].
    + apply (lor_disjoint_add _ _ 6); [lia|exact H3|].
      change (2 ^ 6) with 64.
      replace (c mod 8 * 262144 + c1 mod 64 * 4096 + c2 mod 64 * 64)
        with ((c mod 8 * 4096 + c1 mod 64 * 64 + c2 mod 64) * 64) by lia.
      now rewrite Z.mod_mul by lia.
    + change (2 ^ 12) with 4096.
      replace (c mod 8 * 262144 + c1 mod 64 * 4096)
        with ((c mod 8 * 64 + c1 mod 64) * 4096) by lia.
      now rewrite Z.mod_mul by lia.
  - change (2 ^ 18) with 262144. now rewrite Z.mod_mul by lia.
Qed.

(** A lead or continuation byte from its tag and its payload. *)
Lemma lor_tag (tag x n : Z) :
  0 <= n -> 0 <= x < 2 ^ n -> tag mod 2 ^ n = 0 -> Z.lor tag x = tag + x.
Proof. intros. now apply (lor_disjoint_add tag x n). Qed.

Lemma cont_byte (z : Z) :
  0 <= z -> Z.lor utf8.tx (Z.land (byteZ (byte_of_Z z)) utf8.maskx) = 128 + z mod 64.
Proof.
  intros Hz. rewrite byteZ_byte_of_Z, land_maskx.
  rewrite (lor_tag utf8.tx _ 6); [| lia | apply Z.mod_pos_bound; lia | reflexivity].
  unfold utf8.tx. Z.div_mod_to_equations. lia.
Qed.

Lemma byte_of_Z_eq (z : Z) (b : ascii) : z = byteZ b -> byte_of_Z z = b.
Proof. intros ->. apply byte_of_Z_byteZ. Qed.

(** Writing a single byte below [RuneSelf]. *)
Lemma AppendRune_ascii (p : gostring) (a : ascii) :
  byteZ a < 0x80 -> utf8.AppendRune p (byteZ a) = p ++ [a].
Proof.
  intros Ha. pose proof (byteZ_range a) as Hr. unfold utf8.AppendRune.
  rewrite Z.mod_small by lia.
  replace (byteZ a <=? utf8.rune1Max) with true by (unfold utf8.rune1Max; lia).
  now rewrite byte_of_Z_byteZ.
Qed.

(** Writing a decoded rune gives back the bytes it was decoded from. *)
Lemma AppendRune_decoderune (p : gostring) (s0 : ascii) (rest : gostring)
      (r : Z) (w : nat) :
  utf8.decoderune (s0 :: rest) = (r, w) ->
  (1 < w)%nat ->
  utf8.AppendRune p r = p ++ firstn w (s0 :: rest).
Proof.
  unfold utf8.decoderune.
  pose proof (byteZ_range s0) as R0.
  destruct (byteZ s0 <? utf8.RuneSelf); [intros [= <- <-]; lia|].
  assert (Hone : (utf8.RuneError, 1%nat) = (r, w) -> (1 < w)%nat ->
                 utf8.AppendRune p r = p ++ firstn w (s0 :: rest))
    by (intros [= <- <-]; lia).
  unfold utf8.t2, utf8.t3, utf8.t4, utf8.t5.
  destruct ((0xC0 <=? byteZ s0) && (byteZ s0 <? 0xE0)) eqn:L2.
  { destruct rest as [|s1 rest]; [exact Hone|].
    destruct (utf8.cont s1) eqn:C1; [|exact Hone].
    apply cont_range in C1. cbv zeta. rewrite rune2_value.
    destruct (utf8.rune1Max <? _) eqn:Hr; [|exact Hone].
    intros [= <- <-] _. unfold utf8.rune1Max in Hr.
    apply andb_prop in L2 as [La Lb].
    set (r := byteZ s0 mod 32 * 64 + byteZ s1 mod 64) in *.
    assert (Hr1 : 0x7F < r < 2048) by (subst r; Z.div_mod_to_equations; lia).
    unfold utf8.AppendRune. rewrite Z.mod_small by lia.
    replace (r <=? utf8.rune1Max) with false by (unfold utf8.rune1Max; lia).
    replace (r <=? utf8.rune2Max) with true by (unfold utf8.rune2Max; lia).
    cbn [firstn]. f_equal. repeat (apply (f_equal2 cons)); try reflexivity.
    - apply byte_of_Z_eq. rewrite byteZ_byte_of_Z, Z.shiftr_div_pow2 by lia.
      rewrite (lor_tag utf8.t2 _ 5); [| lia | | reflexivity];
        unfold utf8.t2; subst r; Z.div_mod_to_equations; lia.
    - apply byte_of_Z_eq. rewrite cont_byte by lia.
      subst r. Z.div_mod_to_equations; lia. }
  destruct ((0xE0 <=? byteZ s0) && (byteZ s0 <? 0xF0)) eqn:L3.
  { destruct rest as [|s1 [|s2 rest]]; [exact Hone|exact Hone|].
    destruct (utf8.cont s1) eqn:C1; [|exact Hone].
    destruct (utf8.cont s2) eqn:C2; [|exact Hone].
    apply cont_range in C1. apply cont_range in C2.
    cbv zeta. cbn [andb]. rewrite rune3_value.
    destruct (utf8.rune2Max <? _) eqn:Hr; [|exact Hone].
    cbn [andb].
    destruct ((utf8.surrogateMin <=? _) && (_ <=? utf8.surrogateMax)) eqn:Hs;
      cbn [negb]; [exact Hone|].
    intros [= <- <-] _. unfold utf8.rune2Max in Hr.
    apply andb_prop in L3 as [La Lb].
    set (r := byteZ s0 mod 16 * 4096 + byteZ s1 mod 64 * 64 + byteZ s2 mod 64) in *.
    assert (Hr1 : 0x7FF < r < 65536) by (subst r; Z.div_mod_to_equations; lia).
    unfold utf8.AppendRune. rewrite Z.mod_small by lia.
    replace (r <=? utf8.rune1Max) with false by (unfold utf8.rune1Max; lia).
    replace (r <=? utf8.rune2Max) with false by (unfold utf8.rune2Max; lia).
    replace (utf8.MaxRune <? r) with false by (unfold utf8.MaxRune; lia).
    rewrite Hs. cbn [orb].
    replace (r <=? utf8.rune3Max) with true by (unfold utf8.rune3Max; lia).
    cbn [firstn]. f_equal. repeat (apply (f_equal2 cons)); try reflexivity.
    - apply byte_of_Z_eq. rewrite byteZ_byte_of_Z, Z.shiftr_div_pow2 by lia.
      rewrite (lor_tag utf8.t3 _ 4); [| lia | | reflexivity];
        unfold utf8.t3; subst r; Z.div_mod_to_equations; lia.
    - apply byte_of_Z_eq. rewrite Z.shiftr_div_pow2 by lia.
      rewrite cont_byte by (subst r; Z.div_mod_to_equations; lia).
      subst r. Z.div_mod_to_equations; lia.
    - apply byte_of_Z_eq. rewrite cont_byte by lia.
      subst r. Z.div_mod_to_equations; lia. }
  destruct ((0xF0 <=? byteZ s0) && (byteZ s0 <? 0xF8)) eqn:L4; [|exact Hone].
  destruct rest as [|s1 [|s2 [|s3 rest]]]; [exact Hone|exact Hone|exact Hone|].
  destruct (utf8.cont s1) eqn:C1; [|exact Hone].
  destruct (utf8.cont s2) eqn:C2; [|exact Hone].
  destruct (utf8.cont s3) eqn:C3; [|exact Hone].
  apply cont_range in C1. apply cont_range in C2. apply cont_range in C3.
  cbv zeta. cbn [andb]. rewrite rune4_value.
  destruct (utf8.rune3Max <? _) eqn:Hr; [|exact Hone].
  cbn [andb].
  destruct (_ <=? utf8.MaxRune) eqn:Hm; [|exact Hone].
  intros [= <- <-] _. unfold utf8.rune3Max in Hr. unfold utf8.MaxRune in Hm.
  apply andb_prop in L4 as [La Lb].
  set (r := byteZ s0 mod 8 * 262144 + byteZ s1 mod 64 * 4096
            + byteZ s2 mod 64 * 64 + byteZ s3 mod 64) in *.
  assert (Hr1 : 0xFFFF < r <= 0x10FFFF) by lia.
  unfold utf8.AppendRune. rewrite Z.mod_small by lia.
  replace (r <=? utf8.rune1Max) with false by (unfold utf8.rune1Max; lia).
  replace (r <=? utf8.rune2Max) with false by (unfold utf8.rune2Max; lia).
  replace (utf8.MaxRune <? r) with false by (unfold utf8.MaxRune; lia).
  replace ((utf8.surrogateMin <=? r) && (r <=? utf8.surrogateMax)) with false
    by (unfold utf8.surrogateMin, utf8.surrogateMax; symmetry;
        apply andb_false_iff; lia).
  cbn [orb].
  replace (r <=? utf8.rune3Max) with false by (unfold utf8.rune3Max; lia).
  cbn [firstn]. f_equal. repeat (apply (f_equal2 cons)); try reflexivity.
  - apply byte_of_Z_eq. rewrite byteZ_byte_of_Z, Z.shiftr_div_pow2 by lia.
    rewrite (lor_tag utf8.t4 _ 3); [| lia | | reflexivity];
      unfold utf8.t4; subst r; Z.div_mod_to_equations; lia.
  - apply byte_of_Z_eq. rewrite Z.shiftr_div_pow2 by lia.
    rewrite cont_byte by (subst r; Z.div_mod_to_equations; lia).
    subst r. Z.div_mod_to_equations; lia.
  - apply byte_of_Z_eq. rewrite Z.shiftr_div_pow2 by lia.
    rewrite cont_byte by (subst r; Z.div_mod_to_equations; lia).
    subst r. Z.div_mod_to_equations; lia.
  - apply byte_of_Z_eq. rewrite cont_byte by lia.
    subst r. Z.div_mod_to_equations; lia.
Qed.

(* ------------------------------------------------------------------ *)
(** ** [EscapePath] on well-formed UTF-8 *)

Lemma escape_byte_high (c : ascii) : 0x80 <= byteZ c -> escape_byte c = [c].
Proof.
  intros H. unfold escape_byte.
  repeat match goal with
         | |- context [ascii_dec c ?x] =>
             destruct (ascii_dec c x) as [-> | _]; [cbv in H; now elim H|]
         end.
  reflexivity.
Qed.

Lemma flat_map_escape_cont (l : gostring) :
  Forall (fun b => utf8.cont b = true) l -> flat_map escape_byte l = l.
Proof.
  induction 1 as [|b l Hb _ IH]; [reflexivity|].
  cbn [flat_map]. rewrite IH, escape_byte_high; [reflexivity|].
  apply cont_range in Hb. lia.
Qed.

Lemma escape_rune_ascii (sb : gostring) (i : Z) (a : ascii) :
  byteZ a < 0x80 -> escape_rune sb (i, byteZ a) = sb ++ escape_byte a.
Proof.
  intros Ha. unfold escape_rune, escape_byte.
  repeat match goal with
         | |- context [ascii_dec a ?x] =>
             destruct (ascii_dec a x) as [-> | ?]; [reflexivity|]
         end.
  repeat match goal with
         | |- context [byteZ a =? ?v] =>
             destruct (Z.eqb_spec (byteZ a) v) as [E | _];
               [exfalso; apply (f_equal byte_of_Z) in E;
                rewrite byte_of_Z_byteZ in E; vm_compute in E; congruence|]
         end.
  now apply AppendRune_ascii.
Qed.

Lemma escape_rune_high (sb : gostring) (i r : Z) :
  0x80 <= r -> escape_rune sb (i, r) = utf8.AppendRune sb r.
Proof.
  intros Hr. unfold escape_rune.
  replace (r =? 0x40) with false by lia.
  replace (r =? 0x23) with false by lia.
  replace (r =? 0x2A) with false by lia.
  replace (r =? 0x25) with false by lia.
  reflexivity.
Qed.

Lemma EscapePath_from (s : gostring) :
  forall (i k : nat) (sb : gostring),
    utf8.valid_from k s = true ->
    fold_left escape_rune (utf8.range_from i k s) sb
    = sb ++ flat_map escape_byte (skipn k s).
Proof.
  induction s as [|a s IH]; intros i k sb Hv.
  - destruct k; simpl; now rewrite app_nil_r.
  - destruct k as [|k].
    + cbn [utf8.range_from utf8.valid_from skipn] in *.
      destruct (utf8.decoderune (a :: s)) as [r w] eqn:Hd.
      apply andb_prop in Hv as [Hstep Hv].
      cbn [fold_left]. rewrite (IH _ _ _ Hv).
      pose proof (AppendRune_decoderune sb _ _ _ _ Hd) as Henc.
      apply decoderune_shape in Hd.
      destruct Hd as [[-> Hr] | (Hge & Hr & Hw & l1 & l2 & -> & Hl & Hc)].
      * change utf8.RuneSelf with 0x80 in Hstep.
        destruct (byteZ a <? 0x80) eqn:Hlt; [|discriminate Hstep].
        subst r. rewrite escape_rune_ascii by lia.
        cbn [flat_map skipn Nat.sub]. now rewrite <- app_assoc.
      * rewrite escape_rune_high by lia.
        rewrite Henc by lia.
        replace w with (S (List.length l1)) by lia.
        cbn [firstn]. rewrite firstn_app, Nat.sub_diag, firstn_all, firstn_O, app_nil_r.
        replace (S (List.length l1) - 1)%nat with (List.length l1) by lia.
        rewrite skipn_app, skipn_all, Nat.sub_diag. cbn [skipn app].
        cbn [flat_map]. rewrite escape_byte_high by lia.
        rewrite flat_map_app, (flat_map_escape_cont l1 Hc).
        rewrite <- !app_assoc. reflexivity.
    + cbn [utf8.range_from utf8.valid_from skipn] in *. now apply IH.
Qed.

(** On well-formed UTF-8 [EscapePath] replaces the four reserved bytes by
    their codes and keeps every other byte. *)
Lemma EscapePath_bytes (s : gostring) :
  utf8.ValidString s = true -> EscapePath s = flat_map escape_byte s.
Proof.
  intros Hv. exact (EscapePath_from s 0 0 [] Hv).
Qed.

(* ------------------------------------------------------------------ *)
(** ** [UnescapePath] after [EscapePath] *)

Lemma range_from_ascii (i : nat) (a : ascii) (rest : gostring) :
  byteZ a < 0x80 ->
  utf8.range_from i 0 (a :: rest)
  = (Z.of_nat i, byteZ a) :: utf8.range_from (S i) 0 rest.
Proof.
  intros Ha. cbn [utf8.range_from]. unfold utf8.decoderune.
  replace (byteZ a <? utf8.RuneSelf) with true by (unfold utf8.RuneSelf; lia).
  reflexivity.
Qed.

(** A rune of several bytes is decoded from those bytes alone. *)
Lemma decoderune_prefix (a : ascii) (l1 l2 l3 : gostring) (r : Z) (w : nat) :
  utf8.decoderune (a :: l1 ++ l2) = (r, w) ->
  (1 < w)%nat -> List.length l1 = (w - 1)%nat ->
  utf8.decoderune (a :: l1 ++ l3) = (r, w).
Proof.
  unfold utf8.decoderune.
  destruct (byteZ a <? utf8.RuneSelf); [intros [= <- <-]; lia|].
  destruct ((utf8.t2 <=? byteZ a) && (byteZ a <? utf8.t3)).
  { destruct l1 as [|s1 l1]; cbn [app].
    - intros _ Hw Hl. simpl in Hl. lia.
    - destruct (utf8.cont s1); [|(intros [= <- <-]; intros; lia)].
      cbv zeta. destruct (utf8.rune1Max <? _); [|(intros [= <- <-]; intros; lia)].
      intros [= <- <-]. reflexivity. }
  destruct ((utf8.t3 <=? byteZ a) && (byteZ a <? utf8.t4)).
  { destruct l1 as [|s1 [|s2 l1]]; cbn [app].
    - intros _ Hw Hl. simpl in Hl. lia.
    - destruct l2 as [|s2 l2]; [(intros [= <- <-]; intros; lia)|].
      destruct (utf8.cont s1 && utf8.cont s2); [|(intros [= <- <-]; intros; lia)].
      cbv zeta. destruct (_ && _); [|(intros [= <- <-]; intros; lia)].
      intros [= <- <-] _ Hl. simpl in Hl. lia.
    - destruct (utf8.cont s1 && utf8.cont s2); [|(intros [= <- <-]; intros; lia)].
      cbv zeta. destruct (_ && _); [|(intros [= <- <-]; intros; lia)].
      intros [= <- <-]. reflexivity. }
  destruct ((utf8.t4 <=? byteZ a) && (byteZ a <? utf8.t5)); [|(intros [= <- <-]; intros; lia)].
  destruct l1 as [|s1 [|s2 [|s3 l1]]]; cbn [app].
  - intros _ Hw Hl. simpl in Hl. lia.
  - destruct l2 as [|s2 [|s3 l2]]; [(intros [= <- <-]; intros; lia)|(intros [= <- <-]; intros; lia)|].
    destruct (utf8.cont s1 && utf8.cont s2 && utf8.cont s3); [|(intros [= <- <-]; intros; lia)].
    cbv zeta. destruct (_ && _); [|(intros [= <- <-]; intros; lia)].
    intros [= <- <-] _ Hl. simpl in Hl. lia.
  - destruct l2 as [|s3 l2]; [(intros [= <- <-]; intros; lia)|].
    destruct (utf8.cont s1 && utf8.cont s2 && utf8.cont s3); [|(intros [= <- <-]; intros; lia)].
    cbv zeta. destruct (_ && _); [|(intros [= <- <-]; intros; lia)].
    intros [= <- <-] _ Hl. simpl in Hl. lia.
  - destruct (utf8.cont s1 && utf8.cont s2 && utf8.cont s3); [|(intros [= <- <-]; intros; lia)].
    cbv zeta. destruct (_ && _); [|(intros [= <- <-]; intros; lia)].
    intros [= <- <-]. reflexivity.
Qed.

Lemma slice_middle (p x q : gostring) (lo hi : Z) :
  lo = len p -> hi = lo + len x -> slice (p ++ x ++ q) lo hi = inr x.
Proof.
  intros -> ->. unfold slice, len.
  rewrite !length_app.
  replace ((0 <=? Z.of_nat (List.length p))
           && (Z.of_nat (List.length p)
               <=? Z.of_nat (List.length p) + Z.of_nat (List.length x))
           && (Z.of_nat (List.length p) + Z.of_nat (List.length x)
               <=? Z.of_nat (List.length p + (List.length x + List.length q))))
    with true by (symmetry; rewrite !andb_true_iff, !Z.leb_le; lia).
  f_equal.
  rewrite Nat2Z.id, skipn_app, skipn_all, Nat.sub_diag. cbn [skipn app].
  replace (Z.to_nat (Z.of_nat (List.length p) + Z.of_nat (List.length x))
           - List.length p)%nat with (List.length x + 0)%nat by lia.
  now rewrite firstn_app_2, firstn_O, app_nil_r.
Qed.

(** The three steps of the loop of [UnescapePath] over one of the codes
    that [EscapePath] writes. *)
Lemma UnescapePath_code (pre rest out0 : gostring) (start0 : Z) (a h l : ascii) :
  byteZ h < 0x80 -> byteZ l < 0x80 -> byteZ a < 0x80 ->
  strconv.ParseInt [h; l] 16 64 = inr (byteZ a) ->
  UnescapePath_loop (pre ++ "%"%char :: h :: l :: rest)
    (utf8.range_from (List.length pre) 0 ("%"%char :: h :: l :: rest))
    (mkUnescape out0 false start0)
  = UnescapePath_loop ((pre ++ [ "%"%char; h; l ]) ++ rest)
      (utf8.range_from (List.length (pre ++ [ "%"%char; h; l ])) 0 rest)
      (mkUnescape (out0 ++ [a]) false (Z.of_nat (List.length pre))).
Proof.
  intros Hh Hl Ha Hparse.
  rewrite !range_from_ascii by (try assumption; reflexivity).
  cbn [UnescapePath_loop escaped start sb].
  change (byteZ "%" =? 0x25) with true. cbv iota.
  cbn [UnescapePath_loop escaped start sb].
  replace (2 <=? Z.of_nat (S (List.length pre)) - Z.of_nat (List.length pre))
    with false by (symmetry; apply Z.leb_gt; lia).
  replace (2 <=? Z.of_nat (S (S (List.length pre))) - Z.of_nat (List.length pre))
    with true by (symmetry; apply Z.leb_le; lia).
  assert (Hs : slice (pre ++ "%"%char :: h :: l :: rest)
                     (Z.of_nat (List.length pre) + 1)
                     (Z.of_nat (S (S (List.length pre))) + 1) = inr [h; l]).
  { replace (pre ++ "%"%char :: h :: l :: rest)
      with ((pre ++ ["%"%char]) ++ [h; l] ++ rest) by (now rewrite <- app_assoc).
    apply slice_middle.
    - unfold len. rewrite length_app. simpl. lia.
    - unfold len. simpl. lia. }
  rewrite Hs, Hparse.
  replace (rune_of_int64 (byteZ a)) with (byteZ a)
    by (pose proof (byteZ_range a); unfold rune_of_int64;
        rewrite Z.mod_small; lia).
  rewrite AppendRune_ascii by assumption.
  rewrite length_app, <- app_assoc.
  cbn [List.length app].
  replace (List.length pre + 3)%nat with (S (S (S (List.length pre)))) by lia.
  reflexivity.
Qed.

(** The loop of [UnescapePath] over the escape of a well-formed string:
    it gives back the bytes the escape was made from. *)
Lemma UnescapePath_loop_escape (s : gostring) :
  forall (k : nat) (pre out0 : gostring) (start0 : Z),
    utf8.valid_from k s = true ->
    Forall (fun b => utf8.cont b = true) (firstn k s) ->
    (k <= List.length s)%nat ->
    exists start1,
      UnescapePath_loop (pre ++ flat_map escape_byte s)
        (utf8.range_from (List.length pre) k (flat_map escape_byte s))
        (mkUnescape out0 false start0)
      = Ok (mkUnescape (out0 ++ skipn k s) false start1).
Proof.
  induction s as [|a s IH]; intros k pre out0 start0 Hv Hc Hk.
  - exists start0. destruct k; simpl; now rewrite app_nil_r.
  - destruct k as [|k].
    + cbn [utf8.valid_from skipn] in *.
      destruct (utf8.decoderune (a :: s)) as [r w] eqn:Hd.
      apply andb_prop in Hv as [Hstep Hv].
      pose proof (AppendRune_decoderune out0 _ _ _ _ Hd) as Henc.
      pose proof Hd as Hshape. apply decoderune_shape in Hshape.
      destruct Hshape as [[-> Hr] | (Hge & Hr & Hw & l1 & l2 & -> & Hl & Hcont)].
      * (* a single byte below [RuneSelf] *)
        change utf8.RuneSelf with 0x80 in Hstep.
        destruct (byteZ a <? 0x80) eqn:Hlt; [|discriminate Hstep].
        assert (Hlt' : byteZ a < 0x80) by lia.
        cbn [flat_map]. unfold escape_byte at 1 3.
        assert (Hnext : forall code : gostring,
                   exists start1,
                     UnescapePath_loop ((pre ++ code) ++ flat_map escape_byte s)
                       (utf8.range_from (List.length (pre ++ code)) 0
                                        (flat_map escape_byte s))
                       (mkUnescape (out0 ++ [a]) false (Z.of_nat (List.length pre)))
                     = Ok (mkUnescape (out0 ++ a :: s) false start1)).
        { intros code.
          destruct (IH 0%nat (pre ++ code) (out0 ++ [a]) (Z.of_nat (List.length pre)) Hv)
            as [start1 H1]; [constructor|lia|].
          exists start1. rewrite H1. cbn [skipn]. now rewrite <- app_assoc. }
        destruct (ascii_dec a "@") as [->|N1];
          [cbv [go list_ascii_of_string]; cbn [app];
           rewrite (UnescapePath_code pre _ out0 start0 "@" "4" "0");
           [apply Hnext|reflexivity..]|].
        destruct (ascii_dec a "#") as [->|N2];
          [cbv [go list_ascii_of_string]; cbn [app];
           rewrite (UnescapePath_code pre _ out0 start0 "#" "2" "3");
           [apply Hnext|reflexivity..]|].
        destruct (ascii_dec a "*") as [->|N3];
          [cbv [go list_ascii_of_string]; cbn [app];
           rewrite (UnescapePath_code pre _ out0 start0 "*" "2" "A");
           [apply Hnext|reflexivity..]|].
        destruct (ascii_dec a "%") as [->|N4];
          [cbv [go list_ascii_of_string]; cbn [app];
           rewrite (UnescapePath_code pre _ out0 start0 "%" "2" "5");
           [apply Hnext|reflexivity..]|].
        cbn [app]. rewrite range_from_ascii by assumption.
        cbn [UnescapePath_loop escaped sb start].
        destruct (Z.eqb_spec (byteZ a) 0x25) as [E|_].
        { exfalso. apply N4. apply byteZ_inj. rewrite E. reflexivity. }
        rewrite AppendRune_ascii by assumption.
        destruct (IH 0%nat (pre ++ [a]) (out0 ++ [a]) start0 Hv)
          as [start1 H1]; [constructor|lia|].
        exists start1.
        rewrite <- !app_assoc, length_app in H1. cbn [List.length app skipn] in H1.
        now replace (List.length pre + 1)%nat with (S (List.length pre)) in H1 by lia.
      * (* a rune of several bytes *)
        assert (Hw1 : (1 < w)%nat) by lia.
        cbn [flat_map]. rewrite escape_byte_high by lia. cbn [app].
        cbn [utf8.range_from].
        rewrite flat_map_app, (flat_map_escape_cont l1 Hcont).
        rewrite (decoderune_prefix a l1 l2 (flat_map escape_byte l2) r w Hd Hw1 Hl).
        cbn [UnescapePath_loop escaped sb start].
        replace (r =? 0x25) with false by lia.
        rewrite (Henc Hw1).
        assert (Hf : firstn (w - 1) (l1 ++ l2) = l1).
        { rewrite <- Hl, firstn_app, Nat.sub_diag, firstn_all, firstn_O.
          apply app_nil_r. }
        destruct (IH (w - 1)%nat (pre ++ [a])
                     (out0 ++ firstn w (a :: l1 ++ l2)) start0 Hv)
          as [start1 H1].
        { now rewrite Hf. }
        { rewrite length_app. lia. }
        exists start1.
        rewrite flat_map_app, (flat_map_escape_cont l1 Hcont) in H1.
        rewrite <- app_assoc, length_app in H1. cbn [List.length app] in H1.
        replace (List.length pre + 1)%nat with (S (List.length pre)) in H1 by lia.
        rewrite H1. do 2 f_equal.
        rewrite <- app_assoc. f_equal.
        replace w with (S (w - 1)) at 1 by lia.
        cbn [firstn]. rewrite Hf.
        rewrite <- Hl, skipn_app, skipn_all, Nat.sub_diag. reflexivity.
    + cbn [utf8.valid_from skipn firstn] in *.
      inversion Hc as [|? ? Ha Hc']; subst.
      apply cont_range in Ha.
      cbn [flat_map]. rewrite escape_byte_high by lia. cbn [app utf8.range_from].
      destruct (IH k (pre ++ [a]) out0 start0 Hv Hc') as [start1 H1];
        [simpl in Hk; lia|].
      exists start1.
      rewrite <- !app_assoc, length_app in H1. cbn [List.length app] in H1.
      now replace (List.length pre + 1)%nat with (S (List.length pre)) in H1 by lia.
Qed.

(** C4, amended: for every string that is well-formed UTF-8 (reserved
    characters and characters next to a percent sign included)
    [UnescapePath (EscapePath s)] returns [s] and no error, and
    [EscapePath] replaces exactly [@] by [%40], [#] by [%23], [*] by [%2A]
    and [%] by [%25], leaving every other byte as it is. *)
Theorem UnescapePath_EscapePath (s : gostring) :
  utf8.ValidString s = true ->
  UnescapePath (EscapePath s) = Ok s
  /\ EscapePath s = flat_map escape_byte s.
Proof.
  intros Hv. rewrite (EscapePath_bytes s Hv). split; [|reflexivity].
  unfold UnescapePath, utf8.range.
  destruct (UnescapePath_loop_escape s 0 [] [] 0 Hv) as [start1 H1];
    [constructor|lia|].
  cbn [app List.length skipn] in H1. now rewrite H1.
Qed.

Lemma UnescapePath_EscapePath_witness :
  UnescapePath (EscapePath (go "//depot/a@b#c*d%e/100%25.txt"))
  = Ok (go "//depot/a@b#c*d%e/100%25.txt")
  /\ EscapePath (go "//depot/a@b#c*d%e/100%25.txt")
     = go "//depot/a%40b%23c%2Ad%25e/100%2525.txt".
Proof.
  apply (UnescapePath_EscapePath (go "//depot/a@b#c*d%e/100%25.txt")).
  reflexivity.
Defined.

(** C4 as stated fails: a byte that is not well-formed UTF-8 is read as
    [RuneError] and written as [EF BF BD], so it does not come back. *)
Lemma EscapePath_ill_formed_byte :
  ~ (forall s : gostring, UnescapePath (EscapePath s) = Ok s).
Proof.
  intros H. specialize (H [byte_of_Z 0xFF]).
  vm_compute in H. discriminate H.
Qed.

Example ill_formed_byte_written_as_RuneError :
  EscapePath [byte_of_Z 0xFF] = [byte_of_Z 0xEF; byte_of_Z 0xBF; byte_of_Z 0xBD].
Proof. vm_compute. reflexivity. Qed.

(* ------------------------------------------------------------------ *)
(** ** [UnescapePath] on codes that are not two hexadecimal digits *)

(** C5: a percent sign followed by a sign and one hexadecimal digit is
    not two hexadecimal digits, yet [UnescapePath] returns no error on it:
    [strconv.ParseInt] takes the sign, and ["%-1"] is decoded to
    [rune(-1)], written as [RuneError], ["%+1"] to the byte [01].  Codes
    with a character that [ParseInt] refuses, and strings that end inside
    a code, are errors. *)
Theorem UnescapePath_signed_digit :
  UnescapePath (go "%-1") = Ok [byte_of_Z 0xEF; byte_of_Z 0xBF; byte_of_Z 0xBD]
  /\ UnescapePath (go "%+1") = Ok [byte_of_Z 0x01]
  /\ UnescapePath (go "a%zz")
     = Err (wrapError (go "error parsing perforce-style escape code '%zz': ")
                      (NumError (go "ParseInt") (go "zz") strconv.ErrSyntax))
  /\ UnescapePath (go "a%4")
     = Err (errorString (go "string ended before escaped character value in 'a%4'"))
  /\ UnescapePath (go "a%")
     = Err (errorString (go "string ended before escaped character value in 'a%'"))
  /\ UnescapePath (go "%2f%2F") = Ok (go "//").
Proof.
  repeat split; vm_compute; reflexivity.
Qed.

(* ------------------------------------------------------------------ *)
(** ** [sort.Sort]: slices, swaps and the order *)

Section SortSlices.

Variable A : Type.

Local Abbreviation size d := (Z.of_nat (List.length d)).
Local Abbreviation get := (sort.get A).
Local Abbreviation Swap := (sort.Swap A).
Local Abbreviation set_nth := (sort.set_nth A).
Local Abbreviation swaps := (swaps A).

Lemma length_set_nth (d : list A) (n : nat) (x : A) :
  List.length (set_nth d n x) = List.length d.
Proof.
  revert n. induction d as [|y d IH]; intros [|n]; simpl; auto.
Qed.

Lemma nth_error_set_nth (d : list A) (n m : nat) (x : A) :
  (n < List.length d)%nat ->
  nth_error (set_nth d n x) m = if Nat.eqb m n then Some x else nth_error d m.
Proof.
  revert n m. induction d as [|y d IH]; intros [|n] [|m] Hn; simpl in *;
    try lia; auto.
  apply IH. lia.
Qed.

Lemma set_nth_perm (d : list A) (n : nat) (x y : A) :
  nth_error d n = Some x -> Permutation (x :: set_nth d n y) (y :: d).
Proof.
  revert n. induction d as [|h d IH]; intros [|n] H; simpl in *; try discriminate.
  - injection H as ->. apply perm_swap.
  - eapply perm_trans; [apply perm_swap|].
    eapply perm_trans; [apply perm_skip, IH, H|]. apply perm_swap.
Qed.

Lemma get_in_range (d : list A) (i : Z) :
  0 <= i < size d -> exists x, get d i = Some x.
Proof.
  intros Hi. unfold sort.get. replace (i <? 0) with false by lia.
  destruct (nth_error d (Z.to_nat i)) as [x|] eqn:E; [eauto|].
  apply nth_error_None in E. lia.
Qed.

Lemma get_out_of_range (d : list A) (i : Z) :
  ~ (0 <= i < size d) -> get d i = None.
Proof.
  intros Hi. unfold sort.get. destruct (i <? 0) eqn:E; [reflexivity|].
  apply nth_error_None. lia.
Qed.

Lemma get_some_range (d : list A) (i : Z) (x : A) :
  get d i = Some x -> 0 <= i < size d.
Proof.
  intros H. destruct (Z_lt_dec i 0) as [Hn|Hn].
  - rewrite get_out_of_range in H by lia. discriminate.
  - destruct (Z_lt_dec i (size d)); [lia|].
    rewrite get_out_of_range in H by lia. discriminate.
Qed.

Lemma Swap_out_of_range (d : list A) (i j : Z) :
  ~ (0 <= i < size d /\ 0 <= j < size d) -> Swap d i j = d.
Proof.
  intros H. unfold sort.Swap.
  destruct (get d i) as [x|] eqn:Ei; [|reflexivity].
  destruct (get d j) as [y|] eqn:Ej; [|reflexivity].
  apply get_some_range in Ei. apply get_some_range in Ej. tauto.
Qed.

Lemma length_Swap (d : list A) (i j : Z) :
  List.length (Swap d i j) = List.length d.
Proof.
  unfold sort.Swap. destruct (get d i), (get d j); auto.
  now rewrite !length_set_nth.
Qed.

Lemma get_Swap (d : list A) (i j k : Z) :
  0 <= i < size d -> 0 <= j < size d ->
  get (Swap d i j) k = get d (transpose i j k).
Proof.
  intros Hi Hj. unfold sort.Swap, transpose.
  destruct (get_in_range d i Hi) as [x Hx].
  destruct (get_in_range d j Hj) as [y Hy].
  rewrite Hx, Hy.
  destruct (Z_lt_dec k 0) as [Hk|Hk].
  { rewrite !get_out_of_range; auto.
    - destruct (Z.eqb_spec k i); [lia|]. destruct (Z.eqb_spec k j); lia.
    - rewrite !length_set_nth. lia. }
  unfold sort.get in *.
  replace (k <? 0) with false by lia.
  replace (i <? 0) with false in * by lia.
  replace (j <? 0) with false in * by lia.
  rewrite nth_error_set_nth by (rewrite length_set_nth; lia).
  rewrite nth_error_set_nth by lia.
  destruct (Z.eqb_spec k i) as [->|Hki].
  - replace (j <? 0) with false by lia. rewrite Hy.
    destruct (Nat.eqb_spec (Z.to_nat i) (Z.to_nat j)) as [E|E].
    + assert (i = j) by lia. subst. congruence.
    + now rewrite Nat.eqb_refl.
  - destruct (Z.eqb_spec k j) as [->|Hkj].
    + replace (i <? 0) with false by lia. now rewrite Nat.eqb_refl.
    + replace (k <? 0) with false by lia.
      destruct (Nat.eqb_spec (Z.to_nat k) (Z.to_nat j)); [lia|].
      destruct (Nat.eqb_spec (Z.to_nat k) (Z.to_nat i)); [lia|]. reflexivity.
Qed.

Lemma Swap_perm (d : list A) (i j : Z) : Permutation (Swap d i j) d.
Proof.
  unfold sort.Swap.
  destruct (get d i) as [x|] eqn:Ei; [|reflexivity].
  destruct (get d j) as [y|] eqn:Ej; [|reflexivity].
  pose proof (get_some_range _ _ _ Ei) as Hi.
  pose proof (get_some_range _ _ _ Ej) as Hj.
  unfold sort.get in Ei, Ej.
  replace (i <? 0) with false in Ei by lia.
  replace (j <? 0) with false in Ej by lia.
  apply (Permutation_cons_inv (a := y)).
  eapply perm_trans; [apply set_nth_perm|].
  - rewrite nth_error_set_nth by lia.
    destruct (Nat.eqb (Z.to_nat j) (Z.to_nat i)); [reflexivity|exact Ej].
  - eapply perm_trans; [apply set_nth_perm, Ei|]. apply Permutation_refl.
Qed.

Lemma swaps_one (a b : Z) (d : list A) (i j : Z) :
  a <= i < b -> a <= j < b -> swaps a b d (Swap d i j).
Proof. intros. apply (swaps_step A a b d _ i j); auto. apply swaps_refl. Qed.

Lemma swaps_trans (a b : Z) (d1 d2 d3 : list A) :
  swaps a b d1 d2 -> swaps a b d2 d3 -> swaps a b d1 d3.
Proof.
  induction 1 as [|d d' i j Hi Hj _ IH]; intros H3; auto.
  apply (swaps_step A a b d _ i j); auto.
Qed.

Lemma swaps_mono (a b a' b' : Z) (d d' : list A) :
  a' <= a -> b <= b' -> swaps a b d d' -> swaps a' b' d d'.
Proof.
  intros Ha Hb. induction 1 as [|d d' i j Hi Hj _ IH]; [apply swaps_refl|].
  apply (swaps_step A a' b' d _ i j); [lia|lia|exact IH].
Qed.

Lemma swaps_length (a b : Z) (d d' : list A) :
  swaps a b d d' -> List.length d' = List.length d.
Proof.
  induction 1 as [|d d' i j _ _ _ IH]; auto. now rewrite IH, length_Swap.
Qed.

Lemma swaps_perm (a b : Z) (d d' : list A) : swaps a b d d' -> Permutation d' d.
Proof.
  induction 1 as [|d d' i j _ _ _ IH]; auto.
  eapply perm_trans; [exact IH|apply Swap_perm].
Qed.

Lemma get_Swap_other (d : list A) (i j k : Z) :
  k <> i -> k <> j -> get (Swap d i j) k = get d k.
Proof.
  intros Hi Hj.
  destruct (Z_lt_dec i 0); [now rewrite Swap_out_of_range by lia|].
  destruct (Z_lt_dec j 0); [now rewrite Swap_out_of_range by lia|].
  destruct (Z_lt_dec i (size d)); [|now rewrite Swap_out_of_range by lia].
  destruct (Z_lt_dec j (size d)); [|now rewrite Swap_out_of_range by lia].
  rewrite get_Swap by lia. unfold transpose.
  destruct (Z.eqb_spec k i); [lia|]. destruct (Z.eqb_spec k j); [lia|]. reflexivity.
Qed.

Lemma swaps_outside (a b : Z) (d d' : list A) (k : Z) :
  swaps a b d d' -> k < a \/ b <= k -> get d' k = get d k.
Proof.
  induction 1 as [|d d' i j Hi Hj _ IH]; intros Hk; auto.
  rewrite IH by assumption. apply get_Swap_other; lia.
Qed.

(** A property of all the elements in [[a, b)] survives the exchanges. *)
Lemma swaps_all (a b : Z) (d d' : list A) (P : A -> Prop) :
  swaps a b d d' ->
  (forall k x, a <= k < b -> get d k = Some x -> P x) ->
  (forall k x, a <= k < b -> get d' k = Some x -> P x).
Proof.
  induction 1 as [|d d' i j Hi Hj _ IH]; intros HP; auto.
  apply IH. intros k x Hk Hx.
  destruct (Z_lt_dec i 0); [rewrite Swap_out_of_range in Hx by lia; eauto|].
  destruct (Z_lt_dec j 0); [rewrite Swap_out_of_range in Hx by lia; eauto|].
  destruct (Z_lt_dec i (size d)); [|rewrite Swap_out_of_range in Hx by lia; eauto].
  destruct (Z_lt_dec j (size d)); [|rewrite Swap_out_of_range in Hx by lia; eauto].
  rewrite get_Swap in Hx by lia. unfold transpose in Hx.
  destruct (Z.eqb_spec k i); [eapply (HP j); eauto|].
  destruct (Z.eqb_spec k j); [eapply (HP i); eauto|]. eauto.
Qed.

End SortSlices.

Section SortCorrect.

Variable A : Type.
Variable less : A -> A -> bool.

(** [less] is a strict weak order, as [sort.Interface] asks of [Less]. *)
Hypothesis less_irrefl : forall x, less x x = false.
Hypothesis less_trans :
  forall x y z, less x y = true -> less y z = true -> less x z = true.
Hypothesis less_ntrans :
  forall x y z, less y x = false -> less z y = false -> less z x = false.

Local Abbreviation size d := (Z.of_nat (List.length d)).
Local Abbreviation get := (sort.get A).
Local Abbreviation Swap := (sort.Swap A).
Local Abbreviation Less := (sort.Less A less).
Local Abbreviation swaps := (swaps A).
Local Abbreviation adjacent := (adjacent A less).
Local Abbreviation adjacent_but := (adjacent_but A less).
Local Abbreviation bounded_below := (bounded_below A less).
Local Abbreviation heap_from := (heap_from A less).
Local Abbreviation heap_but := (heap_but A less).

Lemma Less_true_range (d : list A) (i j : Z) :
  Less d i j = true -> 0 <= i < size d /\ 0 <= j < size d.
Proof.
  unfold sort.Less.
  destruct (get d i) as [x|] eqn:Ei; [|discriminate].
  destruct (get d j) as [y|] eqn:Ej; [|discriminate].
  intros _. split; eapply get_some_range; eauto.
Qed.

Lemma Less_irrefl (d : list A) (i : Z) : Less d i i = false.
Proof. unfold sort.Less. destruct (get d i); auto. Qed.

Lemma Less_trans (d : list A) (i j k : Z) :
  Less d i j = true -> Less d j k = true -> Less d i k = true.
Proof.
  unfold sort.Less.
  destruct (get d i), (get d j), (get d k); try discriminate. apply less_trans.
Qed.

Lemma Less_asym (d : list A) (i j : Z) : Less d i j = true -> Less d j i = false.
Proof.
  intros H. destruct (Less d j i) eqn:E; [|reflexivity].
  pose proof (Less_trans _ _ _ _ H E) as H'. now rewrite Less_irrefl in H'.
Qed.

(** [i <= j] and [j <= k] give [i <= k]. *)
Lemma Less_ntrans (d : list A) (i j k : Z) :
  0 <= j < size d ->
  Less d j i = false -> Less d k j = false -> Less d k i = false.
Proof.
  intros Hj. destruct (get_in_range A d j Hj) as [y Hy].
  unfold sort.Less. rewrite Hy.
  destruct (get d i) as [x|]; destruct (get d k) as [z|]; auto.
  apply less_ntrans.
Qed.

(** [i < j] and [j <= k] give [i < k]. *)
Lemma Less_lt_le (d : list A) (i j k : Z) :
  0 <= k < size d ->
  Less d i j = true -> Less d k j = false -> Less d i k = true.
Proof.
  intros Hk Hij Hjk. destruct (Less d i k) eqn:E; [reflexivity|].
  pose proof (Less_true_range _ _ _ Hij) as [Hi Hj].
  pose proof (Less_ntrans d j k i Hk Hjk E) as H. congruence.
Qed.

(** [i <= j] and [j < k] give [i < k]. *)
Lemma Less_le_lt (d : list A) (i j k : Z) :
  0 <= i < size d ->
  Less d j i = false -> Less d j k = true -> Less d i k = true.
Proof.
  intros Hi Hij Hjk. destruct (Less d i k) eqn:E; [reflexivity|].
  pose proof (Less_true_range _ _ _ Hjk) as [Hj Hk].
  pose proof (Less_ntrans d k i j Hi E Hij) as H. congruence.
Qed.

Lemma Less_Swap (d : list A) (i j k l : Z) :
  0 <= i < size d -> 0 <= j < size d ->
  Less (Swap d i j) k l = Less d (transpose i j k) (transpose i j l).
Proof.
  intros Hi Hj. unfold sort.Less. now rewrite !get_Swap by assumption.
Qed.

Lemma Less_Swap_other (d : list A) (i j k l : Z) :
  k <> i -> k <> j -> l <> i -> l <> j ->
  Less (Swap d i j) k l = Less d k l.
Proof.
  intros. unfold sort.Less. now rewrite !get_Swap_other by assumption.
Qed.

Lemma swaps_Less_outside (a b : Z) (d d' : list A) (k l : Z) :
  swaps a b d d' -> k < a \/ b <= k -> l < a \/ b <= l ->
  Less d' k l = Less d k l.
Proof.
  intros H Hk Hl. unfold sort.Less.
  now rewrite (swaps_outside A a b d d' k H Hk), (swaps_outside A a b d d' l H Hl).
Qed.

(** A comparison with an index outside [[a, b)] that holds for every
    index inside survives the exchanges. *)
Lemma swaps_all_Less_l (a b : Z) (d d' : list A) (p : Z) (v : bool) :
  swaps a b d d' -> p < a \/ b <= p ->
  (forall k, a <= k < b -> 0 <= k < size d -> Less d p k = v) ->
  (forall k, a <= k < b -> 0 <= k < size d -> Less d' p k = v).
Proof.
  intros H Hp Hall k Hk Hkr.
  destruct (get_in_range A d' k) as [x Hx];
    [rewrite (swaps_length A a b d d' H); lia|].
  assert (HP : Less d' p k = match get d p with
                             | Some y => less y x | None => false end).
  { unfold sort.Less. now rewrite (swaps_outside A a b d d' p H Hp), Hx. }
  rewrite HP.
  refine (swaps_all A a b d d'
            (fun x => match get d p with Some y => less y x | None => false end = v)
            H _ k x Hk Hx).
  intros k0 x0 Hk0 Hx0. specialize (Hall k0 Hk0 (get_some_range A _ _ _ Hx0)).
  unfold sort.Less in Hall. now rewrite Hx0 in Hall.
Qed.

Lemma swaps_all_Less_r (a b : Z) (d d' : list A) (p : Z) (v : bool) :
  swaps a b d d' -> p < a \/ b <= p -> 0 <= p < size d ->
  (forall k, a <= k < b -> 0 <= k < size d -> Less d k p = v) ->
  (forall k, a <= k < b -> 0 <= k < size d -> Less d' k p = v).
Proof.
  intros H Hp Hpr Hall k Hk Hkr.
  destruct (get_in_range A d' k) as [x Hx];
    [rewrite (swaps_length A a b d d' H); lia|].
  destruct (get_in_range A d p Hpr) as [y Hy].
  assert (HP : Less d' k p = less x y).
  { unfold sort.Less. now rewrite (swaps_outside A a b d d' p H Hp), Hx, Hy. }
  rewrite HP.
  refine (swaps_all A a b d d' (fun x => less x y = v) H _ k x Hk Hx).
  intros k0 x0 Hk0 Hx0. specialize (Hall k0 Hk0 (get_some_range A _ _ _ Hx0)).
  unfold sort.Less in Hall. now rewrite Hx0, Hy in Hall.
Qed.

(* ------------------------------------------------------------------ *)
(** *** [insertionSort] *)

Lemma adjacent_but_adjacent (d : list A) (a b j : Z) :
  adjacent_but d a b j -> (j <= a \/ b <= j \/ Less d j (j - 1) = false) ->
  adjacent d a b.
Proof.
  intros H Hj k Hk1 Hk2.
  destruct (Z.eq_dec (k + 1) j) as [E|E]; [|now apply H].
  destruct Hj as [Hj|[Hj|Hj]]; [lia|lia|].
  subst j. now replace (k + 1 - 1) with k in Hj by lia.
Qed.

(** The element at [j] travels down while it is less than the one before
    it; the pairs around it stay in order. *)
Lemma insertionSort_inner_spec (fuel : nat) :
  forall (d : list A) (a j t : Z),
    0 <= a -> a <= j <= t -> t < size d ->
    j - a <= Z.of_nat fuel ->
    adjacent_but d a (t + 1) j ->
    (a < j -> j < t -> Less d (j + 1) (j - 1) = false) ->
    swaps a (t + 1) d (sort.insertionSort_inner A less fuel d a j)
    /\ adjacent (sort.insertionSort_inner A less fuel d a j) a (t + 1).
Proof.
  induction fuel as [|fuel IH]; intros d a j t Ha Hj Ht Hf Hadj Hbr;
    cbn [sort.insertionSort_inner].
  - split; [apply swaps_refl|].
    apply (adjacent_but_adjacent d a (t + 1) j Hadj). lia.
  - destruct ((a <? j) && Less d j (j - 1)) eqn:Hc.
    + apply andb_prop in Hc as [Hc1 Hc2].
      assert (Hlt : a < j) by lia.
      destruct (IH (Swap d j (j - 1)) a (j - 1) t) as [IH1 IH2];
        try lia.
      * rewrite length_Swap. lia.
      * intros k Hk1 Hk2 Hk3.
        rewrite Less_Swap by lia. unfold transpose.
        destruct (Z.eqb_spec (k + 1) j) as [E1|E1].
        { destruct (Z.eqb_spec k j); [lia|].
          destruct (Z.eqb_spec k (j - 1)); [|lia].
          now apply Less_asym. }
        destruct (Z.eqb_spec (k + 1) (j - 1)); [lia|].
        destruct (Z.eqb_spec k j) as [E2|E2].
        { subst k. apply Hbr; lia. }
        destruct (Z.eqb_spec k (j - 1)); [lia|].
        apply Hadj; lia.
      * intros H1 H2.
        rewrite Less_Swap by lia. unfold transpose.
        replace (j - 1 + 1) with j by lia.
        rewrite Z.eqb_refl.
        destruct (Z.eqb_spec (j - 1 - 1) j); [lia|].
        destruct (Z.eqb_spec (j - 1 - 1) (j - 1)); [lia|].
        replace (j - 1) with (j - 1 - 1 + 1) at 1 by lia.
        apply Hadj; lia.
      * split; [|exact IH2].
        eapply swaps_trans; [|exact IH1]. apply swaps_one; lia.
    + split; [apply swaps_refl|].
      apply (adjacent_but_adjacent d a (t + 1) j Hadj).
      apply andb_false_iff in Hc as [Hc|Hc]; [left; lia|right; right; exact Hc].
Qed.

Lemma insertionSort_outer_spec (fuel : nat) :
  forall (d : list A) (a b i : Z),
    0 <= a -> a < i -> b <= size d ->
    b - i <= Z.of_nat fuel ->
    adjacent d a i ->
    swaps a b d (sort.insertionSort_outer A less fuel d a b i)
    /\ adjacent (sort.insertionSort_outer A less fuel d a b i) a (Z.max i b).
Proof.
  induction fuel as [|fuel IH]; intros d a b i Ha Hi Hb Hf Hadj;
    cbn [sort.insertionSort_outer].
  - split; [apply swaps_refl|]. now replace (Z.max i b) with i by lia.
  - destruct (i <? b) eqn:Hc.
    + destruct (insertionSort_inner_spec (Z.to_nat (i - a)) d a i i) as [H1 H2];
        try lia.
      * intros k Hk1 Hk2 Hk3. apply Hadj; lia.
      * destruct (IH (sort.insertionSort_inner A less (Z.to_nat (i - a)) d a i)
                     a b (i + 1)) as [H3 H4]; try lia.
        -- rewrite (swaps_length A _ _ _ _ H1). lia.
        -- exact H2.
        -- split.
           ++ eapply swaps_trans; [|exact H3].
              eapply swaps_mono; [| |exact H1]; lia.
           ++ now replace (Z.max i b) with (Z.max (i + 1) b) by lia.
    + split; [apply swaps_refl|]. now replace (Z.max i b) with i by lia.
Qed.

Lemma insertionSort_spec (d : list A) (a b : Z) :
  0 <= a -> b <= size d ->
  swaps a b d (sort.insertionSort A less d a b)
  /\ adjacent (sort.insertionSort A less d a b) a b.
Proof.
  intros Ha Hb. unfold sort.insertionSort.
  destruct (insertionSort_outer_spec (Z.to_nat (b - a)) d a b (a + 1)) as [H1 H2];
    try lia.
  - intros k Hk1 Hk2. lia.
  - split; [exact H1|].
    intros k Hk1 Hk2. apply H2; lia.
Qed.

(* ------------------------------------------------------------------ *)
(** *** The scans, [partition] and [partitionEqual] *)

Lemma scan_up_spec (test : Z -> bool) (fuel : nat) :
  forall i j,
    j - i + 1 <= Z.of_nat fuel ->
    let i' := sort.scan_up fuel test i j in
    i <= i' /\ i' <= Z.max i (j + 1)
    /\ (forall k, i <= k < i' -> test k = true)
    /\ (i' <= j -> test i' = false).
Proof.
  induction fuel as [|fuel IH]; intros i j Hf; cbn [sort.scan_up].
  - repeat split; try lia.
  - destruct ((i <=? j) && test i) eqn:Hc.
    + apply andb_prop in Hc as [Hc1 Hc2].
      destruct (IH (i + 1) j ltac:(lia)) as (H1 & H2 & H3 & H4).
      repeat split; try lia; auto.
      intros k Hk. destruct (Z.eq_dec k i) as [->|]; [exact Hc2|].
      apply H3. lia.
    + repeat split; try lia.
      intros Hij. apply andb_false_iff in Hc as [Hc|Hc]; [lia|exact Hc].
Qed.

Lemma scan_down_spec (test : Z -> bool) (fuel : nat) :
  forall i j,
    j - i + 1 <= Z.of_nat fuel ->
    let j' := sort.scan_down fuel test i j in
    j' <= j /\ Z.min j (i - 1) <= j'
    /\ (forall k, j' < k <= j -> test k = true)
    /\ (i <= j' -> test j' = false).
Proof.
  induction fuel as [|fuel IH]; intros i j Hf; cbn [sort.scan_down].
  - repeat split; try lia.
  - destruct ((i <=? j) && test j) eqn:Hc.
    + apply andb_prop in Hc as [Hc1 Hc2].
      destruct (IH i (j - 1) ltac:(lia)) as (H1 & H2 & H3 & H4).
      repeat split; try lia; auto.
      intros k Hk. destruct (Z.eq_dec k j) as [->|]; [exact Hc2|].
      apply H3. lia.
    + repeat split; try lia.
      intros Hij. apply andb_false_iff in Hc as [Hc|Hc]; [lia|exact Hc].
Qed.

(** The last step of [partition]: the pivot, kept at [a], goes to [j]. *)
Lemma pivot_to_place (d : list A) (a b j : Z) :
  0 <= a -> a <= j < b -> b <= size d ->
  (forall k, a < k <= j -> Less d k a = true) ->
  (forall k, j < k < b -> Less d k a = false) ->
  (forall k, a <= k < j -> Less (Swap d j a) k j = true)
  /\ (forall k, j < k < b -> Less (Swap d j a) k j = false).
Proof.
  intros Ha Hj Hb Hlow Hhigh. split; intros k Hk.
  - rewrite Less_Swap by lia. unfold transpose.
    rewrite Z.eqb_refl.
    destruct (Z.eqb_spec k j); [lia|].
    destruct (Z.eqb_spec k a) as [->|]; apply Hlow; lia.
  - rewrite Less_Swap by lia. unfold transpose.
    rewrite Z.eqb_refl.
    destruct (Z.eqb_spec k j); [lia|].
    destruct (Z.eqb_spec k a); [lia|]. apply Hhigh; lia.
Qed.

Lemma partition_loop_spec (fuel : nat) :
  forall (d : list A) (a b i j : Z),
    0 <= a -> a < i -> j < b -> b <= size d -> i <= j + 1 ->
    j - i + 2 <= Z.of_nat fuel ->
    (forall k, a < k < i -> Less d k a = true) ->
    (forall k, j < k < b -> Less d k a = false) ->
    let '(d', j') := sort.partition_loop A less fuel d a i j in
    swaps (a + 1) b d d' /\ a <= j' < b
    /\ (forall k, a < k <= j' -> Less d' k a = true)
    /\ (forall k, j' < k < b -> Less d' k a = false).
Proof.
  induction fuel as [|fuel IH]; intros d a b i j Ha Hi Hj Hb Hij Hf Hlow Hhigh;
    cbn [sort.partition_loop]; [lia|].
  pose proof (scan_up_spec (fun i => Less d i a) (S (Z.to_nat (j - i))) i j
                ltac:(lia)) as (U1 & U2 & U3 & U4).
  set (i' := sort.scan_up (S (Z.to_nat (j - i))) (fun i => Less d i a) i j) in *.
  pose proof (scan_down_spec (fun j => negb (Less d j a)) (S (Z.to_nat (j - i'))) i' j
                ltac:(lia)) as (D1 & D2 & D3 & D4).
  set (j' := sort.scan_down (S (Z.to_nat (j - i')))
                            (fun j => negb (Less d j a)) i' j) in *.
  destruct (j' <? i') eqn:Hc.
  - split; [apply swaps_refl|]. split; [lia|]. split; intros k Hk.
    + destruct (Z_lt_dec k i); [apply Hlow; lia|apply U3; lia].
    + destruct (Z_le_dec k j); [|apply Hhigh; lia].
      specialize (D3 k ltac:(lia)). now apply negb_true_iff in D3.
  - assert (Hle : i' <= j') by lia.
    specialize (U4 ltac:(lia)). specialize (D4 Hle).
    apply negb_false_iff in D4.
    assert (Hne : i' <> j') by (intros E; rewrite E in U4; congruence).
    specialize (IH (Swap d i' j') a b (i' + 1) (j' - 1)).
    destruct (sort.partition_loop A less fuel (Swap d i' j') a (i' + 1) (j' - 1))
      as [d2 j2].
    destruct IH as (S1 & S2 & S3 & S4); try lia.
    + rewrite length_Swap. lia.
    + intros k Hk. rewrite Less_Swap by lia. unfold transpose.
      destruct (Z.eqb_spec a i'); [lia|]. destruct (Z.eqb_spec a j'); [lia|].
      destruct (Z.eqb_spec k i'); [exact D4|].
      destruct (Z.eqb_spec k j'); [lia|].
      destruct (Z_lt_dec k i); [apply Hlow; lia|apply U3; lia].
    + intros k Hk. rewrite Less_Swap by lia. unfold transpose.
      destruct (Z.eqb_spec a i'); [lia|]. destruct (Z.eqb_spec a j'); [lia|].
      destruct (Z.eqb_spec k i'); [lia|].
      destruct (Z.eqb_spec k j'); [exact U4|].
      destruct (Z_le_dec k j); [|apply Hhigh; lia].
      specialize (D3 k ltac:(lia)). now apply negb_true_iff in D3.
    + split; [|auto].
      eapply swaps_trans; [|exact S1]. apply swaps_one; lia.
Qed.

(** [partition]: the pivot ends at [mid], with the smaller elements
    before it and none of them after it. *)
Lemma partition_spec (d : list A) (a b pivot : Z) :
  0 <= a -> a <= pivot < b -> b <= size d ->
  let '(d', mid, _) := sort.partition A less d a b pivot in
  swaps a b d d' /\ a <= mid < b
  /\ (forall k, a <= k < mid -> Less d' k mid = true)
  /\ (forall k, mid < k < b -> Less d' k mid = false).
Proof.
  intros Ha Hp Hb. unfold sort.partition.
  set (d1 := Swap d a pivot).
  assert (Hs1 : swaps a b d d1) by (apply swaps_one; lia).
  assert (Hl1 : List.length d1 = List.length d) by apply length_Swap.
  pose proof (scan_up_spec (fun i => Less d1 i a)
                (S (Z.to_nat (b - 1 - (a + 1)))) (a + 1) (b - 1) ltac:(lia))
    as (U1 & U2 & U3 & U4).
  set (i' := sort.scan_up _ (fun i => Less d1 i a) (a + 1) (b - 1)) in *.
  pose proof (scan_down_spec (fun j => negb (Less d1 j a))
                (S (Z.to_nat (b - 1 - i'))) i' (b - 1) ltac:(lia))
    as (D1 & D2 & D3 & D4).
  set (j' := sort.scan_down _ (fun j => negb (Less d1 j a)) i' (b - 1)) in *.
  destruct (j' <? i') eqn:Hc.
  - destruct (pivot_to_place d1 a b j') as [P1 P2]; try lia.
    + intros k Hk. apply U3. lia.
    + intros k Hk. specialize (D3 k ltac:(lia)). now apply negb_true_iff in D3.
    + split; [|split; [lia|split; assumption]].
      eapply swaps_trans; [exact Hs1|]. apply swaps_one; lia.
  - assert (Hle : i' <= j') by lia.
    specialize (U4 ltac:(lia)). specialize (D4 Hle).
    apply negb_false_iff in D4.
    assert (Hne : i' <> j') by (intros E; rewrite E in U4; congruence).
    pose proof (partition_loop_spec (Z.to_nat (b - a)) (Swap d1 i' j') a b
                  (i' + 1) (j' - 1)) as HL.
    destruct (sort.partition_loop A less (Z.to_nat (b - a)) (Swap d1 i' j') a
                                  (i' + 1) (j' - 1)) as [d2 j2].
    destruct HL as (S1 & S2 & S3 & S4); try lia.
    + rewrite length_Swap. lia.
    + intros k Hk. rewrite Less_Swap by lia. unfold transpose.
      destruct (Z.eqb_spec a i'); [lia|]. destruct (Z.eqb_spec a j'); [lia|].
      destruct (Z.eqb_spec k i'); [exact D4|].
      destruct (Z.eqb_spec k j'); [lia|]. apply U3. lia.
    + intros k Hk. rewrite Less_Swap by lia. unfold transpose.
      destruct (Z.eqb_spec a i'); [lia|]. destruct (Z.eqb_spec a j'); [lia|].
      destruct (Z.eqb_spec k i'); [lia|].
      destruct (Z.eqb_spec k j'); [exact U4|].
      specialize (D3 k ltac:(lia)). now apply negb_true_iff in D3.
    + pose proof (swaps_length A _ _ _ _ S1) as Hl2. rewrite length_Swap in Hl2.
      destruct (pivot_to_place d2 a b j2) as [P1 P2]; try lia; auto.
      split; [|split; [lia|split; assumption]].
      apply (swaps_trans A a b d d1); [exact Hs1|].
      apply (swaps_trans A a b d1 (Swap d1 i' j')); [apply swaps_one; lia|].
      apply (swaps_trans A a b _ d2);
        [apply (swaps_mono A (a + 1) b a b); [lia|lia|exact S1]|].
      apply swaps_one; lia.
Qed.

Lemma partitionEqual_loop_spec (fuel : nat) :
  forall (d : list A) (a b i j : Z),
    0 <= a -> a < i -> j < b -> b <= size d -> i <= j + 1 ->
    j - i + 2 <= Z.of_nat fuel ->
    (forall k, a < k < i -> Less d a k = false) ->
    (forall k, j < k < b -> Less d a k = true) ->
    let '(d', i') := sort.partitionEqual_loop A less fuel d a i j in
    swaps (a + 1) b d d' /\ a < i' <= b
    /\ (forall k, a < k < i' -> Less d' a k = false)
    /\ (forall k, i' <= k < b -> Less d' a k = true).
Proof.
  induction fuel as [|fuel IH]; intros d a b i j Ha Hi Hj Hb Hij Hf Hlow Hhigh;
    cbn [sort.partitionEqual_loop]; [lia|].
  pose proof (scan_up_spec (fun i => negb (Less d a i)) (S (Z.to_nat (j - i))) i j
                ltac:(lia)) as (U1 & U2 & U3 & U4).
  set (i' := sort.scan_up (S (Z.to_nat (j - i))) (fun i => negb (Less d a i)) i j) in *.
  pose proof (scan_down_spec (fun j => Less d a j) (S (Z.to_nat (j - i'))) i' j
                ltac:(lia)) as (D1 & D2 & D3 & D4).
  set (j' := sort.scan_down (S (Z.to_nat (j - i'))) (fun j => Less d a j) i' j) in *.
  destruct (j' <? i') eqn:Hc.
  - split; [apply swaps_refl|]. split; [lia|]. split; intros k Hk.
    + destruct (Z_lt_dec k i); [apply Hlow; lia|].
      specialize (U3 k ltac:(lia)). now apply negb_true_iff in U3.
    + destruct (Z_le_dec k j); [apply D3; lia|apply Hhigh; lia].
  - assert (Hle : i' <= j') by lia.
    specialize (U4 ltac:(lia)). specialize (D4 Hle).
    apply negb_false_iff in U4.
    assert (Hne : i' <> j') by (intros E; rewrite E in U4; congruence).
    specialize (IH (Swap d i' j') a b (i' + 1) (j' - 1)).
    destruct (sort.partitionEqual_loop A less fuel (Swap d i' j') a (i' + 1) (j' - 1))
      as [d2 i2].
    destruct IH as (S1 & S2 & S3 & S4); try lia.
    + rewrite length_Swap. lia.
    + intros k Hk. rewrite Less_Swap by lia. unfold transpose.
      destruct (Z.eqb_spec a i'); [lia|]. destruct (Z.eqb_spec a j'); [lia|].
      destruct (Z.eqb_spec k i'); [exact D4|].
      destruct (Z.eqb_spec k j'); [lia|].
      destruct (Z_lt_dec k i); [apply Hlow; lia|].
      specialize (U3 k ltac:(lia)). now apply negb_true_iff in U3.
    + intros k Hk. rewrite Less_Swap by lia. unfold transpose.
      destruct (Z.eqb_spec a i'); [lia|]. destruct (Z.eqb_spec a j'); [lia|].
      destruct (Z.eqb_spec k i'); [lia|].
      destruct (Z.eqb_spec k j'); [exact U4|].
      destruct (Z_le_dec k j); [apply D3; lia|apply Hhigh; lia].
    + split; [|auto].
      eapply swaps_trans; [|exact S1]. apply swaps_one; lia.
Qed.

(** [partitionEqual]: the elements not greater than the pivot come first,
    the greater ones from [mid] on. *)
Lemma partitionEqual_spec (d : list A) (a b pivot : Z) :
  0 <= a -> a <= pivot < b -> b <= size d ->
  let '(d', mid) := sort.partitionEqual A less d a b pivot in
  swaps a b d d' /\ a < mid <= b
  /\ get d' a = get d pivot
  /\ (forall k, a <= k < mid -> Less d' a k = false)
  /\ (forall k, mid <= k < b -> Less d' a k = true).
Proof.
  intros Ha Hp Hb. unfold sort.partitionEqual.
  set (d1 := Swap d a pivot).
  assert (Hs1 : swaps a b d d1) by (apply swaps_one; lia).
  assert (Hl1 : List.length d1 = List.length d) by apply length_Swap.
  pose proof (partitionEqual_loop_spec (S (Z.to_nat (b - a))) d1 a b (a + 1) (b - 1))
    as HL.
  destruct (sort.partitionEqual_loop A less (S (Z.to_nat (b - a))) d1 a (a + 1) (b - 1))
    as [d2 i2].
  destruct HL as (S1 & S2 & S3 & S4); try lia.
  split; [|split; [lia|split; [|split]]].
  - eapply swaps_trans; [exact Hs1|]. eapply swaps_mono; [| |exact S1]; lia.
  - rewrite (swaps_outside A _ _ _ _ a S1) by lia.
    unfold d1. rewrite get_Swap by lia. unfold transpose. now rewrite Z.eqb_refl.
  - intros k Hk. destruct (Z.eq_dec k a) as [->|]; [apply Less_irrefl|].
    apply S3. lia.
  - exact S4.
Qed.

(* ------------------------------------------------------------------ *)
(** *** [choosePivot], [reverseRange] and [breakPatterns] *)

Lemma order2_cases (d : list A) (x y s : Z) :
  let '(x', y', _) := sort.order2 A less d x y s in
  (x' = x /\ y' = y) \/ (x' = y /\ y' = x).
Proof. unfold sort.order2. destruct (Less d y x); auto. Qed.

Lemma median_cases (d : list A) (x y z s : Z) :
  let '(m, _) := sort.median A less d x y z s in m = x \/ m = y \/ m = z.
Proof.
  unfold sort.median.
  pose proof (order2_cases d x y s) as H1.
  destruct (sort.order2 A less d x y s) as [[x1 y1] s1].
  pose proof (order2_cases d y1 z s1) as H2.
  destruct (sort.order2 A less d y1 z s1) as [[y2 z2] s2].
  pose proof (order2_cases d x1 y2 s2) as H3.
  destruct (sort.order2 A less d x1 y2 s2) as [[x3 y3] s3].
  lia.
Qed.

Lemma choosePivot_range (d : list A) (a b : Z) :
  8 <= b - a ->
  let '(pivot, _) := sort.choosePivot A less d a b in a <= pivot < b.
Proof.
  intros Hl. unfold sort.choosePivot.
  rewrite Z.quot_div_nonneg by lia.
  set (q := (b - a) / 4).
  assert (Hq : 2 <= q /\ 4 * q <= b - a) by (subst q; Z.div_mod_to_equations; lia).
  replace (8 <=? b - a) with true by lia.
  assert (Hfin : forall (j s : Z), a <= j < b ->
            let '(p, _) := (if s =? 0 then (j, sort.increasingHint)
                            else if s =? 4 * 3 then (j, sort.decreasingHint)
                            else (j, sort.unknownHint)) in a <= p < b).
  { intros j s Hj. destruct (s =? 0); [exact Hj|]. destruct (s =? 4 * 3); exact Hj. }
  destruct (50 <=? b - a) eqn:H50.
  - unfold sort.medianAdjacent.
    pose proof (median_cases d (a + q * 1 - 1) (a + q * 1) (a + q * 1 + 1) 0) as M1.
    destruct (sort.median A less d (a + q * 1 - 1) (a + q * 1) (a + q * 1 + 1) 0)
      as [i s1].
    pose proof (median_cases d (a + q * 2 - 1) (a + q * 2) (a + q * 2 + 1) s1) as M2.
    destruct (sort.median A less d (a + q * 2 - 1) (a + q * 2) (a + q * 2 + 1) s1)
      as [j s2].
    pose proof (median_cases d (a + q * 3 - 1) (a + q * 3) (a + q * 3 + 1) s2) as M3.
    destruct (sort.median A less d (a + q * 3 - 1) (a + q * 3) (a + q * 3 + 1) s2)
      as [k s3].
    pose proof (median_cases d i j k s3) as M4.
    destruct (sort.median A less d i j k s3) as [m s4].
    apply Hfin. lia.
  - pose proof (median_cases d (a + q * 1) (a + q * 2) (a + q * 3) 0) as M4.
    destruct (sort.median A less d (a + q * 1) (a + q * 2) (a + q * 3) 0) as [m s4].
    apply Hfin. lia.
Qed.

Lemma reverseRange_loop_swaps (a b : Z) (fuel : nat) :
  forall (d : list A) (i j : Z),
    a <= i -> j < b -> swaps a b d (sort.reverseRange_loop A fuel d i j).
Proof.
  induction fuel as [|fuel IH]; intros d i j Hi Hj; cbn [sort.reverseRange_loop].
  - apply swaps_refl.
  - destruct (i <? j) eqn:Hc; [|apply swaps_refl].
    apply (swaps_trans A a b d (Swap d i j)); [apply swaps_one; lia|].
    apply IH; lia.
Qed.

Lemma reverseRange_swaps (d : list A) (a b : Z) :
  swaps a b d (sort.reverseRange A d a b).
Proof. apply reverseRange_loop_swaps; lia. Qed.

Lemma nextPowerOfTwo_bounds (l : Z) :
  0 < l ->
  exists n, 0 <= n /\ sort.nextPowerOfTwo l = 2 ^ n /\ l < 2 ^ n <= 2 * l.
Proof.
  intros Hl. unfold sort.nextPowerOfTwo, sort.bits_Len.
  replace (l <=? 0) with false by lia.
  pose proof (Z.log2_nonneg l) as Hn.
  exists (Z.log2 l + 1). split; [lia|].
  rewrite Z.shiftl_mul_pow2, Z.mul_1_l by lia. split; [reflexivity|].
  pose proof (Z.log2_spec l Hl) as [H1 H2].
  replace (Z.succ (Z.log2 l)) with (Z.log2 l + 1) in H2 by lia.
  split; [exact H2|].
  rewrite Z.pow_add_r by lia. lia.
Qed.

Lemma breakPatterns_loop_swaps (a b : Z) (n : nat) :
  forall (d : list A) (length idx modulus random i : Z),
    length = b - a -> 0 < length ->
    (exists m, 0 <= m /\ modulus = 2 ^ m /\ 2 ^ m <= 2 * length) ->
    a <= idx - 1 + i -> idx - 1 + i + Z.of_nat n <= b ->
    swaps a b d (sort.breakPatterns_loop A n d a length idx modulus random i).
Proof.
  induction n as [|n IH]; intros d length idx modulus random i Hlen Hpos Hm Hlo Hhi;
    cbn [sort.breakPatterns_loop].
  - apply swaps_refl.
  - set (r := sort.xorshift_Next random).
    set (other := Z.land r (modulus - 1)).
    assert (Hother : 0 <= other < modulus).
    { destruct Hm as (m & Hm0 & -> & _). subst other.
      rewrite land_low_bits by assumption. apply Z.mod_pos_bound. lia. }
    set (other' := if length <=? other then other - length else other).
    assert (Ho' : 0 <= other' < length).
    { destruct Hm as (m & Hm0 & -> & Hm2). subst other'.
      destruct (length <=? other) eqn:E; lia. }
    apply (swaps_trans A a b d (Swap d (idx - 1 + i) (a + other')));
      [apply swaps_one; lia|].
    apply IH; auto; lia.
Qed.

Lemma breakPatterns_swaps (d : list A) (a b : Z) :
  swaps a b d (sort.breakPatterns A d a b).
Proof.
  unfold sort.breakPatterns.
  destruct (8 <=? b - a) eqn:H8; [|apply swaps_refl].
  destruct (nextPowerOfTwo_bounds (b - a) ltac:(lia)) as (m & Hm0 & Hm1 & Hm2).
  rewrite Z.quot_div_nonneg by lia.
  apply breakPatterns_loop_swaps; auto; try lia.
  - exists m. repeat split; auto; lia.
  - Z.div_mod_to_equations. lia.
  - Z.div_mod_to_equations. lia.
Qed.

(* ------------------------------------------------------------------ *)
(** *** [partialInsertionSort] *)

Lemma bounded_below_swaps (a b : Z) (d d' : list A) :
  swaps a b d d' -> bounded_below d a b -> bounded_below d' a b.
Proof.
  intros Hs Hb k Hk.
  destruct (Z_lt_dec (a - 1) 0) as [Hn|Hn].
  { unfold sort.Less.
    rewrite (get_out_of_range A d' (a - 1)) by lia. now destruct (get d' k). }
  destruct (Z_lt_dec k (size d)) as [Hkr|Hkr].
  - destruct (Z_lt_dec (a - 1) (size d)) as [Har|Har]; [|lia].
    apply (swaps_all_Less_r a b d d' (a - 1) false Hs); [lia|lia| |lia|lia].
    intros k0 Hk0 _. now apply Hb.
  - unfold sort.Less. rewrite (get_out_of_range A d' k); auto.
    rewrite (swaps_length A a b d d' Hs). lia.
Qed.

Lemma shift_left_spec (fuel : nat) :
  forall (d : list A) (a j t : Z),
    0 <= a -> a <= j <= t -> t < size d ->
    j - a <= Z.of_nat fuel ->
    adjacent_but d a (t + 1) j ->
    (a < j -> j < t -> Less d (j + 1) (j - 1) = false) ->
    bounded_below d a (t + 1) ->
    swaps a (t + 1) d (sort.shift_left A less fuel d j)
    /\ adjacent (sort.shift_left A less fuel d j) a (t + 1).
Proof.
  induction fuel as [|fuel IH]; intros d a j t Ha Hj Ht Hf Hadj Hbr Hlb;
    cbn [sort.shift_left].
  - split; [apply swaps_refl|].
    apply (adjacent_but_adjacent d a (t + 1) j Hadj). lia.
  - destruct (1 <=? j) eqn:H1.
    + destruct (Less d j (j - 1)) eqn:Hc; cbn [negb].
      * assert (Hlt : a < j).
        { destruct (Z.eq_dec j a) as [->|]; [|lia].
          rewrite Hlb in Hc by lia. discriminate. }
        destruct (IH (Swap d j (j - 1)) a (j - 1) t) as [IH1 IH2]; try lia.
        -- rewrite length_Swap. lia.
        -- intros k Hk1 Hk2 Hk3.
           rewrite Less_Swap by lia. unfold transpose.
           destruct (Z.eqb_spec (k + 1) j) as [E1|E1].
           { destruct (Z.eqb_spec k j); [lia|].
             destruct (Z.eqb_spec k (j - 1)); [|lia].
             now apply Less_asym. }
           destruct (Z.eqb_spec (k + 1) (j - 1)); [lia|].
           destruct (Z.eqb_spec k j) as [E2|E2].
           { subst k. apply Hbr; lia. }
           destruct (Z.eqb_spec k (j - 1)); [lia|].
           apply Hadj; lia.
        -- intros H2 H3.
           rewrite Less_Swap by lia. unfold transpose.
           replace (j - 1 + 1) with j by lia.
           rewrite Z.eqb_refl.
           destruct (Z.eqb_spec (j - 1 - 1) j); [lia|].
           destruct (Z.eqb_spec (j - 1 - 1) (j - 1)); [lia|].
           replace (j - 1) with (j - 1 - 1 + 1) at 1 by lia.
           apply Hadj; lia.
        -- apply (bounded_below_swaps a (t + 1) d); [apply swaps_one; lia|exact Hlb].
        -- split; [|exact IH2].
           eapply swaps_trans; [|exact IH1]. apply swaps_one; lia.
      * split; [apply swaps_refl|].
        apply (adjacent_but_adjacent d a (t + 1) j Hadj). auto.
    + split; [apply swaps_refl|].
      apply (adjacent_but_adjacent d a (t + 1) j Hadj). lia.
Qed.

Lemma shift_right_swaps (lo b : Z) (fuel : nat) :
  forall (d : list A) (j : Z),
    lo < j -> swaps lo b d (sort.shift_right A less fuel d j b).
Proof.
  induction fuel as [|fuel IH]; intros d j Hj; cbn [sort.shift_right].
  - apply swaps_refl.
  - destruct (j <? b) eqn:Hc; [|apply swaps_refl].
    destruct (negb (Less d j (j - 1))); [apply swaps_refl|].
    apply (swaps_trans A lo b d (Swap d j (j - 1))); [apply swaps_one; lia|].
    apply IH. lia.
Qed.

Lemma adjacent_swaps_above (d d' : list A) (a i b : Z) :
  swaps i b d d' -> adjacent d a i -> adjacent d' a i.
Proof.
  intros Hs Hadj k Hk1 Hk2.
  rewrite (swaps_Less_outside i b d d'); auto; try lia.
Qed.

Lemma partialInsertionSort_loop_spec (steps : nat) :
  forall (d : list A) (a b i : Z),
    0 <= a -> a < i <= b -> b <= size d ->
    adjacent d a i -> bounded_below d a b ->
    let '(d', ok) := sort.partialInsertionSort_loop A less steps d a b i in
    swaps a b d d' /\ (ok = true -> adjacent d' a b).
Proof.
  induction steps as [|steps IH]; intros d a b i Ha Hi Hb Hadj Hlb;
    cbn [sort.partialInsertionSort_loop].
  - split; [apply swaps_refl|discriminate].
  - pose proof (scan_up_spec (fun i => negb (Less d i (i - 1)))
                  (S (Z.to_nat (b - i))) i (b - 1) ltac:(lia))
      as (U1 & U2 & U3 & U4).
    set (i' := sort.scan_up (S (Z.to_nat (b - i)))
                            (fun i => negb (Less d i (i - 1))) i (b - 1)) in *.
    assert (Hadj' : adjacent d a i').
    { intros k Hk1 Hk2. destruct (Z_lt_dec (k + 1) i); [apply Hadj; lia|].
      specialize (U3 (k + 1) ltac:(lia)). apply negb_true_iff in U3.
      now replace (k + 1 - 1) with k in U3 by lia. }
    destruct (i' =? b) eqn:Eb.
    { split; [apply swaps_refl|]. intros _.
      now replace b with i' by lia. }
    destruct (b - a <? 50); [split; [apply swaps_refl|discriminate]|].
    assert (Hi' : i' < b) by lia.
    specialize (U4 ltac:(lia)). apply negb_false_iff in U4.
    set (d1 := Swap d i' (i' - 1)).
    assert (Hs1 : swaps a b d d1) by (apply swaps_one; lia).
    assert (Hl1 : List.length d1 = List.length d) by apply length_Swap.
    assert (Hlb1 : bounded_below d1 a b)
      by (apply (bounded_below_swaps a b d); assumption).
    set (d2 := if 2 <=? i' - a
               then sort.shift_left A less (Z.to_nat i') d1 (i' - 1) else d1).
    assert (H2 : swaps a b d1 d2 /\ adjacent d2 a i').
    { assert (Hab : adjacent_but d1 a (i' + 1) (i' - 1)).
      { intros k Hk1 Hk2 Hk3. unfold d1.
        rewrite Less_Swap by lia. unfold transpose.
        destruct (Z.eqb_spec (k + 1) i') as [E1|E1].
        { destruct (Z.eqb_spec k i'); [lia|].
          destruct (Z.eqb_spec k (i' - 1)); [|lia]. now apply Less_asym. }
        destruct (Z.eqb_spec (k + 1) (i' - 1)); [lia|].
        destruct (Z.eqb_spec k i'); [lia|].
        destruct (Z.eqb_spec k (i' - 1)); [lia|].
        apply Hadj'; lia. }
      subst d2. destruct (2 <=? i' - a) eqn:E2.
      - destruct (shift_left_spec (Z.to_nat i') d1 a (i' - 1) i') as [L1 L2];
          try lia; auto.
        + intros H3 H4. unfold d1.
          rewrite Less_Swap by lia. unfold transpose.
          replace (i' - 1 + 1) with i' by lia. rewrite Z.eqb_refl.
          destruct (Z.eqb_spec (i' - 1 - 1) i'); [lia|].
          destruct (Z.eqb_spec (i' - 1 - 1) (i' - 1)); [lia|].
          replace (i' - 1) with (i' - 1 - 1 + 1) at 1 by lia.
          apply Hadj'; lia.
        + intros k Hk. apply Hlb1. lia.
        + split.
          * eapply swaps_mono; [| |exact L1]; lia.
          * intros k Hk1 Hk2. apply L2; lia.
      - split; [apply swaps_refl|].
        intros k Hk1 Hk2.
        apply (adjacent_but_adjacent d1 a (i' + 1) (i' - 1) Hab); lia. }
    destruct H2 as [Hs2 Hadj2].
    set (d3 := if 2 <=? b - i'
               then sort.shift_right A less (Z.to_nat (b - i')) d2 (i' + 1) b else d2).
    assert (H3 : swaps i' b d2 d3).
    { subst d3. destruct (2 <=? b - i'); [|apply swaps_refl].
      apply shift_right_swaps. lia. }
    assert (Hs3 : swaps a b d d3).
    { apply (swaps_trans A a b d d1); [exact Hs1|].
      apply (swaps_trans A a b d1 d2); [exact Hs2|].
      apply (swaps_mono A i' b a b); [lia|lia|exact H3]. }
    specialize (IH d3 a b i').
    destruct (sort.partialInsertionSort_loop A less steps d3 a b i') as [d4 ok].
    destruct IH as [I1 I2]; try lia.
    + rewrite (swaps_length A _ _ _ _ Hs3). lia.
    + apply (adjacent_swaps_above d2 d3 a i' b); assumption.
    + apply (bounded_below_swaps a b d); assumption.
    + split; [|exact I2].
      apply (swaps_trans A a b d d3); assumption.
Qed.

Lemma partialInsertionSort_spec (d : list A) (a b : Z) :
  0 <= a -> a < b -> b <= size d -> bounded_below d a b ->
  let '(d', ok) := sort.partialInsertionSort A less d a b in
  swaps a b d d' /\ (ok = true -> adjacent d' a b).
Proof.
  intros Ha Hab Hb Hlb. unfold sort.partialInsertionSort.
  apply partialInsertionSort_loop_spec; auto; try lia.
  intros k Hk1 Hk2. lia.
Qed.

(* ------------------------------------------------------------------ *)
(** *** [heapSort] *)

Lemma siftDown_loop_spec (fuel : nat) :
  forall (d : list A) (root hi first lo : Z),
    0 <= first -> first + hi <= size d -> 0 <= lo <= root ->
    hi - root <= Z.of_nat fuel ->
    heap_but d first lo hi root ->
    (forall p c, lo <= p -> root = 2 * p + 1 \/ root = 2 * p + 2 ->
                 c = 2 * root + 1 \/ c = 2 * root + 2 -> c < hi ->
                 Less d (first + p) (first + c) = false) ->
    swaps (first + lo) (first + hi) d (sort.siftDown_loop A less fuel d root hi first)
    /\ heap_from (sort.siftDown_loop A less fuel d root hi first) first lo hi.
Proof.
  induction fuel as [|fuel IH]; intros d root hi first lo Hf Hhi Hlo Hfuel Hheap Hgrand;
    cbn [sort.siftDown_loop].
  - split; [apply swaps_refl|].
    intros i c Hi Hc Hch. apply Hheap; auto. lia.
  - destruct (hi <=? 2 * root + 1) eqn:Hleaf.
    { split; [apply swaps_refl|].
      intros i c Hi Hc Hch. apply Hheap; auto. lia. }
    set (child := 2 * root + 1) in *.
    set (child' := if (child + 1 <? hi) && Less d (first + child) (first + child + 1)
                   then child + 1 else child).
    assert (Hsib : forall c, c = 2 * root + 1 \/ c = 2 * root + 2 -> c < hi ->
                             Less d (first + child') (first + c) = false).
    { intros c Hc Hch. subst child'.
      destruct ((child + 1 <? hi) && Less d (first + child) (first + child + 1)) eqn:E.
      - apply andb_prop in E as [E1 E2].
        destruct (Z.eq_dec c (child + 1)) as [->|]; [apply Less_irrefl|].
        replace c with child by lia.
        replace (first + (child + 1)) with (first + child + 1) by lia.
        now apply Less_asym.
      - destruct (Z.eq_dec c child) as [->|]; [apply Less_irrefl|].
        replace c with (child + 1) in * by lia.
        apply andb_false_iff in E as [E|E]; [lia|].
        now replace (first + (child + 1)) with (first + child + 1) by lia. }
    assert (Hch' : (child' = 2 * root + 1 \/ child' = 2 * root + 2) /\ child' < hi).
    { subst child'.
      destruct ((child + 1 <? hi) && Less d (first + child) (first + child + 1)) eqn:E.
      - apply andb_prop in E as [E1 E2]. lia.
      - lia. }
    destruct Hch' as [Hc1 Hc2].
    destruct (Less d (first + root) (first + child')) eqn:Hless; cbn [negb].
    + destruct (IH (Swap d (first + root) (first + child')) child' hi first lo)
        as [I1 I2]; try lia.
      * rewrite length_Swap. lia.
      * intros i c Hi Hne Hc Hch.
        rewrite Less_Swap by lia. unfold transpose.
        destruct (Z.eqb_spec (first + i) (first + root)) as [E1|E1].
        -- assert (i = root) by lia. subst i.
           destruct (Z.eqb_spec (first + c) (first + root)); [lia|].
           destruct (Z.eqb_spec (first + c) (first + child')) as [E2|E2].
           ++ now apply Less_asym.
           ++ now apply Hsib.
        -- destruct (Z.eqb_spec (first + i) (first + child')); [lia|].
           destruct (Z.eqb_spec (first + c) (first + root)) as [E3|E3].
           ++ apply (Hgrand i child'); auto; lia.
           ++ destruct (Z.eqb_spec (first + c) (first + child')); [lia|].
              apply Hheap; auto; lia.
      * intros p c Hp Hpc Hc Hch.
        assert (p = root) by lia. subst p.
        rewrite Less_Swap by lia. unfold transpose.
        rewrite Z.eqb_refl.
        destruct (Z.eqb_spec (first + c) (first + root)); [lia|].
        destruct (Z.eqb_spec (first + c) (first + child')); [lia|].
        apply Hheap; auto; lia.
      * split; [|exact I2].
        eapply swaps_trans; [|exact I1]. apply swaps_one; lia.
    + split; [apply swaps_refl|].
      intros i c Hi Hc Hch.
      destruct (Z.eq_dec i root) as [->|Hne]; [|now apply Hheap].
      destruct (Z.eq_dec c child') as [->|Hcc]; [exact Hless|].
      apply (Less_ntrans d (first + c) (first + child') (first + root)); auto; lia.
Qed.

Lemma siftDown_spec (d : list A) (lo hi first : Z) :
  0 <= first -> first + hi <= size d -> 0 <= lo -> 0 <= hi ->
  heap_from d first (lo + 1) hi ->
  swaps (first + lo) (first + hi) d (sort.siftDown A less d lo hi first)
  /\ heap_from (sort.siftDown A less d lo hi first) first lo hi.
Proof.
  intros Hf Hhi Hlo Hhi0 Hheap. unfold sort.siftDown.
  apply siftDown_loop_spec; [lia|lia|lia|lia| |].
  - intros i c Hi Hne Hc Hch. apply Hheap; auto. lia.
  - intros p c Hp Hpc. lia.
Qed.

Lemma heap_from_swaps_below (d d' : list A) (first lo hi a b : Z) :
  swaps a b d d' -> b <= first + lo ->
  0 <= lo -> heap_from d first lo hi -> heap_from d' first lo hi.
Proof.
  intros Hs Hb Hlo Hheap i c Hi Hc Hch.
  rewrite (swaps_Less_outside a b d d'); auto; try lia.
Qed.

Lemma heapSort_build_spec (hi first : Z) (n : nat) :
  forall d : list A,
    0 <= first -> 0 <= hi -> first + hi <= size d ->
    heap_from d first (Z.of_nat n) hi ->
    swaps first (first + hi) d (sort.heapSort_build A less n d hi first)
    /\ heap_from (sort.heapSort_build A less n d hi first) first 0 hi.
Proof.
  induction n as [|n IH]; intros d Hf Hhi Hsz Hheap; cbn [sort.heapSort_build].
  - split; [apply swaps_refl|exact Hheap].
  - destruct (siftDown_spec d (Z.of_nat n) hi first) as [S1 S2]; try lia.
    { now replace (Z.of_nat n + 1) with (Z.of_nat (S n)) by lia. }
    destruct (IH (sort.siftDown A less d (Z.of_nat n) hi first)) as [I1 I2];
      try lia; auto.
    + rewrite (swaps_length A _ _ _ _ S1). lia.
    + split; [|exact I2].
      eapply swaps_trans; [|exact I1].
      eapply swaps_mono; [| |exact S1]; lia.
Qed.

(** The root of a heap is not less than any of its nodes. *)
Lemma heap_root_max (d : list A) (first hi : Z) :
  0 <= first -> first + hi <= size d ->
  heap_from d first 0 hi ->
  forall k, 0 <= k < hi -> Less d first (first + k) = false.
Proof.
  intros Hf Hsz Hheap.
  assert (H : forall (n : nat) k, k <= Z.of_nat n -> 0 <= k < hi ->
                                  Less d first (first + k) = false).
  { induction n as [|n IH]; intros k Hn Hk.
    - replace k with 0 by lia. rewrite Z.add_0_r. apply Less_irrefl.
    - destruct (Z.eq_dec k 0) as [->|Hk0].
      { rewrite Z.add_0_r. apply Less_irrefl. }
      set (p := (k - 1) / 2).
      assert (Hp : 0 <= p < k /\ (k = 2 * p + 1 \/ k = 2 * p + 2))
        by (subst p; Z.div_mod_to_equations; lia).
      apply (Less_ntrans d (first + k) (first + p) first); [lia| |].
      + apply Hheap; lia.
      + apply IH; lia. }
  intros k Hk. apply (H (Z.to_nat k)); lia.
Qed.

Lemma heapSort_pop_spec (hi first : Z) (n : nat) :
  forall d : list A,
    0 <= first -> Z.of_nat n <= hi -> first + hi <= size d ->
    heap_from d first 0 (Z.of_nat n) ->
    adjacent d (first + Z.of_nat n) (first + hi) ->
    (Z.of_nat n < hi ->
     forall k, 0 <= k < Z.of_nat n ->
               Less d (first + Z.of_nat n) (first + k) = false) ->
    swaps first (first + hi) d (sort.heapSort_pop A less n d 0 first)
    /\ adjacent (sort.heapSort_pop A less n d 0 first) first (first + hi).
Proof.
  induction n as [|n IH]; intros d Hf Hn Hsz Hheap Hadj Htail;
    cbn [sort.heapSort_pop].
  - split; [apply swaps_refl|].
    now replace (first + Z.of_nat 0) with first in Hadj by lia.
  - set (i := Z.of_nat n).
    assert (Hi : i + 1 = Z.of_nat (S n)) by lia.
    rewrite <- Hi in *.
    set (d1 := Swap d first (first + i)).
    assert (Hl1 : List.length d1 = List.length d) by apply length_Swap.
    pose proof (heap_root_max d first (i + 1) Hf ltac:(lia) Hheap) as Hmax.
    destruct (siftDown_spec d1 0 i first) as [S1 S2]; try lia.
    { intros j c Hj Hc Hch. unfold d1.
      rewrite Less_Swap_other by lia. apply Hheap; lia. }
    set (d2 := sort.siftDown A less d1 0 i first) in *.
    replace (first + 0) with first in S1 by lia.
    assert (Hl2 : List.length d2 = List.length d)
      by (rewrite (swaps_length A _ _ _ _ S1); exact Hl1).
    destruct (IH d2) as [I1 I2]; try lia; auto.
    + (* the tail stays in order *)
      intros k Hk1 Hk2.
      rewrite (swaps_Less_outside first (first + i) d1 d2); auto; try lia.
      unfold d1. rewrite Less_Swap by lia.
      assert (T1 : transpose first (first + i) (k + 1) = k + 1).
      { unfold transpose. destruct (Z.eqb_spec (k + 1) first); [lia|].
        destruct (Z.eqb_spec (k + 1) (first + i)); lia. }
      assert (T2 : transpose first (first + i) k
                   = if k =? first + i then first else k).
      { unfold transpose. destruct (Z.eqb_spec k first);
          destruct (Z.eqb_spec k (first + i)); lia. }
      rewrite T1, T2.
      destruct (Z.eqb_spec k (first + i)) as [E|E].
      * replace (k + 1) with (first + (i + 1)) by lia.
        replace first with (first + 0) at 2 by lia.
        apply Htail; lia.
      * apply Hadj; lia.
    + (* the element moved behind the heap is not less than the heap *)
      intros _ k Hk.
      apply (swaps_all_Less_l first (first + i) d1 d2 (first + i) false S1);
        try lia.
      intros k0 Hk0 _. unfold d1.
      rewrite Less_Swap by lia. unfold transpose.
      destruct (Z.eqb_spec (first + i) first); [lia|].
      rewrite Z.eqb_refl.
      destruct (Z.eqb_spec k0 first) as [->|E].
      * replace (first + i) with (first + i) by lia. apply Hmax. lia.
      * destruct (Z.eqb_spec k0 (first + i)); [lia|].
        replace k0 with (first + (k0 - first)) by lia. apply Hmax. lia.
    + split; [|exact I2].
      apply (swaps_trans A first (first + hi) d d1); [apply swaps_one; lia|].
      apply (swaps_trans A first (first + hi) d1 d2); [|exact I1].
      apply (swaps_mono A first (first + i)); [lia|lia|exact S1].
Qed.

Lemma heapSort_spec (d : list A) (a b : Z) :
  0 <= a -> a <= b -> b <= size d ->
  swaps a b d (sort.heapSort A less d a b)
  /\ adjacent (sort.heapSort A less d a b) a b.
Proof.
  intros Ha Hab Hb. unfold sort.heapSort.
  set (hi := b - a).
  set (n := Z.to_nat (Z.quot (hi - 1) 2 + 1)).
  assert (Hn : hi <= 2 * Z.of_nat n).
  { subst n. destruct (Z.eq_dec hi 0) as [E|E]; [rewrite E; simpl; lia|].
    rewrite Z.quot_div_nonneg by lia.
    assert (0 <= (hi - 1) / 2) by (apply Z.div_pos; lia).
    rewrite Z2Nat.id by lia. Z.div_mod_to_equations. lia. }
  destruct (heapSort_build_spec hi a n d) as [B1 B2]; try lia.
  { intros i c Hi Hc Hch. lia. }
  set (d1 := sort.heapSort_build A less n d hi a) in *.
  assert (Hl1 : List.length d1 = List.length d) by apply (swaps_length A _ _ _ _ B1).
  destruct (heapSort_pop_spec hi a (Z.to_nat hi) d1) as [P1 P2]; try lia.
  - now rewrite Z2Nat.id by lia.
  - intros k Hk1 Hk2. lia.
  - replace (a + hi) with b in * by lia.
    split; [|exact P2].
    apply (swaps_trans A a b d d1); assumption.
Qed.

(* ------------------------------------------------------------------ *)
(** *** [pdqsort] and [Sort] *)

Lemma size_swaps (a b : Z) (d d' : list A) :
  swaps a b d d' -> size d' = size d.
Proof. intros H. now rewrite (swaps_length A a b d d' H). Qed.

Lemma pdqsort_spec (fuel : nat) :
  forall (d : list A) (a b limit : Z) (wasBalanced wasPartitioned : bool),
    0 <= a -> b <= size d -> b - a <= Z.of_nat fuel ->
    bounded_below d a b ->
    swaps a b d (sort.pdqsort A less fuel d a b limit wasBalanced wasPartitioned)
    /\ adjacent (sort.pdqsort A less fuel d a b limit wasBalanced wasPartitioned) a b.
Proof.
  induction fuel as [|fuel IH];
    intros d a b limit wasBalanced wasPartitioned Ha Hb Hfuel Hlb;
    cbn [sort.pdqsort].
  - split; [apply swaps_refl|]. intros k Hk1 Hk2. lia.
  - destruct (b - a <=? 12) eqn:Hlen; [now apply insertionSort_spec|].
    destruct (limit =? 0); [apply heapSort_spec; lia|].
    (* breakPatterns *)
    set (d1 := if wasBalanced then d else sort.breakPatterns A d a b).
    assert (S1 : swaps a b d d1)
      by (subst d1; destruct wasBalanced; [apply swaps_refl|apply breakPatterns_swaps]).
    set (limit1 := if wasBalanced then limit else limit - 1).
    (* choosePivot *)
    pose proof (choosePivot_range d1 a b ltac:(lia)) as Hp.
    destruct (sort.choosePivot A less d1 a b) as [pivot0 hint0].
    set (t2 := match hint0 with
               | sort.decreasingHint =>
                   (sort.reverseRange A d1 a b, b - 1 - (pivot0 - a), sort.increasingHint)
               | _ => (d1, pivot0, hint0)
               end).
    assert (H2 : let '(d2, pivot, _) := t2 in swaps a b d d2 /\ a <= pivot < b).
    { subst t2. destruct hint0; try (split; [exact S1|exact Hp]).
      split; [|lia].
      apply (swaps_trans A a b d d1); [exact S1|apply reverseRange_swaps]. }
    destruct t2 as [[d2 pivot] hint]. destruct H2 as [S2 Hpivot].
    (* partialInsertionSort *)
    set (t3 := match wasBalanced && wasPartitioned, hint with
               | true, sort.increasingHint => sort.partialInsertionSort A less d2 a b
               | _, _ => (d2, false)
               end).
    assert (H3 : let '(d3, sorted) := t3 in
                 swaps a b d d3 /\ (sorted = true -> adjacent d3 a b)).
    { assert (Hdef : let '(d3, sorted) := (d2, false) in
                     swaps a b d d3 /\ (sorted = true -> adjacent d3 a b))
        by (split; [exact S2|discriminate]).
      subst t3. destruct (wasBalanced && wasPartitioned); [|exact Hdef].
      destruct hint; try exact Hdef.
      pose proof (partialInsertionSort_spec d2 a b Ha ltac:(lia)
                    ltac:(rewrite (size_swaps _ _ _ _ S2); lia)
                    (bounded_below_swaps a b d d2 S2 Hlb)) as HP.
      destruct (sort.partialInsertionSort A less d2 a b) as [d3 ok].
      destruct HP as [P1 P2]. split; [|exact P2].
      apply (swaps_trans A a b d d2); assumption. }
    destruct t3 as [d3 sorted]. destruct H3 as [S3 Hsorted].
    destruct sorted; [split; [exact S3|now apply Hsorted]|].
    clear Hsorted.
    pose proof (size_swaps _ _ _ _ S3) as Hsz3.
    pose proof (bounded_below_swaps a b d d3 S3 Hlb) as Hlb3.
    destruct ((0 <? a) && negb (Less d3 (a - 1) pivot)) eqn:Heq.
    + (* partitionEqual *)
      apply andb_prop in Heq as [Ha0 Hnl]. apply negb_true_iff in Hnl.
      pose proof (partitionEqual_spec d3 a b pivot Ha Hpivot ltac:(lia)) as HE.
      destruct (sort.partitionEqual A less d3 a b pivot) as [d4 mid].
      destruct HE as (S4 & Hmid & Hpv & Hle & Hgt).
      pose proof (size_swaps _ _ _ _ S4) as Hsz4.
      pose proof (bounded_below_swaps a b d3 d4 S4 Hlb3) as Hlb4.
      assert (Hpa : Less d4 (a - 1) a = false).
      { unfold sort.Less. rewrite Hpv, (swaps_outside A a b d3 d4 (a - 1) S4) by lia.
        exact Hnl. }
      assert (Hlbm : bounded_below d4 mid b).
      { intros k Hk. apply Less_asym.
        apply (Less_le_lt d4 (mid - 1) a k); [lia| |].
        - apply Hle. lia.
        - apply Hgt. lia. }
      destruct (IH d4 mid b limit1 wasBalanced wasPartitioned) as [I1 I2];
        try lia; auto.
      set (d5 := sort.pdqsort A less fuel d4 mid b limit1 wasBalanced wasPartitioned)
        in *.
      split.
      * apply (swaps_trans A a b d d3); [exact S3|].
        apply (swaps_trans A a b d3 d4); [exact S4|].
        apply (swaps_mono A mid b); [lia|lia|exact I1].
      * intros k Hk1 Hk2.
        destruct (Z_lt_dec (k + 1) mid) as [Hin|Hout].
        -- rewrite (swaps_Less_outside mid b d4 d5 _ _ I1) by lia.
           (* [d4[k] <= pivot <= d4[a-1] <= d4[k+1]] *)
           apply (Less_ntrans d4 k (a - 1) (k + 1)); [lia| |].
           ++ apply (Less_ntrans d4 k a (a - 1)); [lia| |exact Hpa].
              apply Hle. lia.
           ++ apply Hlb4. lia.
        -- destruct (Z.eq_dec (k + 1) mid) as [E|E]; [|apply I2; lia].
           rewrite E. replace k with (mid - 1) by lia.
           apply (bounded_below_swaps mid b d4 d5 I1 Hlbm). lia.
    + (* partition *)
      pose proof (partition_spec d3 a b pivot Ha Hpivot ltac:(lia)) as HP.
      destruct (sort.partition A less d3 a b pivot) as [[d4 mid] alreadyPartitioned].
      destruct HP as (S4 & Hmid & Hlow & Hhigh).
      pose proof (size_swaps _ _ _ _ S4) as Hsz4.
      pose proof (bounded_below_swaps a b d3 d4 S4 Hlb3) as Hlb4.
      assert (Hlbl : bounded_below d4 a mid) by (intros k Hk; apply Hlb4; lia).
      assert (Hlbr : bounded_below d4 (mid + 1) b).
      { intros k Hk. replace (mid + 1 - 1) with mid by lia. apply Hhigh. lia. }
      assert (Sd : swaps a b d d4).
      { apply (swaps_trans A a b d d3); [exact S3|exact S4]. }
      destruct (mid - a <? b - mid).
      * (* the left side first *)
        destruct (IH d4 a mid limit1 true true) as [L1 L2]; try lia; auto.
        set (d5 := sort.pdqsort A less fuel d4 a mid limit1 true true) in *.
        pose proof (size_swaps _ _ _ _ L1) as Hsz5.
        assert (Hlbr5 : bounded_below d5 (mid + 1) b).
        { intros k Hk. rewrite (swaps_Less_outside a mid d4 d5 _ _ L1) by lia.
          now apply Hlbr. }
        destruct (IH d5 (mid + 1) b limit1
                     (Z.quot (b - a) 8 <=? mid - a) alreadyPartitioned)
          as [R1 R2]; try lia; auto.
        set (d6 := sort.pdqsort A less fuel d5 (mid + 1) b limit1
                                (Z.quot (b - a) 8 <=? mid - a) alreadyPartitioned) in *.
        split.
        -- apply (swaps_trans A a b d d4); [exact Sd|].
           apply (swaps_trans A a b d4 d5);
             [apply (swaps_mono A a mid); [lia|lia|exact L1]|].
           apply (swaps_mono A (mid + 1) b); [lia|lia|exact R1].
        -- intros k Hk1 Hk2.
           destruct (Z_lt_dec (k + 1) mid) as [Hl|Hl].
           { rewrite (swaps_Less_outside (mid + 1) b d5 d6 _ _ R1) by lia.
             apply L2; lia. }
           destruct (Z.eq_dec (k + 1) mid) as [E|E].
           { rewrite (swaps_Less_outside (mid + 1) b d5 d6 _ _ R1) by lia.
             rewrite E. apply Less_asym.
             apply (swaps_all_Less_r a mid d4 d5 mid true L1); try lia.
             intros k0 Hk0 _. apply Hlow. lia. }
           destruct (Z.eq_dec k mid) as [E'|E'].
           { subst k. replace mid with (mid + 1 - 1) at 2 by lia.
             apply (bounded_below_swaps (mid + 1) b d5 d6 R1 Hlbr5). lia. }
           apply R2; lia.
      * (* the right side first *)
        destruct (IH d4 (mid + 1) b limit1 true true) as [R1 R2]; try lia; auto.
        set (d5 := sort.pdqsort A less fuel d4 (mid + 1) b limit1 true true) in *.
        pose proof (size_swaps _ _ _ _ R1) as Hsz5.
        assert (Hlbl5 : bounded_below d5 a mid).
        { intros k Hk. rewrite (swaps_Less_outside (mid + 1) b d4 d5 _ _ R1) by lia.
          now apply Hlbl. }
        destruct (IH d5 a mid limit1
                     (Z.quot (b - a) 8 <=? b - mid) alreadyPartitioned)
          as [L1 L2]; try lia; auto.
        set (d6 := sort.pdqsort A less fuel d5 a mid limit1
                                (Z.quot (b - a) 8 <=? b - mid) alreadyPartitioned) in *.
        split.
        -- apply (swaps_trans A a b d d4); [exact Sd|].
           apply (swaps_trans A a b d4 d5);
             [apply (swaps_mono A (mid + 1) b); [lia|lia|exact R1]|].
           apply (swaps_mono A a mid); [lia|lia|exact L1].
        -- intros k Hk1 Hk2.
           destruct (Z_lt_dec (k + 1) mid) as [Hl|Hl]; [apply L2; lia|].
           destruct (Z.eq_dec (k + 1) mid) as [E|E].
           { rewrite E. apply Less_asym.
             apply (swaps_all_Less_r a mid d5 d6 mid true L1); try lia.
             intros k0 Hk0 _.
             rewrite (swaps_Less_outside (mid + 1) b d4 d5 _ _ R1) by lia.
             apply Hlow. lia. }
           rewrite (swaps_Less_outside a mid d5 d6 _ _ L1) by lia.
           destruct (Z.eq_dec k mid) as [E'|E'].
           { subst k. replace mid with (mid + 1 - 1) at 2 by lia.
             apply (bounded_below_swaps (mid + 1) b d4 d5 R1 Hlbr). lia. }
           apply R2; lia.
Qed.

(** [sort.Sort] exchanges elements of the slice until no element is less
    than the one before it. *)
Lemma Sort_spec (d : list A) :
  swaps 0 (size d) d (sort.Sort A less d)
  /\ adjacent (sort.Sort A less d) 0 (size d).
Proof.
  unfold sort.Sort.
  destruct (size d <=? 1) eqn:E.
  - split; [apply swaps_refl|]. intros k Hk1 Hk2. lia.
  - apply pdqsort_spec; try lia.
    intros k Hk. unfold sort.Less.
    rewrite (get_out_of_range A d (0 - 1)) by lia. now destruct (get d k).
Qed.

Lemma get_cons (x : A) (d : list A) (k : Z) :
  0 <= k -> get (x :: d) (k + 1) = get d k.
Proof.
  intros Hk. unfold sort.get.
  replace (k + 1 <? 0) with false by lia. replace (k <? 0) with false by lia.
  replace (Z.to_nat (k + 1)) with (S (Z.to_nat k)) by lia. reflexivity.
Qed.

Lemma adjacent_Sorted (d : list A) :
  adjacent d 0 (size d) -> Sorted (fun x y => less y x = false) d.
Proof.
  induction d as [|x d IH]; intros Hadj; [constructor|].
  constructor.
  - apply IH. intros k Hk1 Hk2.
    specialize (Hadj (k + 1) ltac:(lia) ltac:(cbn [List.length]; lia)).
    unfold sort.Less in *. now rewrite !get_cons in Hadj by lia.
  - destruct d as [|y d]; constructor.
    specialize (Hadj 0 ltac:(lia) ltac:(cbn [List.length]; lia)).
    exact Hadj.
Qed.

(** [sort.Sort] returns a rearrangement of the slice in which no element
    is less than an earlier one. *)
Theorem Sort_sorts (d : list A) :
  Permutation (sort.Sort A less d) d
  /\ StronglySorted (fun x y => less y x = false) (sort.Sort A less d).
Proof.
  destruct (Sort_spec d) as [H1 H2]. split.
  - exact (swaps_perm A _ _ _ _ H1).
  - apply Sorted_StronglySorted.
    + intros x y z Hxy Hyz. exact (less_ntrans x y z Hxy Hyz).
    + apply adjacent_Sorted. now rewrite (size_swaps _ _ _ _ H1).
Qed.

End SortCorrect.

(* ------------------------------------------------------------------ *)
(** ** The order of depot files *)

Lemma string_ltb_irrefl (s : gostring) : string_ltb s s = false.
Proof.
  induction s as [|a s IH]; [reflexivity|]. cbn [string_ltb].
  now rewrite Z.ltb_irrefl.
Qed.

Lemma string_ltb_trans (s t u : gostring) :
  string_ltb s t = true -> string_ltb t u = true -> string_ltb s u = true.
Proof.
  revert t u. induction s as [|a s IH]; intros [|b t] [|c u]; cbn [string_ltb];
    try discriminate; auto.
  destruct (Z.ltb_spec (byteZ a) (byteZ b)), (Z.ltb_spec (byteZ b) (byteZ a)),
    (Z.ltb_spec (byteZ b) (byteZ c)), (Z.ltb_spec (byteZ c) (byteZ b)),
    (Z.ltb_spec (byteZ a) (byteZ c)), (Z.ltb_spec (byteZ c) (byteZ a));
    try discriminate; try lia; auto.
  apply IH.
Qed.

Lemma string_ltb_total (s t : gostring) :
  string_ltb s t = false -> string_ltb t s = false -> s = t.
Proof.
  revert t. induction s as [|a s IH]; intros [|b t]; cbn [string_ltb];
    try discriminate; auto.
  destruct (Z.ltb_spec (byteZ a) (byteZ b)), (Z.ltb_spec (byteZ b) (byteZ a));
    try discriminate; try lia.
  intros H1 H2. f_equal; [apply byteZ_inj; lia|now apply IH].
Qed.

Lemma string_ltb_ntrans (s t u : gostring) :
  string_ltb t s = false -> string_ltb u t = false -> string_ltb u s = false.
Proof.
  intros H1 H2. destruct (string_ltb u s) eqn:E; [|reflexivity].
  destruct (string_ltb s t) eqn:E2.
  - pose proof (string_ltb_trans _ _ _ E E2). congruence.
  - pose proof (string_ltb_total _ _ E2 H1). subst. congruence.
Qed.

(** [DepotFileCaseInsensitive.Less] is a strict weak order. *)
Lemma Less_strict_weak_order (lowerCase : Z -> Z) :
  (forall x, Less lowerCase x x = false)
  /\ (forall x y z, Less lowerCase x y = true -> Less lowerCase y z = true ->
                    Less lowerCase x z = true)
  /\ (forall x y z, Less lowerCase y x = false -> Less lowerCase z y = false ->
                    Less lowerCase z x = false).
Proof.
  unfold Less. split; [|split].
  - intros x. apply string_ltb_irrefl.
  - intros x y z. apply string_ltb_trans.
  - intros x y z. apply string_ltb_ntrans.
Qed.

(* ------------------------------------------------------------------ *)
(** ** [runAndParseDepotFiles]: the records that come back *)

(** One call of the callback: a record is appended to [out] exactly on a
    blank line met while the path of the record in progress is not empty;
    no other line changes [out]. *)
Lemma onLine_out (streamDepth : Z) (st st' : parser) (raw : gostring)
      (err : option error) :
  onLine streamDepth st raw = inr (st', err) ->
  out st' = if (len (strings.TrimSpace raw) =? 0) && negb (len (Path (cur st)) =? 0)
            then out st ++ [cur st] else out st.
Proof.
  unfold onLine.
  destruct (len (strings.TrimSpace raw) =? 0) eqn:Hblank; cbn [andb].
  { intros [= <- _]. cbn [out]. now destruct (negb (len (Path (cur st)) =? 0)). }
  destruct ((len (strings.TrimSpace raw) <? 5)
            || negb (HasPrefix (strings.TrimSpace raw) (go "... "))).
  { now intros [= <- _]. }
  destruct (slice_from (strings.TrimSpace raw) 4) as [p|tag]; [discriminate|].
  unfold assign.
  repeat match goal with
         | |- context [if HasPrefix tag ?t then _ else _] =>
             destruct (HasPrefix tag t)
         | |- context [match slice_from ?l ?n with _ => _ end] =>
             destruct (slice_from l n); [discriminate|]
         | |- context [match (if ?c then _ else _) with _ => _ end] =>
             destruct c
         | |- context [match getDepotPrefix ?l ?n with _ => _ end] =>
             destruct (getDepotPrefix l n)
         end;
    try discriminate; intros [= <- _]; reflexivity.
Qed.

(** Every record the loop has emitted has a path. *)
Lemma scan_loop_out_paths (streamDepth : Z) (ts : list gostring) :
  forall (st st' : parser) (rerr rerr' : option error),
    scan_loop (onLine streamDepth) ts st rerr = inr (st', rerr') ->
    Forall (fun r => Path r <> []) (out st) ->
    Forall (fun r => Path r <> []) (out st').
Proof.
  induction ts as [|t ts IH]; intros st st' rerr rerr'; cbn [scan_loop].
  - now intros [= <- _].
  - destruct (onLine streamDepth st t) as [p|[st1 e]] eqn:Hstep; [discriminate|].
    apply onLine_out in Hstep.
    intros Hl Hall.
    assert (Hall1 : Forall (fun r => Path r <> []) (out st1)).
    { rewrite Hstep.
      destruct ((len (strings.TrimSpace t) =? 0) && negb (len (Path (cur st)) =? 0))
        eqn:E; [|exact Hall].
      apply andb_prop in E as [_ E]. apply negb_true_iff, Z.eqb_neq in E.
      apply Forall_app. split; [exact Hall|]. constructor; [|constructor].
      intros H. apply E. now apply len_0. }
    destruct e; eapply IH; eauto.
Qed.

Section Records.

Variable lowerCase : Z -> Z.
Variable GetClientSpec : M spec.
Variable ParseSpec : gostring -> spec.
Variable sh_Out : World -> gostring -> gostring * option error.
Variable sh_Pipe : World -> gostring -> PipeRun.

(** What a successful call went through. *)
Lemma runAndParseDepotFiles_Ok (c : gostring) (w w' : World) (recs : list DepotFile) :
  runAndParseDepotFiles lowerCase GetClientSpec ParseSpec sh_Out sh_Pipe c w
  = (Ok recs, w') ->
  exists (streamDepth : Z) (w1 : World) (st : parser) (rerr : option error),
    StreamDepth GetClientSpec ParseSpec sh_Out w = (Ok streamDepth, w1)
    /\ scan_loop (onLine streamDepth) (tokens (sh_Pipe w1 c)) parser_zero None
       = inr (st, rerr)
    /\ RunErr (sh_Pipe w1 c) rerr = None
    /\ ScanErr (sh_Pipe w1 c) rerr = None
    /\ recs = sort.Sort DepotFile (Less lowerCase) (out st)
    /\ w' = launch c w1.
Proof.
  unfold runAndParseDepotFiles.
  destruct (negb (Contains c (go "-ztag")) && negb (Contains c (go "-z tag"))
            && negb (Contains c (go "fstat"))); [discriminate|].
  unfold bind at 1.
  destruct (StreamDepth GetClientSpec ParseSpec sh_Out w) as [[depth|e|p] w1];
    try discriminate.
  unfold bind, cmdAndScan. fold parser_zero.
  destruct (scan_loop (onLine depth) (tokens (sh_Pipe w1 c)) parser_zero None)
    as [p|[st rerr]] eqn:Hl; [discriminate|].
  cbn [snd fst].
  destruct (RunErr (sh_Pipe w1 c) rerr) as [e|] eqn:Hr; [discriminate|].
  destruct (ScanErr (sh_Pipe w1 c) rerr) as [e|] eqn:Hs; [discriminate|].
  intros [= <- <-].
  exists depth, w1, st, rerr. repeat split; auto.
Qed.

(** C7: every record that [runAndParseDepotFiles] returns has a non-empty
    [Path]; the callback appends a record to the output only on a blank
    line met while the record in progress has a non-empty [Path]; and the
    result is a rearrangement of the records appended by the end of the
    line stream, so the record still in progress then is not part of it. *)
Theorem runAndParseDepotFiles_emitted
        (c : gostring) (w w' : World) (recs : list DepotFile) :
  runAndParseDepotFiles lowerCase GetClientSpec ParseSpec sh_Out sh_Pipe c w
  = (Ok recs, w') ->
  (forall r, In r recs -> Path r <> [])
  /\ (forall streamDepth st st' raw err,
         onLine streamDepth st raw = inr (st', err) ->
         out st' = if (len (strings.TrimSpace raw) =? 0)
                      && negb (len (Path (cur st)) =? 0)
                   then out st ++ [cur st] else out st)
  /\ (exists streamDepth w1 st rerr,
         StreamDepth GetClientSpec ParseSpec sh_Out w = (Ok streamDepth, w1)
         /\ scan_loop (onLine streamDepth) (tokens (sh_Pipe w1 c)) parser_zero None
            = inr (st, rerr)
         /\ Permutation recs (out st)).
Proof.
  intros Hrun.
  destruct (runAndParseDepotFiles_Ok _ _ _ _ Hrun)
    as (depth & w1 & st & rerr & Hd & Hl & _ & _ & -> & _).
  destruct (Less_strict_weak_order lowerCase) as (O1 & O2 & O3).
  destruct (Sort_sorts DepotFile (Less lowerCase) O1 O2 O3 (out st)) as [Hperm _].
  split; [|split].
  - intros r Hin.
    pose proof (scan_loop_out_paths depth _ _ _ _ _ Hl (Forall_nil _)) as Hall.
    rewrite Forall_forall in Hall. apply Hall.
    eapply Permutation_in; [exact Hperm|exact Hin].
  - intros streamDepth st0 st' raw err. apply onLine_out.
  - exists depth, w1, st, rerr. auto.
Qed.

(** C3, amended: the list that [runAndParseDepotFiles] returns is sorted
    by [Path] under case-insensitive comparison: no record has a folded
    path less than that of a record before it; it is a rearrangement of
    the records in discovery order.  The relative order of records whose
    folded paths are equal is not kept in general. *)
Theorem runAndParseDepotFiles_sorted
        (c : gostring) (w w' : World) (recs : list DepotFile) :
  runAndParseDepotFiles lowerCase GetClientSpec ParseSpec sh_Out sh_Pipe c w
  = (Ok recs, w') ->
  StronglySorted
    (fun x y => string_ltb (folded lowerCase y) (folded lowerCase x) = false) recs
  /\ (exists streamDepth w1 st rerr,
         StreamDepth GetClientSpec ParseSpec sh_Out w = (Ok streamDepth, w1)
         /\ scan_loop (onLine streamDepth) (tokens (sh_Pipe w1 c)) parser_zero None
            = inr (st, rerr)
         /\ Permutation recs (out st)).
Proof.
  intros Hrun.
  destruct (runAndParseDepotFiles_Ok _ _ _ _ Hrun)
    as (depth & w1 & st & rerr & Hd & Hl & _ & _ & -> & _).
  destruct (Less_strict_weak_order lowerCase) as (O1 & O2 & O3).
  destruct (Sort_sorts DepotFile (Less lowerCase) O1 O2 O3 (out st)) as [Hperm Hsorted].
  split; [exact Hsorted|].
  exists depth, w1, st, rerr. auto.
Qed.

End Records.

Lemma runAndParseDepotFiles_emitted_witness :
  let recs := [mkDepotFile (go "a.txt") (go "edit") [] [] []] in
  (forall r, In r recs -> Path r <> [])
  /\ (forall streamDepth st st' raw err,
         onLine streamDepth st raw = inr (st', err) ->
         out st' = if (len (strings.TrimSpace raw) =? 0)
                      && negb (len (Path (cur st)) =? 0)
                   then out st ++ [cur st] else out st)
  /\ (exists streamDepth w1 st rerr,
         StreamDepth example_GetClientSpec example_ParseSpec example_sh_Out
                     example_world = (Ok streamDepth, w1)
         /\ scan_loop (onLine streamDepth)
                      (tokens (example_sh_Pipe example_unfinished w1
                                               (go "p4 fstat //ws/...")))
                      parser_zero None
            = inr (st, rerr)
         /\ Permutation recs (out st)).
Proof.
  intros recs.
  apply (runAndParseDepotFiles_emitted example_lowerCase example_GetClientSpec
           example_ParseSpec example_sh_Out (example_sh_Pipe example_unfinished)
           (go "p4 fstat //ws/...") example_world
           (launch (go "p4 fstat //ws/...") example_world) recs).
  vm_compute. reflexivity.
Defined.

(** The record in progress when the stream ends is dropped. *)
Example runAndParseDepotFiles_unfinished_record :
  fst (runAndParseDepotFiles example_lowerCase example_GetClientSpec example_ParseSpec
         example_sh_Out (example_sh_Pipe example_unfinished)
         (go "p4 fstat //ws/...") example_world)
  = Ok [mkDepotFile (go "a.txt") (go "edit") [] [] []].
Proof. vm_compute. reflexivity. Qed.

Lemma runAndParseDepotFiles_sorted_witness :
  StronglySorted
    (fun x y => string_ltb (folded example_lowerCase y) (folded example_lowerCase x)
                = false)
    (map example_record example_sorted)
  /\ (exists streamDepth w1 st rerr,
         StreamDepth example_GetClientSpec example_ParseSpec example_sh_Out
                     example_world = (Ok streamDepth, w1)
         /\ scan_loop (onLine streamDepth)
                      (tokens (example_sh_Pipe (example_listing example_names) w1
                                               (go "p4 fstat //ws/...")))
                      parser_zero None
            = inr (st, rerr)
         /\ Permutation (map example_record example_sorted) (out st)).
Proof.
  apply (runAndParseDepotFiles_sorted example_lowerCase example_GetClientSpec
           example_ParseSpec example_sh_Out
           (example_sh_Pipe (example_listing example_names))
           (go "p4 fstat //ws/...") example_world
           (launch (go "p4 fstat //ws/...") example_world)
           (map example_record example_sorted)).
  vm_compute. reflexivity.
Defined.

(** C3 as stated fails: [sort.Sort] is not stable.  Of the thirteen files,
    [Makefile] is discovered before [makefile]; the pivot of the first
    partition is [makefile], and it ends before [Makefile]. *)
Lemma runAndParseDepotFiles_not_stable :
  ~ (forall (lines : list gostring) (recs : list DepotFile) (w' : World)
            (st : parser) (rerr : option error),
        runAndParseDepotFiles example_lowerCase example_GetClientSpec
          example_ParseSpec example_sh_Out (example_sh_Pipe lines)
          (go "p4 fstat //ws/...") example_world = (Ok recs, w') ->
        scan_loop (onLine 2) lines parser_zero None = inr (st, rerr) ->
        StronglySorted
          (fun x y => string_ltb (folded example_lowerCase y)
                                 (folded example_lowerCase x) = false) recs
        /\ forall key, tied example_lowerCase key recs
                       = tied example_lowerCase key (out st)).
Proof.
  intros H.
  destruct (H (example_listing example_names)
              (map example_record example_sorted)
              (launch (go "p4 fstat //ws/...") example_world)
              (mkParser (map example_record example_names) DepotFile_zero
                        (go "//depot/main/"))
              None) as [_ Hstable].
  - vm_compute. reflexivity.
  - vm_compute. reflexivity.
  - specialize (Hstable (go "makefile")). vm_compute in Hstable.
    discriminate Hstable.
Qed.

Example Sort_discovery_order_lost :
  tied example_lowerCase (go "makefile") (map example_record example_names)
  = map example_record [go "Makefile"; go "makefile"]
  /\ tied example_lowerCase (go "makefile")
          (sort.Sort DepotFile (Less example_lowerCase)
                     (map example_record example_names))
     = map example_record [go "makefile"; go "Makefile"].
Proof. split; vm_compute; reflexivity. Qed.

(* ------------------------------------------------------------------ *)
(** ** The callback: which line of a record gives a field its value *)











(* ================================================================== *)
(** * Properties of the rest of the package *)

(* ------------------------------------------------------------------ *)
(** ** [getDepotName] *)

Lemma slashes_app (s t : gostring) : slashes (s ++ t) = slashes s + slashes t.
Proof. unfold slashes. rewrite count_occ_app. lia. Qed.

Lemma slashes_nonneg (s : gostring) : 0 <= slashes s.
Proof. unfold slashes. lia. Qed.

(** On a rooted line with a slash after the root, [getDepotName] returns
    what stands between the root and that slash. *)
Lemma getDepotName_rooted (line : gostring) :
  HasPrefix line (go "//") = true ->
  slashes (skipn 2 line) <> 0 ->
  exists name rest,
    line = go "//" ++ name ++ go "/" ++ rest
    /\ slashes name = 0
    /\ getDepotName line = Ok name.
Proof.
  intros Hp Hs. unfold getDepotName.
  destruct (getDepotPrefix_rooted line 1 Hp)
    as (p & rest & -> & Hl & Hpp & Hsl & q & Hq).
  pose proof (slashes_nonneg (skipn 2 line)) as Hn.
  replace (Z.min (Z.max 0 1) (slashes (skipn 2 line))) with 1 in Hsl by lia.
  apply HasPrefix_app in Hpp as [r Hr].
  destruct r as [|a r] using rev_ind.
  { subst p. discriminate Hsl. }
  clear IHr.
  rewrite Hr, app_assoc in Hq. apply app_inj_tail in Hq as [_ ->].
  assert (Hname : slashes r = 0).
  { rewrite Hr in Hsl. change (skipn 2 (go "//" ++ r ++ ["/"%char])) with (r ++ go "/") in Hsl.
    rewrite slashes_app in Hsl. change (slashes (go "/")) with 1 in Hsl. lia. }
  exists r, rest. split; [|split; [exact Hname|]].
  - rewrite Hl, Hr. now rewrite <- !app_assoc.
  - subst p.
    assert (Hlen : len (go "//" ++ r ++ ["/"%char]) = 3 + len r).
    { rewrite !len_app. change (len (go "//")) with 2.
      change (len ["/"%char]) with 1. lia. }
    rewrite Hlen. pose proof (len_nonneg r).
    replace (3 + len r <? 3) with false by lia.
    rewrite (slice_middle (go "//") r ["/"%char] 2 (3 + len r - 1)); [reflexivity|reflexivity|lia].
Qed.

(** X1: [getDepotName] never panics.  A line that does not begin with
    ["//"] and a line with no slash after the root are errors; every
    other line gives the text between the root and the first slash after
    it, the empty text included. *)
Theorem getDepotName_result (line : gostring) :
  if HasPrefix line (go "//") then
    if slashes (skipn 2 line) =? 0
    then getDepotName line =
         Err (errorString (go "line '" ++ line ++ go "' does not have a full depot prefix"))
    else exists name rest,
        line = go "//" ++ name ++ go "/" ++ rest
        /\ slashes name = 0
        /\ getDepotName line = Ok name
  else getDepotName line =
       Err (errorString (go "line '" ++ line ++ go "' does not begin with '//'")).
Proof.
  destruct (HasPrefix line (go "//")) eqn:Hp.
  - destruct (slashes (skipn 2 line) =? 0) eqn:Hs.
    + apply getDepotName_no_slash; [exact Hp|lia].
    + apply getDepotName_rooted; [exact Hp|lia].
  - unfold getDepotName, getDepotPrefix. rewrite Hp. reflexivity.
Qed.

Lemma first_slash_unique (n1 n2 r1 r2 : gostring) :
  n1 ++ go "/" ++ r1 = n2 ++ go "/" ++ r2 ->
  slashes n1 = 0 -> slashes n2 = 0 -> n1 = n2.
Proof.
  unfold slashes. revert n2.
  induction n1 as [|a n1 IH]; intros [|b n2] Heq H1 H2; cbn [count_occ app] in *.
  - reflexivity.
  - injection Heq as <- _. destruct (ascii_dec "/" "/"); [lia|congruence].
  - injection Heq as -> _. destruct (ascii_dec "/" "/"); [lia|congruence].
  - injection Heq as -> Heq. f_equal.
    destruct (ascii_dec b "/"); [lia|].
    now apply IH.
Qed.

(** The name is found by the first slash: a line of that shape gives the
    slash-free text before it. *)
Lemma getDepotName_segment (name rest : gostring) :
  slashes name = 0 ->
  getDepotName (go "//" ++ name ++ go "/" ++ rest) = Ok name.
Proof.
  intros Hn.
  destruct (getDepotName_rooted (go "//" ++ name ++ go "/" ++ rest))
    as (name' & rest' & Heq & Hn' & Hres).
  - reflexivity.
  - change (skipn 2 (go "//" ++ name ++ go "/" ++ rest)) with (name ++ go "/" ++ rest).
    rewrite !slashes_app. change (slashes (go "/")) with 1.
    pose proof (slashes_nonneg rest). lia.
  - rewrite Hres. apply app_inv_head in Heq.
    now rewrite (first_slash_unique _ _ _ _ Heq Hn Hn').
Qed.

(* ------------------------------------------------------------------ *)
(** ** [P4.Depot] *)

(** The loop over the client spec stops at the first entry whose key
    begins with ["View"]. *)
Lemma Depot_views_find (m : spec) :
  Depot_views m =
  match find (fun kv => HasPrefix (fst kv) (go "View")) m with
  | None => Err (errorString
                   (go "could not find any View or Stream entries in client spec"))
  | Some (_, value) =>
      match getDepotName value with
      | Err e => Err (wrapError (go "error getting depot from mapping "
                                    ++ value ++ go ": ") e)
      | other => other
      end
  end.
Proof.
  induction m as [|[k v] m IH]; [reflexivity|].
  cbn [Depot_views find fst].
  destruct (HasPrefix k (go "View")); cbn [negb]; [reflexivity|exact IH].
Qed.

Section DepotName.

Variable GetClientSpec : M spec.

(** X2: a [Stream] entry of more than three bytes decides the depot, and
    the [View] entries are not looked at: for a stream ["//name/rest"] the
    depot is [name]. *)
Theorem Depot_from_stream (w w1 : World) (m : spec) (name rest : gostring) :
  GetClientSpec w = (Ok m, w1) ->
  lookup m (go "Stream") = Some (go "//" ++ name ++ go "/" ++ rest) ->
  slashes name = 0 ->
  name ++ rest <> [] ->
  Depot GetClientSpec w = (Ok name, w1).
Proof.
  intros Hc Hl Hn Hne. unfold Depot, bind, wrap. rewrite Hc, Hl.
  assert (Hlen : (3 <? len (go "//" ++ name ++ go "/" ++ rest)) = true).
  { rewrite !len_app. change (len (go "//")) with 2. change (len (go "/")) with 1.
    assert (len (name ++ rest) <> 0) by (intros H; now apply len_0 in H).
    rewrite len_app in H.
    pose proof (len_nonneg name). pose proof (len_nonneg rest).
    apply Z.ltb_lt. lia. }
  rewrite Hlen. unfold lift. now rewrite getDepotName_segment.
Qed.

(** X3: without a [Stream] entry of more than three bytes, the first entry
    visited whose key begins with ["View"] decides alone: its depot is the
    result, and when its value has no depot the call fails, whatever the
    entries after it hold.  With no such entry the call fails. *)
Theorem Depot_first_view (w w1 : World) (m : spec) :
  GetClientSpec w = (Ok m, w1) ->
  (forall stream, lookup m (go "Stream") = Some stream -> len stream <= 3) ->
  Depot GetClientSpec w =
  (match find (fun kv => HasPrefix (fst kv) (go "View")) m with
   | None => Err (errorString
                    (go "could not find any View or Stream entries in client spec"))
   | Some (_, value) =>
       match getDepotName value with
       | Err e => Err (wrapError (go "error getting depot from mapping "
                                     ++ value ++ go ": ") e)
       | other => other
       end
   end, w1).
Proof.
  intros Hc Hs. unfold Depot, bind, wrap. rewrite Hc.
  destruct (lookup m (go "Stream")) as [stream|] eqn:Hl.
  - specialize (Hs stream eq_refl).
    replace (3 <? len stream) with false by (symmetry; apply Z.ltb_ge; lia).
    unfold lift. now rewrite Depot_views_find.
  - unfold lift. now rewrite Depot_views_find.
Qed.

End DepotName.

(* ------------------------------------------------------------------ *)
(** ** [P4.StreamDepth], its cache and [P4.SetStreamName] *)

Lemma streamDepth_Ok (s : gostring) (d : Z) :
  streamDepth s = Ok d -> d = slashes s - 1 /\ 1 <= d.
Proof.
  unfold streamDepth, utf8.range.
  change (fun (count : Z) '(_, r) => if r =? 0x2F then count + 1 else count)
    with count_slash.
  rewrite range_count_slash by constructor.
  remember (-1 + slashes s) as c eqn:Hc.
  destruct (c <? 1) eqn:H; [discriminate|].
  apply Z.ltb_ge in H. intros [= <-]. lia.
Qed.

Section Depth.

Variable GetClientSpec : M spec.
Variable ParseSpec : gostring -> spec.
Variable sh_Out : World -> gostring -> gostring * option error.

(** What a successful call that finds no cached depth went through. *)
Lemma StreamDepth_uncached (w w' : World) (d : Z) :
  streamDepthCache (self w) <= 0 ->
  StreamDepth GetClientSpec ParseSpec sh_Out w = (Ok d, w') ->
  exists depot w1 text path,
    Depot GetClientSpec w = (Ok depot, w1)
    /\ sh_Out w1 (cmd (self w1) ++ go " -z tag depot -o " ++ depot) = (text, None)
    /\ lookup (ParseSpec text) (go "StreamDepth") = Some path
    /\ d = slashes path - 1
    /\ 1 <= d
    /\ w' = set_streamDepthCache d
              (launch (cmd (self w1) ++ go " -z tag depot -o " ++ depot) w1).
Proof.
  intros Hc. unfold StreamDepth.
  replace (0 <? streamDepthCache (self w)) with false by (symmetry; apply Z.ltb_ge; lia).
  unfold bind at 1.
  destruct (Depot GetClientSpec w) as [[depot|e|p] w1]; try discriminate.
  unfold bind at 1. unfold GetDepotSpec.
  destruct (sh_Out w1 (cmd (self w1) ++ go " -z tag depot -o " ++ depot))
    as [text [e|]] eqn:Hout; [discriminate|].
  destruct (lookup (ParseSpec text) (go "StreamDepth")) as [path|] eqn:Hl;
    [|discriminate].
  unfold bind, lift.
  destruct (streamDepth path) as [depth|e|p] eqn:Hd; try discriminate.
  intros [= <- <-].
  apply streamDepth_Ok in Hd as [Hd1 Hd2].
  exists depot, w1, text, path. repeat split; auto.
Qed.

(** X4: a depth that [StreamDepth] returns is at least 1 and is cached:
    the next call returns the same depth and leaves the world as it is,
    launching nothing. *)
Theorem StreamDepth_cached (w w' : World) (d : Z) :
  StreamDepth GetClientSpec ParseSpec sh_Out w = (Ok d, w') ->
  1 <= d
  /\ streamDepthCache (self w') = d
  /\ StreamDepth GetClientSpec ParseSpec sh_Out w' = (Ok d, w').
Proof.
  intros H.
  assert (Hd : 1 <= d /\ streamDepthCache (self w') = d).
  { destruct (Z_lt_dec 0 (streamDepthCache (self w))) as [Hc|Hc].
    - unfold StreamDepth in H.
      replace (0 <? streamDepthCache (self w)) with true in H
        by (symmetry; apply Z.ltb_lt; lia).
      injection H as <- <-. split; [lia|reflexivity].
    - destruct (StreamDepth_uncached w w' d ltac:(lia) H)
        as (depot & w1 & text & path & _ & _ & _ & _ & Hd & ->).
      split; [exact Hd|reflexivity]. }
  destruct Hd as [Hd Hc]. split; [exact Hd|]. split; [exact Hc|].
  unfold StreamDepth. rewrite Hc.
  replace (0 <? d) with true by (symmetry; apply Z.ltb_lt; lia).
  reflexivity.
Qed.

(** X5: on a new object and after [SetStreamName] no depth is cached, so
    a successful [StreamDepth] has asked for the depot of the client and
    for the spec of that depot (the one command it launches itself); the
    depth is the number of slashes of the spec's [StreamDepth] field less
    one, and it is cached on return. *)
Theorem StreamDepth_after_reset
        (w0 w w' : World) (name port user charset client : gostring) (d : Z) :
  w = snd (SetStreamName name w0) \/ self w = New port user charset client ->
  StreamDepth GetClientSpec ParseSpec sh_Out w = (Ok d, w') ->
  exists depot w1 text path,
    Depot GetClientSpec w = (Ok depot, w1)
    /\ sh_Out w1 (cmd (self w1) ++ go " -z tag depot -o " ++ depot) = (text, None)
    /\ lookup (ParseSpec text) (go "StreamDepth") = Some path
    /\ d = slashes path - 1
    /\ 1 <= d
    /\ w' = set_streamDepthCache d
              (launch (cmd (self w1) ++ go " -z tag depot -o " ++ depot) w1).
Proof.
  intros Hw. apply StreamDepth_uncached.
  destruct Hw as [-> | ->]; cbn; lia.
Qed.

End Depth.

(* ------------------------------------------------------------------ *)
(** ** [P4.ListDepotFiles] and [P4.GetVariable] *)

Lemma fold_left_append (g : gostring -> gostring) (fs : list gostring) :
  forall c, fold_left (fun c f => c ++ g f) fs c = c ++ flat_map g fs.
Proof.
  induction fs as [|f fs IH]; intros c; cbn [fold_left flat_map].
  - now rewrite app_nil_r.
  - now rewrite IH, app_assoc.
Qed.

(** The command of [ListDepotFiles] in closed form. *)
Lemma ListDepotFiles_cmd_eq (p : P4) (fileSpecs : list gostring) :
  ListDepotFiles_cmd p fileSpecs =
  cmd p ++ go " fstat -T depotFile,headAction,headChange,headType,digest -Ol "
        ++ go "-F '^(headAction=move/delete | headAction=purge | headAction=archive | headAction=delete)'"
        ++ flat_map (fun f => go " //" ++ Client p ++ go "/" ++ f)
                    (match fileSpecs with [] => [go "..."] | _ => fileSpecs end).
Proof.
  unfold ListDepotFiles_cmd.
  rewrite (fold_left_append (fun f => go " //" ++ Client p ++ go "/" ++ f)).
  rewrite <- !app_assoc. do 3 f_equal.
  destruct fileSpecs; reflexivity.
Qed.

Section Files.

Variable lowerCase : Z -> Z.
Variable GetClientSpec : M spec.
Variable ParseSpec : gostring -> spec.
Variable sh_Out : World -> gostring -> gostring * option error.
Variable sh_Pipe : World -> gostring -> PipeRun.

(** X6: [ListDepotFiles] is never refused by the guard of
    [runAndParseDepotFiles], whatever the fields of the receiver and the
    file specs are: it resolves the stream depth and runs one command,
    [p.cmd()] followed by the [fstat] options and one [//client/spec] per
    file spec, [//client/...] when no file spec is given. *)
Theorem ListDepotFiles_runs (fileSpecs : list gostring) (w : World) :
  ListDepotFiles lowerCase GetClientSpec ParseSpec sh_Out sh_Pipe fileSpecs w =
  (streamDepth <- StreamDepth GetClientSpec ParseSpec sh_Out ;;
   res <- cmdAndScan sh_Pipe
            (cmd (self w)
             ++ go " fstat -T depotFile,headAction,headChange,headType,digest -Ol "
             ++ go "-F '^(headAction=move/delete | headAction=purge | headAction=archive | headAction=delete)'"
             ++ flat_map (fun f => go " //" ++ Client (self w) ++ go "/" ++ f)
                         (match fileSpecs with [] => [go "..."] | _ => fileSpecs end))
            (onLine streamDepth) parser_zero ;;
   match snd res with
   | Some err => fail (wrapError (go "error listing files: ") err)
   | None => ret (sort.Sort DepotFile (Less lowerCase) (out (fst res)))
   end) w.
Proof.
  unfold ListDepotFiles, runAndParseDepotFiles.
  rewrite ListDepotFiles_cmd_eq.
  match goal with |- context [Contains ?c (go "fstat")] =>
    assert (Hc : Contains c (go "fstat") = true)
  end.
  { apply Contains_spec.
    exists (cmd (self w) ++ go " "). eexists.
    rewrite <- !app_assoc. f_equal. reflexivity. }
  rewrite Hc. cbn [negb]. rewrite !andb_false_r. reflexivity.
Qed.

Lemma find_app {A} (f : A -> bool) (l1 l2 : list A) :
  find f (l1 ++ l2) = match find f l1 with Some x => Some x | None => find f l2 end.
Proof.
  induction l1 as [|a l1 IH]; [reflexivity|].
  cbn [app find]. now destruct (f a).
Qed.

Lemma CutPrefix_spec (s prefix : gostring) :
  CutPrefix s prefix =
  inr (if HasPrefix s prefix then (skipn (List.length prefix) s, true) else (s, false)).
Proof.
  unfold CutPrefix. destruct (HasPrefix s prefix) eqn:Hp; [|reflexivity].
  cbn [negb]. apply HasPrefix_app in Hp as [rest ->].
  rewrite (slice_from_app prefix rest) by reflexivity.
  now rewrite skipn_app, skipn_all, Nat.sub_diag.
Qed.

(** The loop of [cmdAndScan] under the callback of [GetVariable]: no
    panic, no error, and the value of the last matching line. *)
Lemma GetVariable_scan (variable : gostring) (ts : list gostring) :
  forall (value : gostring) (rerr : option error),
    scan_loop (GetVariable_onLine variable) ts value rerr
    = inr (match find (fun l => HasPrefix l (variable ++ go "=")) (rev ts) with
           | Some l => skipn (List.length (variable ++ go "=")) l
           | None => value
           end, rerr).
Proof.
  induction ts as [|t ts IH]; intros value rerr; [reflexivity|].
  cbn [scan_loop rev]. unfold GetVariable_onLine at 1.
  rewrite CutPrefix_spec, find_app.
  destruct (HasPrefix t (variable ++ go "=")) eqn:Hp; rewrite IH;
    destruct (find (fun l => HasPrefix l (variable ++ go "=")) (rev ts));
    try reflexivity; cbn [find]; now rewrite Hp.
Qed.

(** X7: [GetVariable] launches [p.cmd() set -q <variable>] and never
    panics; its callback never refuses a line, so the pipe is not closed
    early.  When the run of the command and the scanner report no error,
    the result is what follows ["<variable>="] on the last line that
    begins with it, and the empty string when no line does; otherwise the
    result is the error of the run, or failing that of the scanner. *)
Theorem GetVariable_value (variable : gostring) (w : World) :
  let c := cmd (self w) ++ go " set -q " ++ variable in
  let run := sh_Pipe w c in
  GetVariable sh_Pipe variable w =
  (match RunErr run None with
   | Some e => Err e
   | None =>
       match ScanErr run None with
       | Some e => Err e
       | None => Ok (last_value variable (tokens run))
       end
   end, launch c w).
Proof.
  intros c run. unfold GetVariable, bind, cmdAndScan. fold c. fold run.
  rewrite GetVariable_scan. cbn [snd fst].
  unfold last_value.
  destruct (RunErr run None) as [e|]; [reflexivity|].
  destruct (ScanErr run None) as [e|]; reflexivity.
Qed.

End Files.

(* ------------------------------------------------------------------ *)
(** ** [EscapePath] on every string *)

Lemma AppendRune_RuneError (sb : gostring) :
  utf8.AppendRune sb utf8.RuneError
  = sb ++ [byte_of_Z 0xEF; byte_of_Z 0xBF; byte_of_Z 0xBD].
Proof. reflexivity. Qed.

Lemma reserved_escape_byte (c : ascii) :
  escape_byte c = if reserved c then escape_byte c else [c].
Proof.
  unfold reserved, escape_byte.
  repeat (match goal with |- context [ascii_dec c ?x] => destruct (ascii_dec c x) end;
          try reflexivity).
Qed.

Lemma reserved_high (c : ascii) : 0x80 <= byteZ c -> reserved c = false.
Proof.
  intros H. unfold reserved.
  repeat match goal with
         | |- context [ascii_dec c ?x] =>
             destruct (ascii_dec c x) as [-> | _]; [cbv in H; now elim H|]
         end.
  reflexivity.
Qed.

(** The bytes one step of the second loop writes: the code of a reserved
    byte, a byte that is not reserved, the three bytes of [RuneError], or
    the bytes of a rune of several bytes. *)
Lemma escape_rune_step (a : ascii) (s sb : gostring) (i r : Z) (w : nat) :
  utf8.decoderune (a :: s) = (r, w) ->
  exists bytes,
    escape_rune sb (i, r) = sb ++ bytes
    /\ Forall (fun c => reserved c = false \/ c = "%"%char) bytes
    /\ Z.of_nat w + (if reserved a then 2 else 0) <= len bytes
    /\ (((byteZ a <? 0x80) || Nat.ltb 1 w) = true ->
        bytes = flat_map escape_byte (firstn w (a :: s))
        /\ len bytes = Z.of_nat w + (if reserved a then 2 else 0)).
Proof.
  intros Hd.
  pose proof (AppendRune_decoderune sb _ _ _ _ Hd) as Henc.
  apply decoderune_shape in Hd.
  destruct Hd as [[-> Hr] | (Hge & Hr & Hw & l1 & l2 & -> & Hl & Hc)].
  - destruct (byteZ a <? 0x80) eqn:Hlt.
    + subst r. rewrite escape_rune_ascii by lia.
      exists (escape_byte a). split; [reflexivity|].
      cbn [firstn flat_map]. rewrite app_nil_r.
      unfold escape_byte, reserved.
      repeat match goal with
             | |- context [ascii_dec a ?x] =>
                 destruct (ascii_dec a x) as [-> | ?];
                   [split; [repeat constructor; (now left) || (now right)|];
                    split; [cbv; discriminate|]; intros _; split; reflexivity|]
             end.
      split.
      * constructor; [|constructor]. left. unfold reserved.
        repeat match goal with
               | |- context [ascii_dec a ?x] =>
                   destruct (ascii_dec a x); [contradiction|]
               end.
        reflexivity.
      * split; [cbv; discriminate|]. intros _. split; reflexivity.
    + subst r. rewrite escape_rune_high by (cbv; discriminate).
      rewrite AppendRune_RuneError. eexists. split; [reflexivity|].
      rewrite reserved_high by lia.
      split; [repeat constructor; now left|].
      split; [cbv; discriminate|]. cbn [orb Nat.ltb Nat.leb]. discriminate.
  - rewrite escape_rune_high by lia. rewrite Henc by lia.
    assert (Hf : firstn w (a :: l1 ++ l2) = a :: l1).
    { replace w with (S (List.length l1)) by lia. cbn [firstn].
      now rewrite firstn_app, Nat.sub_diag, firstn_all, firstn_O, app_nil_r. }
    rewrite Hf. exists (a :: l1). split; [reflexivity|].
    rewrite reserved_high by lia.
    assert (Hlen : len (a :: l1) = Z.of_nat w).
    { unfold len. cbn [List.length]. lia. }
    split; [|split; [lia|]].
    + constructor; [left; apply reserved_high; lia|].
      eapply Forall_impl; [|exact Hc]. intros b Hb. left.
      apply reserved_high. apply cont_range in Hb. lia.
    + intros _. split; [|lia].
      cbn [flat_map]. rewrite escape_byte_high by lia.
      now rewrite (flat_map_escape_cont l1 Hc).
Qed.

Lemma EscapePath_fold : forall path, EscapePath path = fold_left escape_rune (utf8.range path) [].
Proof. reflexivity. Qed.

Lemma EscapePath_size_fold :
  forall path, EscapePath_size path = fold_left size_rune (utf8.range path) (len path).
Proof. reflexivity. Qed.

Lemma size_rune_ascii (size i : Z) (a : ascii) :
  size_rune size (i, byteZ a) = size + (if reserved a then 2 else 0).
Proof.
  unfold size_rune, reserved.
  repeat match goal with
         | |- context [ascii_dec a ?x] =>
             destruct (ascii_dec a x) as [-> | ?]; [reflexivity|]
         end.
  repeat match goal with
         | |- context [byteZ a =? ?v] =>
             destruct (Z.eqb_spec (byteZ a) v) as [E | _];
               [exfalso; apply (f_equal byte_of_Z) in E;
                rewrite byte_of_Z_byteZ in E; vm_compute in E; congruence|]
         end.
  cbn [orb]. lia.
Qed.

Lemma size_rune_high (size i r : Z) : 0x80 <= r -> size_rune size (i, r) = size.
Proof.
  intros Hr. unfold size_rune.
  replace (r =? 0x40) with false by lia.
  replace (r =? 0x23) with false by lia.
  replace (r =? 0x2A) with false by lia.
  replace (r =? 0x25) with false by lia.
  reflexivity.
Qed.

Lemma size_rune_step (a : ascii) (s : gostring) (size i r : Z) (w : nat) :
  utf8.decoderune (a :: s) = (r, w) ->
  size_rune size (i, r) = size + (if reserved a then 2 else 0).
Proof.
  intros Hd. apply decoderune_shape in Hd.
  destruct Hd as [[-> Hr] | (Hge & Hr & Hw & l1 & l2 & -> & Hl & Hc)].
  - destruct (byteZ a <? 0x80) eqn:Hlt.
    + subst r. apply size_rune_ascii.
    + subst r. rewrite size_rune_high by (cbv; discriminate).
      rewrite reserved_high by lia. lia.
  - rewrite size_rune_high by lia. rewrite reserved_high by lia. lia.
Qed.

(** The two loops of [EscapePath] side by side, from any point of the
    string on. *)
Lemma EscapePath_loops (s : gostring) :
  forall (i k : nat) (sb : gostring) (size : Z),
    Forall (fun c => reserved c = false) (firstn k s) ->
    Forall (fun c => reserved c = false \/ c = "%"%char) sb ->
    let sb' := fold_left escape_rune (utf8.range_from i k s) sb in
    let size' := fold_left size_rune (utf8.range_from i k s) size in
    Forall (fun c => reserved c = false \/ c = "%"%char) sb'
    /\ size' - size = 2 * len (filter reserved s)
    /\ size' - size + len (skipn k s) <= len sb' - len sb
    /\ (utf8.valid_from k s = true ->
        size' - size + len (skipn k s) = len sb' - len sb).
Proof.
  induction s as [|a s IH]; intros i k sb size Hk Hsb.
  - destruct k; cbn; repeat split; auto; lia.
  - destruct k as [|k].
    + cbn [utf8.range_from utf8.valid_from skipn].
      destruct (utf8.decoderune (a :: s)) as [r w] eqn:Hd.
      cbn [fold_left].
      destruct (escape_rune_step a s sb (Z.of_nat i) r w Hd)
        as (bytes & -> & Hclean & Hlen & Hvalid).
      rewrite (size_rune_step a s size (Z.of_nat i) r w Hd).
      assert (Hfirst : Forall (fun c => reserved c = false) (firstn (w - 1) s)).
      { clear -Hd. apply decoderune_shape in Hd.
        destruct Hd as [[-> Hr] | (Hge & Hr & Hw & l1 & l2 & -> & Hl & Hc)].
        - constructor.
        - rewrite <- Hl, firstn_app, Nat.sub_diag, firstn_all, firstn_O, app_nil_r.
          eapply Forall_impl; [|exact Hc]. intros b Hb.
          apply reserved_high. apply cont_range in Hb. lia. }
      assert (Hw : (1 <= w)%nat).
      { clear -Hd. apply decoderune_shape in Hd.
        destruct Hd as [[-> _] | (_ & _ & Hw & _)]; lia. }
      destruct (IH (S i) (w - 1)%nat (sb ++ bytes)
                   (size + (if reserved a then 2 else 0)) Hfirst)
        as (H1 & H2 & H3 & H4).
      { apply Forall_app. now split. }
      cbv zeta in *.
      split; [exact H1|].
      assert (Hws : len (skipn (w - 1) s) + Z.of_nat w = len (a :: s)).
      { unfold len. rewrite length_skipn. cbn [List.length].
        assert ((w - 1 <= List.length s)%nat); [|lia].
        clear -Hd. apply decoderune_shape in Hd.
        destruct Hd as [[-> _] | (_ & _ & Hw & l1 & l2 & -> & Hl & _)]; [lia|].
        rewrite length_app. lia. }
      rewrite len_app in H3, H4.
      cbn [filter]. destruct (reserved a) eqn:Hra.
      * change (len (a :: filter reserved s)) with (len ([a] ++ filter reserved s)).
        rewrite len_app. change (len [a]) with 1.
        split; [lia|]. split; [lia|].
        intros Hv. apply andb_prop in Hv as [Hstep Hv].
        destruct (Hvalid Hstep) as [_ Hb]. specialize (H4 Hv). lia.
      * split; [lia|]. split; [lia|].
        intros Hv. apply andb_prop in Hv as [Hstep Hv].
        destruct (Hvalid Hstep) as [_ Hb]. specialize (H4 Hv). lia.
    + cbn [utf8.range_from utf8.valid_from skipn firstn] in *.
      inversion Hk as [|? ? Ha Hk']; subst.
      destruct (IH (S i) k sb size Hk' Hsb) as (H1 & H2 & H3 & H4).
      cbv zeta in *. cbn [filter]. rewrite Ha.
      repeat split; auto.
Qed.

(** X9: whatever the input, well-formed or not, the result of
    [EscapePath] holds none of [@], [#] and [*]. *)
Theorem EscapePath_no_reserved (path : gostring) :
  Forall (fun c => c <> "@"%char /\ c <> "#"%char /\ c <> "*"%char) (EscapePath path).
Proof.
  destruct (EscapePath_loops path 0 0 [] (len path)) as (H & _);
    [constructor|constructor|].
  cbv zeta in H. rewrite EscapePath_fold. unfold utf8.range.
  eapply Forall_impl; [|exact H].
  intros c [Hc | ->]; [|repeat split; discriminate].
  unfold reserved in Hc.
  repeat match type of Hc with
         | context [ascii_dec c ?x] => destruct (ascii_dec c x); [discriminate|]
         end.
  tauto.
Qed.

(** X10: the size that the first loop of [EscapePath] computes for the
    builder is the length of the input plus two for every reserved
    byte.  It is never more than the length of the result, and on
    well-formed UTF-8 it is exactly that length. *)
Theorem EscapePath_size_exact (path : gostring) :
  EscapePath_size path = len path + 2 * len (filter reserved path)
  /\ EscapePath_size path <= len (EscapePath path)
  /\ (utf8.ValidString path = true -> len (EscapePath path) = EscapePath_size path).
Proof.
  destruct (EscapePath_loops path 0 0 [] (len path)) as (_ & H2 & H3 & H4);
    [constructor|constructor|].
  cbv zeta in *. rewrite EscapePath_fold, EscapePath_size_fold. unfold utf8.range.
  cbn [skipn] in *. change (len []) with 0 in *.
  split; [lia|]. split; [lia|].
  intros Hv. specialize (H4 Hv). lia.
Qed.

(* ------------------------------------------------------------------ *)
(** ** [EscapePath] on well-formed UTF-8: one result per path *)

Lemma escape_byte_cases (c : ascii) :
  (reserved c = false /\ escape_byte c = [c])
  \/ (c = "@"%char /\ escape_byte c = go "%40")
  \/ (c = "#"%char /\ escape_byte c = go "%23")
  \/ (c = "*"%char /\ escape_byte c = go "%2A")
  \/ (c = "%"%char /\ escape_byte c = go "%25").
Proof.
  unfold reserved, escape_byte.
  destruct (ascii_dec c "@") as [->|?]; [tauto|].
  destruct (ascii_dec c "#") as [->|?]; [tauto|].
  destruct (ascii_dec c "*") as [->|?]; [tauto|].
  destruct (ascii_dec c "%") as [->|?]; tauto.
Qed.

(** The codes can be told apart from each other and from the bytes that
    are kept. *)
Lemma flat_map_escape_byte_inj (s : gostring) :
  forall t, flat_map escape_byte s = flat_map escape_byte t -> s = t.
Proof.
  induction s as [|a s IH]; intros [|b t] H; cbn [flat_map] in H.
  - reflexivity.
  - exfalso. destruct (escape_byte_cases b) as [[_ E]|[[_ E]|[[_ E]|[[_ E]|[_ E]]]]];
      rewrite E in H; discriminate H.
  - exfalso. destruct (escape_byte_cases a) as [[_ E]|[[_ E]|[[_ E]|[[_ E]|[_ E]]]]];
      rewrite E in H; discriminate H.
  - destruct (escape_byte_cases a) as [[Ra Ea]|[[-> Ea]|[[-> Ea]|[[-> Ea]|[-> Ea]]]]];
      destruct (escape_byte_cases b) as [[Rb Eb]|[[-> Eb]|[[-> Eb]|[[-> Eb]|[-> Eb]]]]];
      rewrite ?Ea, ?Eb in H; cbn in H;
      try discriminate H;
      try (injection H as H; f_equal; now apply IH);
      try (injection H as -> H; f_equal; now apply IH);
      try (injection H as Hb _; subst b; vm_compute in Rb; discriminate Rb);
      try (injection H as Ha _; subst a; vm_compute in Ra; discriminate Ra).
Qed.

(** X11: on well-formed UTF-8 [EscapePath] is one-to-one: two paths with
    the same escaped form are the same path. *)
Theorem EscapePath_injective (s t : gostring) :
  utf8.ValidString s = true ->
  utf8.ValidString t = true ->
  EscapePath s = EscapePath t ->
  s = t.
Proof.
  intros Hs Ht. rewrite (EscapePath_bytes s Hs), (EscapePath_bytes t Ht).
  apply flat_map_escape_byte_inj.
Qed.

Lemma flat_map_escape_byte_plain (s : gostring) :
  filter reserved s = [] -> flat_map escape_byte s = s.
Proof.
  induction s as [|a s IH]; [reflexivity|]. cbn [filter flat_map].
  destruct (reserved a) eqn:Ra; [discriminate|]. intros H.
  rewrite IH by assumption.
  destruct (escape_byte_cases a) as [[_ E]|[[-> _]|[[-> _]|[[-> _]|[-> _]]]]];
    try discriminate Ra.
  now rewrite E.
Qed.

(** X12: a well-formed path comes back from [EscapePath] as it is exactly
    when it holds none of the four reserved characters. *)
Theorem EscapePath_unchanged (path : gostring) :
  utf8.ValidString path = true ->
  EscapePath path = path <-> filter reserved path = [].
Proof.
  intros Hv. split.
  - intros He.
    destruct (EscapePath_loops path 0 0 [] (len path)) as (_ & H2 & _ & H4);
      [constructor|constructor|].
    cbv zeta in *. specialize (H4 Hv).
    change (fold_left escape_rune (utf8.range_from 0 0 path) []) with (EscapePath path) in H4.
    rewrite He in H4. cbn [skipn] in H4. change (len []) with 0 in H4.
    apply len_0. lia.
  - intros Hf. rewrite (EscapePath_bytes path Hv).
    now apply flat_map_escape_byte_plain.
Qed.

(* ------------------------------------------------------------------ *)
(** ** [UnescapePath] on every string *)

Lemma ParseUint_loop_error (base bitSize : Z) (cs : gostring) :
  forall n e, strconv.ParseUint_loop base bitSize cs n = inl e ->
              e = strconv.ErrSyntax \/ e = strconv.ErrRange.
Proof.
  induction cs as [|c cs IH]; intros n e; cbn [strconv.ParseUint_loop].
  - discriminate.
  - destruct (strconv.digit (byteZ c)) as [d|]; [|intros [= <-]; now left].
    destruct (base <=? d); [intros [= <-]; now left|].
    cbv zeta.
    destruct ((2 ^ 64 - 1) / base + 1 <=? n); [intros [= <-]; now right|].
    destruct (_ || _); [intros [= <-]; now right|].
    apply IH.
Qed.

(** Every error of [strconv.ParseInt] is a [*NumError] that names the
    function and the text, for a syntax or a range error. *)
Lemma ParseInt_error (s : gostring) (base bitSize : Z) (e : error) :
  strconv.ParseInt s base bitSize = inl e ->
  exists kind, e = NumError (go "ParseInt") s kind
               /\ (kind = strconv.ErrSyntax \/ kind = strconv.ErrRange).
Proof.
  unfold strconv.ParseInt. destruct s as [|c rest].
  - intros [= <-]. eexists. split; [reflexivity|now left].
  - cbv zeta.
    match goal with |- context [strconv.ParseUint ?d base bitSize] =>
      destruct (strconv.ParseUint d base bitSize) as [kind|un] eqn:Hu;
      [intros [= <-]; exists kind; split; [reflexivity|];
       unfold strconv.ParseUint in Hu;
       destruct d; [injection Hu as <-; now left|];
       now apply ParseUint_loop_error in Hu|]
    end.
    destruct (_ && _); [intros [= <-]; eexists; split; [reflexivity|now right]|].
    destruct (_ && _); [intros [= <-]; eexists; split; [reflexivity|now right]|].
    discriminate.
Qed.

Lemma slice_ok (s : gostring) (lo hi : nat) :
  (lo <= hi <= List.length s)%nat ->
  slice s (Z.of_nat lo) (Z.of_nat hi) = inr (firstn (hi - lo) (skipn lo s)).
Proof.
  intros H. unfold slice, len.
  replace ((0 <=? Z.of_nat lo) && (Z.of_nat lo <=? Z.of_nat hi)
           && (Z.of_nat hi <=? Z.of_nat (List.length s))) with true
    by (symmetry; rewrite !andb_true_iff, !Z.leb_le; lia).
  now rewrite !Nat2Z.id.
Qed.

Lemma skipn_nth_error {A} (l : list A) (n : nat) (x : A) :
  nth_error l n = Some x -> skipn n l = x :: skipn (S n) l.
Proof.
  revert n. induction l as [|a l IH]; intros [|n] H; try discriminate.
  - now injection H as ->.
  - cbn [skipn]. now apply IH.
Qed.

(** The rune ['%'] is only read from the byte ['%']. *)
Lemma decoderune_percent (a : ascii) (s : gostring) (r : Z) (w : nat) :
  utf8.decoderune (a :: s) = (r, w) -> r = 0x25 -> a = "%"%char /\ w = 1%nat.
Proof.
  intros Hd Hr. apply decoderune_shape in Hd.
  destruct Hd as [[-> H] | (Hge & H & _)]; [|lia].
  destruct (byteZ a <? 0x80).
  - split; [|reflexivity]. apply byteZ_inj. now rewrite <- H, Hr.
  - subst r. discriminate Hr.
Qed.

(** The loop of [UnescapePath] from any point of the string, in any
    state it can be in there: the slices it takes are within bounds, and
    the only error is the one that [strconv.ParseInt] raises on the bytes
    after a percent sign. *)
Lemma UnescapePath_loop_total (path : gostring) :
  forall (s pre : gostring) (k : nat) (st : unescape),
    path = pre ++ s ->
    (escaped st = true ->
     exists n, start st = Z.of_nat n /\ (n < List.length pre + k)%nat
               /\ nth_error path n = Some "%"%char) ->
    match UnescapePath_loop path (utf8.range_from (List.length pre) k s) st with
    | Ok _ => True
    | Err e =>
        exists digits kind,
          e = wrapError (go "error parsing perforce-style escape code '"
                            ++ "%"%char :: digits ++ go "': ")
                        (NumError (go "ParseInt") digits kind)
          /\ 2 <= len digits
          /\ (kind = strconv.ErrSyntax \/ kind = strconv.ErrRange)
    | Panic _ => False
    end.
Proof.
  induction s as [|a s IH]; intros pre k st Hpath Hinv.
  - exact I.
  - assert (Hnext : path = (pre ++ [a]) ++ s) by (now rewrite <- app_assoc).
    assert (Hlen : List.length (pre ++ [a]) = S (List.length pre))
      by (rewrite length_app; simpl; lia).
    pose proof (fun k st => IH (pre ++ [a]) k st Hnext) as Hstep.
    rewrite Hlen in Hstep.
    destruct k as [|k].
    + cbn [utf8.range_from].
      destruct (utf8.decoderune (a :: s)) as [r w] eqn:Hd.
      cbn [UnescapePath_loop].
      assert (Hw : (1 <= w)%nat).
      { clear -Hd. apply decoderune_shape in Hd.
        destruct Hd as [[-> _] | (_ & _ & Hw & _)]; lia. }
      destruct (escaped st) eqn:He.
      * destruct (Hinv eq_refl) as (n & Hn & Hlt & Hnth).
        rewrite Hn.
        destruct (2 <=? Z.of_nat (List.length pre) - Z.of_nat n) eqn:H2.
        -- apply Z.leb_le in H2.
           assert (Hpl : List.length path = (List.length pre + S (List.length s))%nat)
             by (rewrite Hpath, length_app; reflexivity).
           replace (Z.of_nat n + 1) with (Z.of_nat (S n)) by lia.
           replace (Z.of_nat (List.length pre) + 1)
             with (Z.of_nat (S (List.length pre))) by lia.
           rewrite !slice_ok by lia.
           destruct (strconv.ParseInt _ 16 64) as [err|c] eqn:Hp.
           ++ apply ParseInt_error in Hp as (kind & -> & Hk).
              eexists _, kind. split; [|split; [|exact Hk]].
              ** rewrite (skipn_nth_error _ _ _ Hnth).
                 replace (S (List.length pre) - n)%nat
                   with (S (S (List.length pre) - S n)) by lia.
                 reflexivity.
              ** unfold len. rewrite length_firstn, length_skipn. lia.
           ++ apply Hstep. discriminate.
        -- apply Hstep.
           intros _. exists n. repeat split; auto. lia.
      * destruct (r =? 0x25) eqn:Hr.
        -- apply Hstep.
           intros _. exists (List.length pre). cbn [start].
           split; [reflexivity|]. split; [lia|].
           apply Z.eqb_eq in Hr.
           destruct (decoderune_percent _ _ _ _ Hd Hr) as [-> _].
           rewrite Hpath, nth_error_app2, Nat.sub_diag by lia. reflexivity.
        -- apply Hstep. discriminate.
    + cbn [utf8.range_from]. apply Hstep.
      intros He. destruct (Hinv He) as (n & Hn & Hlt & Hnth).
      exists n. repeat split; auto. lia.
Qed.

(** X13: [UnescapePath] never panics.  It fails in two ways only: with
    ["string ended before escaped character value in '<path>'"] when the
    input ends within two runes of a percent sign, and with
    ["error parsing perforce-style escape code '%<text>': "] wrapping the
    syntax or range error of [strconv.ParseInt] on the two or more bytes
    after a percent sign. *)
Theorem UnescapePath_outcome (path : gostring) :
  match UnescapePath path with
  | Ok _ => True
  | Err e =>
      e = errorString (go "string ended before escaped character value in '"
                          ++ path ++ go "'")
      \/ exists digits kind,
          e = wrapError (go "error parsing perforce-style escape code '"
                            ++ "%"%char :: digits ++ go "': ")
                        (NumError (go "ParseInt") digits kind)
          /\ 2 <= len digits
          /\ (kind = strconv.ErrSyntax \/ kind = strconv.ErrRange)
  | Panic _ => False
  end.
Proof.
  unfold UnescapePath, utf8.range.
  pose proof (UnescapePath_loop_total path path [] 0 (mkUnescape [] false 0) eq_refl) as H.
  cbn [List.length escaped] in H.
  destruct (UnescapePath_loop path (utf8.range_from 0 0 path) (mkUnescape [] false 0))
    as [st|e|p].
  - destruct (escaped st); [now left|exact I].
  - right. apply H. discriminate.
  - apply H. discriminate.
Qed.

(* ------------------------------------------------------------------ *)
(** ** [UnescapePath]: what it decodes *)

(** The loop over a well-formed string without a percent sign copies
    it. *)
Lemma UnescapePath_loop_plain (path s : gostring) :
  forall (i k : nat) (out0 : gostring) (start0 : Z),
    utf8.valid_from k s = true ->
    ~ In "%"%char s ->
    UnescapePath_loop path (utf8.range_from i k s) (mkUnescape out0 false start0)
    = Ok (mkUnescape (out0 ++ skipn k s) false start0).
Proof.
  induction s as [|a s IH]; intros i k out0 start0 Hv Hin.
  - destruct k; simpl; now rewrite app_nil_r.
  - assert (Hin' : ~ In "%"%char s) by (intros H; apply Hin; now right).
    destruct k as [|k].
    + cbn [utf8.range_from utf8.valid_from skipn] in *.
      destruct (utf8.decoderune (a :: s)) as [r w] eqn:Hd.
      apply andb_prop in Hv as [Hstep Hv].
      cbn [UnescapePath_loop escaped sb start].
      destruct (r =? 0x25) eqn:Hr.
      { apply Z.eqb_eq in Hr. destruct (decoderune_percent _ _ _ _ Hd Hr) as [-> _].
        exfalso. apply Hin. now left. }
      rewrite (IH _ _ _ _ Hv Hin'). do 2 f_equal.
      pose proof (AppendRune_decoderune out0 _ _ _ _ Hd) as Henc.
      apply decoderune_shape in Hd.
      destruct Hd as [[-> Hr1] | (Hge & Hr1 & Hw & l1 & l2 & -> & Hl & Hc)].
      * change utf8.RuneSelf with 0x80 in Hstep.
        destruct (byteZ a <? 0x80) eqn:Hlt; [|discriminate Hstep].
        subst r. rewrite AppendRune_ascii by lia.
        now rewrite <- app_assoc.
      * rewrite Henc by lia. rewrite <- app_assoc. f_equal.
        replace w with (S (List.length l1)) by lia.
        cbn [firstn]. rewrite firstn_app, Nat.sub_diag, firstn_all, firstn_O, app_nil_r.
        replace (S (List.length l1) - 1)%nat with (List.length l1) by lia.
        rewrite skipn_app, skipn_all, Nat.sub_diag. cbn [skipn app].
        reflexivity.
    + cbn [utf8.range_from utf8.valid_from skipn] in *. now apply IH.
Qed.

(** X14: a well-formed path without a percent sign is returned as it is,
    the characters [@], [#] and [*] included. *)
Theorem UnescapePath_plain (path : gostring) :
  utf8.ValidString path = true ->
  ~ In "%"%char path ->
  UnescapePath path = Ok path.
Proof.
  intros Hv Hin. unfold UnescapePath, utf8.range.
  now rewrite (UnescapePath_loop_plain path path 0 0 [] 0 Hv Hin).
Qed.

(** A byte that [strconv.ParseInt] takes for a digit is a character of
    ASCII and not a sign. *)
Lemma digit_byte (h : ascii) (d : Z) :
  strconv.digit (byteZ h) = Some d ->
  byteZ h < 0x80 /\ 0 <= d < 36 /\ byteZ h <> 0x2B /\ byteZ h <> 0x2D
  /\ byteZ h <> 0x25.
Proof.
  destruct h as [[] [] [] [] [] [] [] []]; vm_compute;
    intros H; try discriminate H; injection H as <-;
    repeat split; discriminate.
Qed.

(** Two hexadecimal digits under [strconv.ParseInt(_, 16, 64)]. *)
Lemma ParseInt_hex (h l : ascii) (dh dl : Z) :
  strconv.digit (byteZ h) = Some dh -> dh < 16 ->
  strconv.digit (byteZ l) = Some dl -> dl < 16 ->
  strconv.ParseInt [h; l] 16 64 = inr (16 * dh + dl).
Proof.
  intros Hh Hhr Hl Hlr.
  destruct (digit_byte h dh Hh) as (_ & Hdh & Hp & Hm & _).
  destruct (digit_byte l dl Hl) as (_ & Hdl & _).
  unfold strconv.ParseInt.
  replace (byteZ h =? 0x2D) with false by lia.
  replace (byteZ h =? 0x2B) with false by lia.
  cbn [orb negb andb]. unfold strconv.ParseUint.
  cbn [strconv.ParseUint_loop]. rewrite Hh, Hl.
  replace (16 <=? dh) with false by lia.
  replace (16 <=? dl) with false by lia.
  change ((2 ^ 64 - 1) / 16 + 1) with 1152921504606846976.
  change (2 ^ 64 - 1) with 18446744073709551615.
  change (2 ^ 64) with 18446744073709551616.
  change (2 ^ (64 - 1)) with 9223372036854775808.
  change (0 * 16) with 0. rewrite !Z.add_0_l.
  rewrite (Z.mod_small dh) by lia.
  replace (1152921504606846976 <=? 0) with false by reflexivity.
  replace (dh <? 0) with false by lia.
  replace (18446744073709551615 <? dh) with false by lia.
  replace (1152921504606846976 <=? dh) with false by lia.
  cbn [orb].
  rewrite (Z.mod_small (dh * 16 + dl)) by lia.
  replace (dh * 16 + dl <? dh * 16) with false by lia.
  replace (18446744073709551615 <? dh * 16 + dl) with false by lia.
  cbn [orb].
  replace (9223372036854775808 <=? dh * 16 + dl) with false by lia.
  f_equal. lia.
Qed.

(** X15: a percent sign followed by two hexadecimal digits is decoded to
    the character with that number, written as UTF-8: one byte for the
    codes below [%80], two bytes for the codes from [%80] on. *)
Theorem UnescapePath_hex (h l : ascii) (dh dl : Z) :
  strconv.digit (byteZ h) = Some dh -> dh < 16 ->
  strconv.digit (byteZ l) = Some dl -> dl < 16 ->
  UnescapePath ["%"%char; h; l] = Ok (utf8.AppendRune [] (16 * dh + dl))
  /\ (16 * dh + dl < 0x80 ->
      utf8.AppendRune [] (16 * dh + dl) = [byte_of_Z (16 * dh + dl)])
  /\ (0x80 <= 16 * dh + dl ->
      utf8.AppendRune [] (16 * dh + dl)
      = [byte_of_Z (0xC0 + (16 * dh + dl) / 64); byte_of_Z (0x80 + (16 * dh + dl) mod 64)]).
Proof.
  intros Hh Hhr Hl Hlr.
  destruct (digit_byte h dh Hh) as (Ha & Hdh & _).
  destruct (digit_byte l dl Hl) as (Hb & Hdl & _).
  pose proof (ParseInt_hex h l dh dl Hh Hhr Hl Hlr) as Hp.
  set (v := 16 * dh + dl) in *.
  assert (Hv : 0 <= v < 256) by (unfold v; lia).
  split; [|split].
  - unfold UnescapePath, utf8.range.
    rewrite (range_from_ascii 0 "%") by reflexivity.
    rewrite (range_from_ascii 1 h) by assumption.
    rewrite (range_from_ascii 2 l) by assumption.
    cbn [utf8.range_from UnescapePath_loop escaped start sb].
    change (byteZ "%" =? 0x25) with true. cbv iota.
    cbn [UnescapePath_loop escaped start sb].
    change (2 <=? Z.of_nat 1 - Z.of_nat 0) with false. cbv iota.
    change (2 <=? Z.of_nat 2 - Z.of_nat 0) with true. cbv iota.
    change (slice ["%"%char; h; l] (Z.of_nat 0 + 1) (Z.of_nat 2 + 1)) with (@inr panic _ [h; l]).
    cbv iota. rewrite Hp.
    replace (rune_of_int64 v) with v
      by (unfold rune_of_int64; rewrite Z.mod_small; lia).
    reflexivity.
  - intros Hlt. unfold utf8.AppendRune. rewrite Z.mod_small by lia.
    replace (v <=? utf8.rune1Max) with true by (unfold utf8.rune1Max; lia).
    reflexivity.
  - intros Hge. unfold utf8.AppendRune. rewrite Z.mod_small by lia.
    replace (v <=? utf8.rune1Max) with false by (unfold utf8.rune1Max; lia).
    replace (v <=? utf8.rune2Max) with true by (unfold utf8.rune2Max; lia).
    cbn [app]. rewrite !byteZ_byte_of_Z, land_maskx.
    rewrite Z.shiftr_div_pow2 by lia. change (2 ^ 6) with 64.
    assert (H1 : 0 <= v / 64 < 4) by (split; [apply Z.div_pos|apply Z.div_lt_upper_bound]; lia).
    rewrite (Z.mod_small (v / 64)) by lia.
    rewrite (Z.mod_small v 256) by lia.
    assert (H2 : 0 <= v mod 64 < 64) by (apply Z.mod_pos_bound; lia).
    rewrite (lor_tag utf8.t2 (v / 64) 5) by (try reflexivity; cbn; lia).
    rewrite (lor_tag utf8.tx (v mod 64) 6) by (try reflexivity; cbn; lia).
    reflexivity.
Qed.

(* ------------------------------------------------------------------ *)
(** ** [UnescapePath] on a concatenation *)

(** The decoding of a well-formed string does not look past its end. *)
Lemma decoderune_app (x : ascii) (a b : gostring) (r : Z) (w : nat) :
  utf8.decoderune (x :: a) = (r, w) ->
  ((byteZ x <? utf8.RuneSelf) || Nat.ltb 1 w) = true ->
  utf8.decoderune (x :: a ++ b) = (r, w).
Proof.
  intros Hd Hstep.
  pose proof Hd as Hs. apply decoderune_shape in Hs.
  destruct Hs as [[-> Hr] | (Hge & Hr & Hw & l1 & l2 & -> & Hl & Hc)].
  - change utf8.RuneSelf with 0x80 in Hstep.
    destruct (byteZ x <? 0x80) eqn:Hlt; [|discriminate Hstep].
    subst r. unfold utf8.decoderune.
    change utf8.RuneSelf with 0x80. now rewrite Hlt.
  - rewrite <- app_assoc.
    apply (decoderune_prefix x l1 l2 (l2 ++ b) r w Hd); [lia|exact Hl].
Qed.

Lemma range_from_app (a b : gostring) :
  forall (i k : nat),
    utf8.valid_from k a = true ->
    utf8.range_from i k (a ++ b)
    = utf8.range_from i k a ++ utf8.range_from (i + List.length a) 0 b.
Proof.
  induction a as [|x a IH]; intros i k Hv.
  - destruct k; [|discriminate Hv]. cbn [app List.length utf8.range_from].
    now rewrite Nat.add_0_r.
  - cbn [app List.length]. destruct k as [|k].
    + cbn [utf8.range_from utf8.valid_from] in *.
      destruct (utf8.decoderune (x :: a)) as [r w] eqn:Hd.
      apply andb_prop in Hv as [Hstep Hv].
      rewrite (decoderune_app x a b r w Hd Hstep).
      rewrite (IH _ _ Hv). cbn [app].
      now replace (S i + List.length a)%nat with (i + S (List.length a))%nat by lia.
    + cbn [utf8.range_from utf8.valid_from] in *.
      rewrite (IH _ _ Hv).
      now replace (S i + List.length a)%nat with (i + S (List.length a))%nat by lia.
Qed.

Lemma range_from_bounds (s : gostring) :
  forall (i k : nat) (j r : Z),
    In (j, r) (utf8.range_from i k s) ->
    Z.of_nat i <= j < Z.of_nat i + len s.
Proof.
  unfold len.
  induction s as [|x s IH]; intros i k j r Hin; [contradiction|].
  cbn [List.length]. destruct k as [|k]; cbn [utf8.range_from] in Hin.
  - destruct (utf8.decoderune (x :: s)) as [r0 w].
    destruct Hin as [[= <- <-] | Hin]; [lia|].
    apply IH in Hin. lia.
  - apply IH in Hin. lia.
Qed.

Lemma range_from_shift (s : gostring) (n : nat) :
  forall (i k : nat),
    utf8.range_from (n + i) k s
    = map (fun ir => (fst ir + Z.of_nat n, snd ir)) (utf8.range_from i k s).
Proof.
  induction s as [|x s IH]; intros i k; [reflexivity|].
  destruct k as [|k]; cbn [utf8.range_from].
  - destruct (utf8.decoderune (x :: s)) as [r w].
    cbn [map fst snd]. f_equal; [f_equal; lia|].
    rewrite <- IH. f_equal. lia.
  - rewrite <- IH. f_equal. lia.
Qed.

Lemma UnescapePath_loop_app (path : gostring) (its1 its2 : list (Z * Z)) :
  forall st,
    UnescapePath_loop path (its1 ++ its2) st
    = match UnescapePath_loop path its1 st with
      | Ok st1 => UnescapePath_loop path its2 st1
      | Err e => Err e
      | Panic p => Panic p
      end.
Proof.
  induction its1 as [|[i r] its1 IH]; intros st; [reflexivity|].
  cbn [app UnescapePath_loop].
  destruct (escaped st).
  - destruct (2 <=? i - start st); [|apply IH].
    destruct (slice path (start st + 1) (i + 1)); [reflexivity|].
    destruct (strconv.ParseInt _ 16 64); [|apply IH].
    now destruct (slice path (start st) (i + 1)).
  - destruct (r =? 0x25); apply IH.
Qed.

Lemma slice_app_l (a b : gostring) (lo hi : Z) :
  hi <= len a -> slice (a ++ b) lo hi = slice a lo hi.
Proof.
  intros H. unfold slice. rewrite len_app. pose proof (len_nonneg b).
  destruct ((0 <=? lo) && (lo <=? hi)) eqn:E; cbn [andb].
  - apply andb_prop in E as [E1 E2]. apply Z.leb_le in E1, E2.
    replace (hi <=? len a + len b) with true by (symmetry; apply Z.leb_le; lia).
    replace (hi <=? len a) with true by (symmetry; apply Z.leb_le; lia).
    f_equal. unfold len in H.
    rewrite skipn_app.
    replace (Z.to_nat lo - List.length a)%nat with 0%nat by lia.
    cbn [skipn]. rewrite firstn_app.
    replace (Z.to_nat hi - Z.to_nat lo - List.length (skipn (Z.to_nat lo) a))%nat
      with 0%nat by (rewrite length_skipn; lia).
    cbn [firstn]. apply app_nil_r.
  - reflexivity.
Qed.

(** Over the indices of its first part, the loop on a concatenation is
    the loop on that part. *)
Lemma UnescapePath_loop_prefix (a b : gostring) (its : list (Z * Z)) :
  (forall j r, In (j, r) its -> j < len a) ->
  forall st,
    UnescapePath_loop (a ++ b) its st = UnescapePath_loop a its st.
Proof.
  induction its as [|[i r] its IH]; intros Hin st; [reflexivity|].
  assert (Hi : i < len a) by (apply (Hin i r); now left).
  assert (Hin' : forall j r, In (j, r) its -> j < len a)
    by (intros j r0 H; apply (Hin j r0); now right).
  cbn [UnescapePath_loop].
  rewrite !slice_app_l by lia.
  destruct (escaped st).
  - destruct (2 <=? i - start st); [|now apply IH].
    destruct (slice a (start st + 1) (i + 1)); [reflexivity|].
    destruct (strconv.ParseInt _ 16 64); [reflexivity|now apply IH].
  - destruct (r =? 0x25); now apply IH.
Qed.

Lemma slice_app_r (a b x : gostring) (lo hi : Z) :
  slice b lo hi = inr x -> slice (a ++ b) (lo + len a) (hi + len a) = inr x.
Proof.
  unfold slice. rewrite len_app. pose proof (len_nonneg a).
  destruct ((0 <=? lo) && (lo <=? hi) && (hi <=? len b)) eqn:E; [|discriminate].
  apply andb_prop in E as [E E3]. apply andb_prop in E as [E1 E2].
  apply Z.leb_le in E1, E2, E3.
  replace ((0 <=? lo + len a) && (lo + len a <=? hi + len a)
           && (hi + len a <=? len a + len b)) with true
    by (symmetry; rewrite !andb_true_iff, !Z.leb_le; lia).
  intros [= <-]. f_equal. unfold len.
  replace (Z.to_nat (lo + Z.of_nat (List.length a)))
    with (List.length a + Z.to_nat lo)%nat by lia.
  replace (Z.to_nat (hi + Z.of_nat (List.length a)) - (List.length a + Z.to_nat lo))%nat
    with (Z.to_nat hi - Z.to_nat lo)%nat by lia.
  rewrite skipn_app, skipn_all2 by lia.
  replace (List.length a + Z.to_nat lo - List.length a)%nat with (Z.to_nat lo) by lia.
  reflexivity.
Qed.

Lemma AppendRune_app (p q : gostring) (r : Z) :
  utf8.AppendRune (p ++ q) r = p ++ utf8.AppendRune q r.
Proof.
  unfold utf8.AppendRune. cbv zeta.
  repeat match goal with |- context [if ?c then _ else _] => destruct c end;
    now rewrite <- app_assoc.
Qed.

(** The loop on the second part of a concatenation, with the indices
    moved by the length of the first part, goes as the loop on the second
    part alone. *)
Lemma UnescapePath_loop_suffix (a b out1 : gostring) (its : list (Z * Z)) :
  forall (st st' st2 : unescape),
    sb st' = out1 ++ sb st ->
    escaped st' = escaped st ->
    (escaped st = true -> start st' = start st + len a) ->
    UnescapePath_loop b its st = Ok st2 ->
    exists st2',
      UnescapePath_loop (a ++ b) (map (fun ir => (fst ir + len a, snd ir)) its) st'
      = Ok st2'
      /\ sb st2' = out1 ++ sb st2
      /\ escaped st2' = escaped st2.
Proof.
  induction its as [|[i r] its IH]; intros st st' st2 Hsb He Hst.
  - cbn [map UnescapePath_loop]. intros [= <-]. exists st'. auto.
  - cbn [map UnescapePath_loop fst snd]. rewrite He.
    destruct (escaped st) eqn:Hesc.
    + rewrite (Hst eq_refl).
      replace (i + len a - (start st + len a)) with (i - start st) by lia.
      destruct (2 <=? i - start st).
      * destruct (slice b (start st + 1) (i + 1)) as [p|digits] eqn:Hs; [discriminate|].
        replace (start st + len a + 1) with (start st + 1 + len a) by lia.
        replace (i + len a + 1) with (i + 1 + len a) by lia.
        rewrite (slice_app_r a b digits _ _ Hs).
        destruct (strconv.ParseInt digits 16 64) as [err|c].
        -- destruct (slice b (start st) (i + 1)); discriminate.
        -- intros Hl. eapply IH; [| | |exact Hl]; cbn [sb escaped start].
           ++ now rewrite Hsb, AppendRune_app.
           ++ reflexivity.
           ++ discriminate.
      * intros Hl. eapply IH; [| | |exact Hl].
        -- exact Hsb.
        -- now rewrite Hesc.
        -- intros _. now apply Hst.
    + destruct (r =? 0x25).
      * intros Hl. eapply IH; [| | |exact Hl]; cbn [sb escaped start].
        -- exact Hsb.
        -- reflexivity.
        -- reflexivity.
      * intros Hl. eapply IH; [| | |exact Hl]; cbn [sb escaped start].
        -- now rewrite Hsb, AppendRune_app.
        -- reflexivity.
        -- discriminate.
Qed.

(** X16: decoding goes part by part: when a well-formed string [a] and a
    string [b] are both decoded without error, [a ++ b] is decoded to the
    two results one after the other. *)
Theorem UnescapePath_app (a b a' b' : gostring) :
  utf8.ValidString a = true ->
  UnescapePath a = Ok a' ->
  UnescapePath b = Ok b' ->
  UnescapePath (a ++ b) = Ok (a' ++ b').
Proof.
  intros Hv Ha Hb. unfold UnescapePath in *. unfold utf8.range in *.
  rewrite (range_from_app a b 0 0 Hv), UnescapePath_loop_app.
  rewrite UnescapePath_loop_prefix
    by (intros j r H; apply range_from_bounds in H; lia).
  destruct (UnescapePath_loop a (utf8.range_from 0 0 a) (mkUnescape [] false 0))
    as [st1|e|p]; try discriminate.
  destruct (escaped st1) eqn:He1; [discriminate|]. injection Ha as Ha.
  destruct (UnescapePath_loop b (utf8.range_from 0 0 b) (mkUnescape [] false 0))
    as [st2|e|p] eqn:Hl; try discriminate.
  destruct (escaped st2) eqn:He2; [discriminate|]. injection Hb as Hb.
  destruct (UnescapePath_loop_suffix a b a' (utf8.range_from 0 0 b)
              (mkUnescape [] false 0) st1 st2) as (st2' & H1 & H2 & H3).
  - cbn [sb]. now rewrite app_nil_r.
  - now rewrite He1.
  - discriminate.
  - exact Hl.
  - replace (0 + List.length a)%nat with (List.length a + 0)%nat by lia.
    rewrite range_from_shift. fold (len a). rewrite H1, H3, He2, H2. now subst.
Qed.

(* ------------------------------------------------------------------ *)
(** ** The callback of [runAndParseDepotFiles]: panics and the prefix *)

(** The callback on a [depotFile] line. *)
Lemma onLine_depotFile (depth : Z) (st : parser) (raw v : gostring) :
  strings.TrimSpace raw = go "... depotFile" ++ v ->
  onLine depth st raw =
  match v with
  | [] => inl (SliceBoundsOutOfRange 14 13)
  | _ :: v' =>
      let value := strings.TrimSpace v' in
      match (if len (prefix st) =? 0 then getDepotPrefix value depth
             else Ok (prefix st)) with
      | Panic p => inl p
      | Err err =>
          inr (mkParser (out st) (cur st) [],
               Some (wrapError (go "error parsing depot prefix: ") err))
      | Ok pre =>
          match slice_from value (len pre) with
          | inl p => inl p
          | inr path => inr (mkParser (out st) (set_Path (cur st) path) pre, None)
          end
      end
  end.
Proof.
  intros Ht. unfold onLine. rewrite Ht.
  rewrite (len_app (go "... depotFile") v). change (len (go "... depotFile")) with 13.
  pose proof (len_nonneg v).
  replace (13 + len v =? 0) with false by lia.
  replace (13 + len v <? 5) with false by lia.
  cbn [orb]. change (HasPrefix (go "... depotFile" ++ v) (go "... ")) with true.
  cbn [negb].
  rewrite (slice_from_app (go "... ") (go "depotFile" ++ v) 4 eq_refl
           : slice_from (go "... depotFile" ++ v) 4 = inr (go "depotFile" ++ v)).
  change (HasPrefix (go "depotFile" ++ v) (go "depotFile")) with true. cbv iota.
  destruct v as [|c v'].
  - reflexivity.
  - rewrite (slice_from_app (go "... depotFile" ++ [c]) v' 14 eq_refl
             : slice_from (go "... depotFile" ++ c :: v') 14 = inr v').
    reflexivity.
Qed.

Lemma HasPrefix_slice (line pre : gostring) :
  HasPrefix line pre = true -> exists x, line = pre ++ x /\ slice_from line (len pre) = inr x.
Proof.
  intros H. apply HasPrefix_app in H as [x ->]. exists x. split; [reflexivity|].
  now apply slice_from_app.
Qed.

(** The callback does not panic on any other line. *)
Lemma onLine_other (depth : Z) (st : parser) (raw : gostring) :
  HasPrefix (strings.TrimSpace raw) (go "... depotFile") = false ->
  exists st' err, onLine depth st raw = inr (st', err)
                  /\ prefix st' = prefix st.
Proof.
  intros Hn. unfold onLine.
  set (line := strings.TrimSpace raw) in *.
  destruct (len line =? 0); [eexists _, _; split; reflexivity|].
  destruct (len line <? 5); cbn [orb]; [eexists _, _; split; reflexivity|].
  destruct (HasPrefix line (go "... ")) eqn:Hp; cbn [negb];
    [|eexists _, _; split; reflexivity].
  destruct (HasPrefix_slice line (go "... ") Hp) as (tag & Hline & Hs).
  change (len (go "... ")) with 4 in Hs. rewrite Hs.
  destruct (HasPrefix tag (go "depotFile")) eqn:Hd.
  { exfalso. apply HasPrefix_app in Hd as [v ->].
    assert (HasPrefix line (go "... depotFile") = true); [|congruence].
    apply HasPrefix_app. exists v. rewrite Hline. reflexivity. }
  unfold assign.
  repeat match goal with
         | |- context [if HasPrefix tag (go ?t) then _ else _] =>
             let H := fresh "Ht" in
             destruct (HasPrefix tag (go t)) eqn:H;
             [apply HasPrefix_app in H as [x ->];
              rewrite Hline;
              match goal with |- context [slice_from _ ?n] =>
                rewrite (slice_from_app (go "... " ++ go t) x n eq_refl
                         : slice_from (go "... " ++ go t ++ x) n = inr x)
              end;
              eexists _, _; split; reflexivity|]
         end.
  eexists _, _; split; reflexivity.
Qed.

Lemma getDepotPrefix_no_panic (line : gostring) (depth : Z) (p : panic) :
  getDepotPrefix line depth <> Panic p.
Proof.
  destruct (HasPrefix line (go "//")) eqn:Hp.
  - destruct (getDepotPrefix_rooted line depth Hp) as (q & rest & -> & _). discriminate.
  - unfold getDepotPrefix. rewrite Hp. discriminate.
Qed.

(** X17: the callback of [runAndParseDepotFiles] panics in two cases
    only, both on a line whose tag begins with [depotFile]: when nothing
    follows the tag (the slice [line[14:]] of a line of 13 bytes), and
    when a prefix is already known and the value of the line is shorter
    than it (the slice [raw[len(prefix):]]). *)
Theorem onLine_panics (depth : Z) (st : parser) (raw : gostring) (p : panic) :
  onLine depth st raw = inl p <->
  exists v,
    strings.TrimSpace raw = go "... depotFile" ++ v
    /\ ((v = [] /\ p = SliceBoundsOutOfRange 14 13)
        \/ (v <> [] /\ prefix st <> []
            /\ len (strings.TrimSpace (tl v)) < len (prefix st)
            /\ p = SliceBoundsOutOfRange (len (prefix st))
                                         (len (strings.TrimSpace (tl v))))).
Proof.
  destruct (HasPrefix (strings.TrimSpace raw) (go "... depotFile")) eqn:Hd.
  - apply HasPrefix_app in Hd as [v Hv].
    rewrite (onLine_depotFile depth st raw v Hv).
    assert (Huniq : forall v0, strings.TrimSpace raw = go "... depotFile" ++ v0 -> v0 = v).
    { intros v0 H0. rewrite Hv in H0. now apply app_inv_head in H0. }
    destruct v as [|c v'].
    + split.
      * intros [= <-]. exists []. split; [exact Hv|]. now left.
      * intros (v0 & H0 & [[_ ->] | (Hne & _)]); [reflexivity|].
        apply Huniq in H0. contradiction.
    + cbv zeta. cbn [tl].
      set (value := strings.TrimSpace v').
      destruct (len (prefix st) =? 0) eqn:Hpre.
      * apply Z.eqb_eq, len_0 in Hpre.
        split.
        -- destruct (getDepotPrefix value depth) as [pre|e|q] eqn:Hg.
           ++ destruct (HasPrefix value (go "//")) eqn:Hr.
              ** destruct (getDepotPrefix_rooted value depth Hr)
                   as (pre' & rest & Hg' & Hval & _).
                 rewrite Hg in Hg'. injection Hg' as <-.
                 rewrite Hval at 1. rewrite slice_from_app by reflexivity. discriminate.
              ** unfold getDepotPrefix in Hg. rewrite Hr in Hg. discriminate Hg.
           ++ discriminate.
           ++ now apply getDepotPrefix_no_panic in Hg.
        -- intros (v0 & H0 & [[-> _] | (_ & Hne & _)]).
           ++ apply Huniq in H0. discriminate H0.
           ++ contradiction.
      * apply Z.eqb_neq in Hpre.
        assert (Hne : prefix st <> []) by (intros H; apply Hpre; now apply len_0).
        unfold slice_from, slice.
        pose proof (len_nonneg (prefix st)) as Hn1. pose proof (len_nonneg value) as Hn2.
        destruct (Z_le_dec (len (prefix st)) (len value)) as [Hle|Hgt].
        -- replace ((0 <=? len (prefix st)) && (len (prefix st) <=? len value)
                    && (len value <=? len value)) with true
             by (symmetry; rewrite !andb_true_iff, !Z.leb_le; lia).
           split; [discriminate|].
           intros (v0 & H0 & [[-> _] | (_ & _ & Hlt & _)]).
           ++ apply Huniq in H0. discriminate H0.
           ++ apply Huniq in H0. subst v0. cbn [tl] in Hlt. fold value in Hlt. lia.
        -- replace ((0 <=? len (prefix st)) && (len (prefix st) <=? len value)
                    && (len value <=? len value)) with false
             by (symmetry; rewrite !andb_false_iff, !Z.leb_gt; lia).
           split.
           ++ intros [= <-]. exists (c :: v'). split; [exact Hv|]. right.
              cbn [tl]. fold value. repeat split; auto; [discriminate|lia].
           ++ intros (v0 & H0 & [[-> _] | (_ & _ & _ & ->)]).
              ** apply Huniq in H0. discriminate H0.
              ** apply Huniq in H0. subst v0. reflexivity.
  - destruct (onLine_other depth st raw Hd) as (st' & err & -> & _).
    split; [discriminate|].
    intros (v & Hv & _).
    assert (HasPrefix (strings.TrimSpace raw) (go "... depotFile") = true); [|congruence].
    apply HasPrefix_app. now exists v.
Qed.



(** X19: under a known prefix the path of a [depotFile] line is the value
    of the line without its first [len(prefix)] bytes: the value is cut by
    length and is not compared with the prefix. *)
Theorem onLine_strips_by_length (depth : Z) (st : parser) (raw v : gostring) (c : ascii) :
  prefix st <> [] ->
  strings.TrimSpace raw = go "... depotFile" ++ c :: v ->
  len (prefix st) <= len (strings.TrimSpace v) ->
  onLine depth st raw
  = inr (mkParser (out st)
                  (set_Path (cur st)
                            (skipn (List.length (prefix st)) (strings.TrimSpace v)))
                  (prefix st), None).
Proof.
  intros Hne Hv Hle.
  rewrite (onLine_depotFile depth st raw _ Hv). cbv zeta.
  replace (len (prefix st) =? 0) with false
    by (symmetry; apply Z.eqb_neq; intros H; now apply len_0 in H).
  unfold len in *. rewrite slice_from_ok by lia. reflexivity.
Qed.

(* ------------------------------------------------------------------ *)
(** ** [strings.TrimSpace] on plain texts *)

Lemma graphic_ascii (c : ascii) : graphic c = true -> byteZ c < 0x80.
Proof.
  unfold graphic. intros H. apply andb_prop in H as [_ H]. lia.
Qed.

Lemma graphic_not_space (c : ascii) :
  graphic c = true -> unicode.IsSpace (byteZ c) = false.
Proof.
  destruct c as [[] [] [] [] [] [] [] []]; vm_compute; congruence.
Qed.

Lemma last_indep {A} (l : list A) (d d' : A) :
  l <> [] -> last l d = last l d'.
Proof.
  induction l as [|a l IH]; [contradiction|]. intros _.
  destruct l as [|b l]; [reflexivity|].
  change (last (b :: l) d = last (b :: l) d'). apply IH. discriminate.
Qed.

Lemma last_cons_nonempty {A} (a d d' : A) (l : list A) :
  l <> [] -> last (a :: l) d = last l d'.
Proof.
  intros H. destruct l as [|b l]; [contradiction|].
  change (last (b :: l) d = last (b :: l) d'). now apply last_indep.
Qed.

Lemma nth_last {A} (l : list A) (d : A) :
  nth (List.length l - 1) l d = last l d.
Proof.
  induction l as [|a l IH]; [reflexivity|].
  destruct l as [|b l]; [reflexivity|].
  cbn [List.length Nat.sub] in *. rewrite Nat.sub_0_r in *.
  exact IH.
Qed.

Lemma TrimLeftFunc_graphic (c : ascii) (v : gostring) :
  graphic c = true ->
  strings.TrimLeftFunc (c :: v) unicode.IsSpace = c :: v.
Proof.
  intros Hc. unfold strings.TrimLeftFunc, strings.indexFunc, utf8.range.
  rewrite range_from_ascii by (now apply graphic_ascii).
  cbn [strings.indexFunc_loop]. rewrite (graphic_not_space c Hc). reflexivity.
Qed.


Lemma TrimRightFunc_graphic (v : gostring) (d : ascii) :
  v <> [] -> graphic (last v d) = true ->
  strings.TrimRightFunc v unicode.IsSpace = v.
Proof.
  intros Hne Hc.
  assert (Hlen : 0 < len v).
  { pose proof (len_nonneg v). assert (len v <> 0) by (intros H0; now apply len_0 in H0). lia. }
  assert (Hlast : strings.byte_at v (len v - 1) = last v d).
  { unfold strings.byte_at, len.
    replace (Z.to_nat (Z.of_nat (List.length v) - 1)) with (List.length v - 1)%nat by lia.
    rewrite nth_last. destruct v as [|a v]; [contradiction|].
    destruct v as [|b v]; [reflexivity|].
    now rewrite (last_cons_nonempty a zero d) by discriminate. }
  assert (Hidx : strings.lastIndexFunc v unicode.IsSpace false = len v - 1).
  { unfold strings.lastIndexFunc. cbn [strings.lastIndexFunc_loop].
    replace (0 <? len v) with true by lia.
    unfold len at 1. rewrite Nat2Z.id, firstn_all.
    unfold strings.DecodeLastRuneInString.
    replace (len v =? 0) with false by lia.
    rewrite Hlast. change utf8.RuneSelf with 0x80.
    pose proof (graphic_ascii _ Hc) as Ha.
    replace (byteZ (last v d) <? 0x80) with true by lia.
    now rewrite (graphic_not_space _ Hc). }
  unfold strings.TrimRightFunc. rewrite Hidx, Hlast.
  change utf8.RuneSelf with 0x80.
  pose proof (graphic_ascii _ Hc) as Ha.
  replace (0x80 <=? byteZ (last v d)) with false by lia.
  rewrite andb_false_r.
  replace (len v - 1 + 1) with (len v) by lia.
  unfold len. rewrite Nat2Z.id. apply firstn_all.
Qed.

Lemma plain_inv (v : gostring) :
  plain v = true ->
  exists c v', v = c :: v' /\ graphic c = true /\ graphic (last v c) = true.
Proof.
  destruct v as [|c v']; [discriminate|]. cbn [plain]. intros H.
  apply andb_prop in H as [H1 H2]. now exists c, v'.
Qed.

(** A plain text is left as it is, and a space before it is removed. *)
Lemma TrimSpace_plain (v : gostring) :
  plain v = true -> strings.TrimSpace v = v.
Proof.
  intros H. destruct (plain_inv v H) as (c & v' & -> & Hc & Hl).
  unfold strings.TrimSpace. rewrite TrimLeftFunc_graphic by assumption.
  now apply (TrimRightFunc_graphic _ c).
Qed.


Lemma last_app_nonempty {A} (l1 l2 : list A) (d d' : A) :
  l2 <> [] -> last (l1 ++ l2) d = last l2 d'.
Proof.
  intros H. induction l1 as [|a l1 IH].
  - now apply last_indep.
  - cbn [app]. rewrite (last_cons_nonempty a d d); [exact IH|].
    intros E. apply app_eq_nil in E as [_ ->]. contradiction.
Qed.

(** A text that begins with a graphic character and ends with a plain
    text is plain. *)
Lemma plain_app (c : ascii) (l v : gostring) :
  graphic c = true -> plain v = true -> plain ((c :: l) ++ v) = true.
Proof.
  intros Hc Hv. destruct (plain_inv v Hv) as (c' & v' & -> & Hc' & Hl).
  cbn [app plain]. rewrite Hc. cbn [andb].
  change (c :: l ++ c' :: v') with ((c :: l) ++ c' :: v').
  now rewrite (last_app_nonempty (c :: l) (c' :: v') c c') by discriminate.
Qed.

(* ------------------------------------------------------------------ *)
(** ** [runAndParseDepotFiles] on a well-formed listing *)


Lemma slashes_snoc (q : gostring) : slashes (q ++ go "/") = slashes q + 1.
Proof. now rewrite slashes_app. Qed.





Lemma plain_prefixed (lit v : gostring) :
  plain v = true ->
  match lit with c :: _ => graphic c | [] => false end = true ->
  plain (lit ++ v) = true.
Proof.
  intros Hv Hl. destruct lit as [|c l]; [discriminate|]. now apply plain_app.
Qed.






Section Listing.

Variable lowerCase : Z -> Z.
Variable GetClientSpec : M spec.
Variable ParseSpec : gostring -> spec.
Variable sh_Out : World -> gostring -> gostring * option error.
Variable sh_Pipe : World -> gostring -> PipeRun.


End Listing.

(** X21: a tag is recognised by its first letters only.  Whatever plain
    text follows one of the seven tag names, be it the rest of a longer
    tag name, is taken for the value: the line [... actionOwner bob] sets
    [Action] to [Owner bob]. *)
Theorem onLine_tag_by_prefix (depth : Z) (st : parser) (tag s : gostring)
        (set : DepotFile -> gostring -> DepotFile) :
  In (tag, set)
     [(go "... action", set_Action); (go "... headAction", set_Action);
      (go "... change", set_CL); (go "... headChange", set_CL);
      (go "... type", set_Type); (go "... headType", set_Type);
      (go "... digest", set_Digest)] ->
  plain s = true ->
  onLine depth st (tag ++ s) = inr (with_cur st (set (cur st) s), None).
Proof.
  intros Hin Hs.
  rewrite (onLine_assign depth st (tag ++ s) tag s set).
  - now rewrite TrimSpace_plain.
  - apply TrimSpace_plain. apply plain_prefixed; [exact Hs|].
    simpl in Hin.
    repeat (destruct Hin as [[= <- _] | Hin]; [reflexivity|]). contradiction.
  - exact Hin.
Qed.

(* ------------------------------------------------------------------ *)
(** ** [sort.Sort] on short slices: the order of ties *)

Section SortShort.

Variable A : Type.
Variable less : A -> A -> bool.

(** A class of elements no two of which are in [less]. *)
Variable f : A -> bool.
Hypothesis f_ties : forall x y, less x y = true -> f x = true -> f y = true -> False.

Lemma set_nth_app (l1 l2 : list A) (k : nat) (v : A) :
  sort.set_nth A (l1 ++ l2) (List.length l1 + k) v = l1 ++ sort.set_nth A l2 k v.
Proof.
  induction l1 as [|a l1 IH]; [reflexivity|].
  cbn [app List.length Nat.add sort.set_nth]. now rewrite IH.
Qed.

(** [Swap] of two neighbours. *)
Lemma Swap_adjacent (d : list A) (j : Z) (x y : A) :
  sort.get A d j = Some x -> sort.get A d (j - 1) = Some y ->
  exists l1 l2, d = l1 ++ y :: x :: l2 /\ sort.Swap A d j (j - 1) = l1 ++ x :: y :: l2.
Proof.
  intros Hx Hy. unfold sort.Swap. rewrite Hx, Hy.
  pose proof (get_some_range A _ _ _ Hy) as Hr.
  unfold sort.get in Hx, Hy.
  replace (j <? 0) with false in Hx by lia.
  replace (j - 1 <? 0) with false in Hy by lia.
  set (n := Z.to_nat (j - 1)) in *.
  replace (Z.to_nat j) with (S n) in * by lia.
  apply nth_error_split in Hy as (l1 & l2 & Hd & Hl).
  exists l1. subst d.
  rewrite nth_error_app2 in Hx by lia.
  replace (S n - List.length l1)%nat with 1%nat in Hx by lia.
  destruct l2 as [|x' l2]; [discriminate|]. injection Hx as ->.
  exists l2. split; [reflexivity|].
  replace (S n) with (List.length l1 + 1)%nat by lia.
  rewrite set_nth_app. cbn [sort.set_nth].
  replace n with (List.length l1 + 0)%nat by lia.
  now rewrite set_nth_app.
Qed.

Lemma filter_swap_neighbours (l1 l2 : list A) (x y : A) :
  less x y = true ->
  filter f (l1 ++ x :: y :: l2) = filter f (l1 ++ y :: x :: l2).
Proof.
  intros H. rewrite !filter_app. f_equal. cbn [filter].
  destruct (f x) eqn:Fx, (f y) eqn:Fy; try reflexivity.
  exfalso. exact (f_ties x y H Fx Fy).
Qed.

Lemma insertionSort_inner_filter (fuel : nat) :
  forall (d : list A) (a j : Z),
    filter f (sort.insertionSort_inner A less fuel d a j) = filter f d.
Proof.
  induction fuel as [|fuel IH]; intros d a j; [reflexivity|].
  cbn [sort.insertionSort_inner].
  destruct ((a <? j) && sort.Less A less d j (j - 1)) eqn:E; [|reflexivity].
  apply andb_prop in E as [_ E]. rewrite IH.
  unfold sort.Less in E.
  destruct (sort.get A d j) as [x|] eqn:Hx; [|discriminate].
  destruct (sort.get A d (j - 1)) as [y|] eqn:Hy; [|discriminate].
  destruct (Swap_adjacent d j x y Hx Hy) as (l1 & l2 & -> & ->).
  now apply filter_swap_neighbours.
Qed.

Lemma insertionSort_outer_filter (fuel : nat) :
  forall (d : list A) (a b i : Z),
    filter f (sort.insertionSort_outer A less fuel d a b i) = filter f d.
Proof.
  induction fuel as [|fuel IH]; intros d a b i; [reflexivity|].
  cbn [sort.insertionSort_outer].
  destruct (i <? b); [|reflexivity].
  now rewrite IH, insertionSort_inner_filter.
Qed.

(** On a slice of at most twelve elements [sort.Sort] is an insertion
    sort: it only exchanges neighbours of which the later is less than
    the earlier, so the elements of a class of ties keep their order. *)
Lemma Sort_short_filter (d : list A) :
  (List.length d <= 12)%nat -> filter f (sort.Sort A less d) = filter f d.
Proof.
  intros Hn. unfold sort.Sort.
  destruct (Z.of_nat (List.length d) <=? 1); [reflexivity|].
  cbn [sort.pdqsort].
  replace (Z.of_nat (List.length d) - 0 <=? 12) with true
    by (symmetry; apply Z.leb_le; lia).
  apply insertionSort_outer_filter.
Qed.

End SortShort.

Lemma gostring_eqb_eq (s t : gostring) : gostring_eqb s t = true <-> s = t.
Proof.
  unfold gostring_eqb. destruct (list_eq_dec ascii_dec s t); split; auto; discriminate.
Qed.

Lemma Sort_short_tied (lowerCase : Z -> Z) (key : gostring) (d : list DepotFile) :
  (List.length d <= 12)%nat ->
  tied lowerCase key (sort.Sort DepotFile (Less lowerCase) d) = tied lowerCase key d.
Proof.
  intros Hn. unfold tied. apply Sort_short_filter; [|exact Hn].
  intros x y Hl Hx Hy. apply gostring_eqb_eq in Hx, Hy.
  unfold Less in Hl. fold (folded lowerCase x) in Hl. fold (folded lowerCase y) in Hl.
  rewrite Hx, Hy, string_ltb_irrefl in Hl. discriminate.
Qed.

Section Stable.

Variable lowerCase : Z -> Z.
Variable GetClientSpec : M spec.
Variable ParseSpec : gostring -> spec.
Variable sh_Out : World -> gostring -> gostring * option error.
Variable sh_Pipe : World -> gostring -> PipeRun.

(** X22: when at most twelve records come back, the records whose paths
    are equal after case folding are in the order in which the listing
    gave them: up to that size [sort.Sort] is an insertion sort. *)
Theorem runAndParseDepotFiles_stable_short
        (c : gostring) (w w' : World) (recs : list DepotFile) :
  runAndParseDepotFiles lowerCase GetClientSpec ParseSpec sh_Out sh_Pipe c w
  = (Ok recs, w') ->
  (List.length recs <= 12)%nat ->
  exists streamDepth w1 st rerr,
    StreamDepth GetClientSpec ParseSpec sh_Out w = (Ok streamDepth, w1)
    /\ scan_loop (onLine streamDepth) (tokens (sh_Pipe w1 c)) parser_zero None
       = inr (st, rerr)
    /\ forall key, tied lowerCase key recs = tied lowerCase key (out st).
Proof.
  intros Hrun Hn.
  destruct (runAndParseDepotFiles_Ok _ _ _ _ _ _ _ _ _ Hrun)
    as (depth & w1 & st & rerr & Hd & Hl & _ & _ & -> & _).
  exists depth, w1, st, rerr. split; [exact Hd|]. split; [exact Hl|].
  intros key. apply Sort_short_tied.
  destruct (Less_strict_weak_order lowerCase) as (O1 & O2 & O3).
  destruct (Sort_sorts DepotFile (Less lowerCase) O1 O2 O3 (out st)) as [Hperm _].
  now rewrite <- (Permutation_length Hperm).
Qed.

End Stable.

(* ------------------------------------------------------------------ *)
(** ** [UnescapePath] after [EscapePath] on every string *)

Lemma valid_from_all (l : gostring) : utf8.valid_from (List.length l) l = true.
Proof. induction l as [|a l IH]; [reflexivity|exact IH]. Qed.

Lemma valid_from_app (a b : gostring) :
  forall k, utf8.valid_from k a = true -> utf8.ValidString b = true ->
            utf8.valid_from k (a ++ b) = true.
Proof.
  induction a as [|x a IH]; intros k Hv Hb.
  - destruct k; [exact Hb|discriminate].
  - cbn [app]. destruct k as [|k]; cbn [utf8.valid_from] in *.
    + destruct (utf8.decoderune (x :: a)) as [r w] eqn:Hd.
      apply andb_prop in Hv as [Hstep Hv].
      rewrite (decoderune_app x a b r w Hd Hstep), Hstep. cbn [andb].
      now apply IH.
    + now apply IH.
Qed.

(** The bytes one rune of the input is written as: a well-formed piece,
    reserved only when it is a single reserved byte. *)
Lemma write_rune_step (a : ascii) (s sbW sbE : gostring) (i r : Z) (w : nat) :
  utf8.decoderune (a :: s) = (r, w) ->
  exists piece,
    write_rune sbW (i, r) = sbW ++ piece
    /\ escape_rune sbE (i, r) = sbE ++ flat_map escape_byte piece
    /\ utf8.ValidString piece = true
    /\ (((byteZ a <? utf8.RuneSelf) || Nat.ltb 1 w) = true ->
        piece = firstn w (a :: s)).
Proof.
  intros Hd. cbn [write_rune].
  pose proof (AppendRune_decoderune sbW _ _ _ _ Hd) as HencW.
  pose proof (AppendRune_decoderune sbE _ _ _ _ Hd) as HencE.
  pose proof Hd as Hs. apply decoderune_shape in Hs.
  destruct Hs as [[-> Hr] | (Hge & Hr & Hw & l1 & l2 & -> & Hl & Hc)].
  - change utf8.RuneSelf with 0x80.
    destruct (byteZ a <? 0x80) eqn:Hlt.
    + subst r. exists [a].
      rewrite AppendRune_ascii, escape_rune_ascii by lia.
      cbn [flat_map firstn]. rewrite app_nil_r.
      repeat split; auto.
      unfold utf8.ValidString, utf8.valid_from, utf8.decoderune.
      change utf8.RuneSelf with 0x80. now rewrite Hlt.
    + subst r. exists [byte_of_Z 0xEF; byte_of_Z 0xBF; byte_of_Z 0xBD].
      rewrite escape_rune_high by (cbv; discriminate).
      rewrite !AppendRune_RuneError.
      repeat split; auto. cbn [orb Nat.ltb Nat.leb]. discriminate.
  - exists (a :: l1).
    assert (Hf : firstn w (a :: l1 ++ l2) = a :: l1).
    { replace w with (S (List.length l1)) by lia. cbn [firstn].
      now rewrite firstn_app, Nat.sub_diag, firstn_all, firstn_O, app_nil_r. }
    rewrite escape_rune_high by lia.
    rewrite HencW, HencE, Hf by lia.
    cbn [flat_map]. rewrite escape_byte_high by lia.
    rewrite (flat_map_escape_cont l1 Hc).
    repeat split; auto.
    unfold utf8.ValidString. cbn [utf8.valid_from].
    pose proof (decoderune_prefix a l1 l2 [] r w Hd ltac:(lia) Hl) as Hd'.
    rewrite app_nil_r in Hd'. rewrite Hd'.
    replace (Nat.ltb 1 w) with true by (symmetry; apply Nat.ltb_lt; lia).
    rewrite orb_true_r. cbn [andb]. rewrite <- Hl. apply valid_from_all.
Qed.

(** The loop that writes the runes as they are and the second loop of
    [EscapePath], side by side. *)
Lemma rewritten_loops (s : gostring) :
  forall (i k : nat) (sbW sbE : gostring),
    exists piece,
      fold_left write_rune (utf8.range_from i k s) sbW = sbW ++ piece
      /\ fold_left escape_rune (utf8.range_from i k s) sbE
         = sbE ++ flat_map escape_byte piece
      /\ utf8.ValidString piece = true
      /\ (utf8.valid_from k s = true -> piece = skipn k s).
Proof.
  induction s as [|a s IH]; intros i k sbW sbE.
  - exists []. cbn. rewrite !app_nil_r. repeat split; auto. now destruct k.
  - destruct k as [|k].
    + cbn [utf8.range_from utf8.valid_from skipn].
      destruct (utf8.decoderune (a :: s)) as [r w] eqn:Hd.
      cbn [fold_left].
      destruct (write_rune_step a s sbW sbE (Z.of_nat i) r w Hd)
        as (p1 & -> & -> & Hv1 & Hp1).
      destruct (IH (S i) (w - 1)%nat (sbW ++ p1) (sbE ++ flat_map escape_byte p1))
        as (p2 & -> & -> & Hv2 & Hp2).
      exists (p1 ++ p2). rewrite flat_map_app, <- !app_assoc.
      split; [reflexivity|]. split; [reflexivity|]. split.
      * now apply valid_from_app.
      * intros Hv. apply andb_prop in Hv as [Hstep Hv].
        rewrite (Hp1 Hstep), (Hp2 Hv).
        assert (Hw : (1 <= w)%nat).
        { clear -Hd. apply decoderune_shape in Hd.
          destruct Hd as [[-> _] | (_ & _ & Hw & _)]; lia. }
        replace w with (S (w - 1)) at 1 by lia. cbn [firstn].
        now rewrite <- app_comm_cons, firstn_skipn.
    + cbn [utf8.range_from utf8.valid_from skipn]. apply IH.
Qed.

(** X23: [UnescapePath (EscapePath s)] fails on no string: it returns the
    runes of [s] written one after the other, which is [s] itself when
    [s] is well-formed UTF-8 and always is well-formed UTF-8; the escaped
    form of [s] is the escaped form of that string. *)
Theorem rewritten_round_trip (s : gostring) :
  UnescapePath (EscapePath s) = Ok (rewritten s)
  /\ utf8.ValidString (rewritten s) = true
  /\ EscapePath s = EscapePath (rewritten s)
  /\ (utf8.ValidString s = true -> rewritten s = s).
Proof.
  destruct (rewritten_loops s 0 0 [] []) as (piece & Hw & He & Hv & Hs).
  cbn [app] in Hw, He.
  assert (Hr : rewritten s = piece) by exact Hw.
  assert (Hesc : EscapePath s = flat_map escape_byte piece) by exact He.
  rewrite Hr, Hesc. split; [|split; [exact Hv|split; [|exact Hs]]].
  - unfold UnescapePath, utf8.range.
    destruct (UnescapePath_loop_escape piece 0 [] [] 0 Hv) as [start1 H1];
      [constructor|lia|].
    cbn [app List.length skipn] in H1. now rewrite H1.
  - now rewrite (EscapePath_bytes piece Hv).
Qed.

(* ------------------------------------------------------------------ *)
(** ** The further properties on examples *)

Example getDepotName_examples :
  getDepotName (go "//depot/main/... //ws/...") = Ok (go "depot")
  /\ getDepotName (go "///x") = Ok []
  /\ getDepotName (go "//depot")
     = Err (errorString (go "line '//depot' does not have a full depot prefix"))
  /\ getDepotName (go "-//depot/main/...")
     = Err (errorString (go "line '-//depot/main/...' does not begin with '//'")).
Proof. repeat split; vm_compute; reflexivity. Qed.

Lemma Depot_from_stream_witness :
  Depot example_GetClientSpec example_new_world = (Ok (go "depot"), example_new_world).
Proof.
  apply (Depot_from_stream example_GetClientSpec example_new_world example_new_world
           [(go "Stream", go "//depot/main")] (go "depot") (go "main")).
  - reflexivity.
  - reflexivity.
  - reflexivity.
  - discriminate.
Defined.

Lemma Depot_first_view_witness :
  Depot example_GetClientSpec_views example_new_world
  = (Err (wrapError
            (go "error getting depot from mapping -//depot/main/secret/... //ws/secret/...: ")
            (errorString
               (go "line '-//depot/main/secret/... //ws/secret/...' does not begin with '//'"))),
     example_new_world).
Proof.
  apply (Depot_first_view example_GetClientSpec_views example_new_world example_new_world
           [(go "Client", go "ws");
            (go "View0", go "-//depot/main/secret/... //ws/secret/...");
            (go "View1", go "//depot/main/... //ws/...")]).
  - reflexivity.
  - intros stream H. discriminate H.
Defined.

Lemma StreamDepth_cached_witness :
  1 <= 2
  /\ streamDepthCache (self (mkWorld (mkP4 (go "perforce:1666") (go "alice") [] (go "ws") 2)
                                     [go "p4 -p perforce:1666 -u alice -c ws -z tag depot -o depot"]))
     = 2
  /\ StreamDepth example_GetClientSpec example_ParseSpec example_sh_Out
       (mkWorld (mkP4 (go "perforce:1666") (go "alice") [] (go "ws") 2)
                [go "p4 -p perforce:1666 -u alice -c ws -z tag depot -o depot"])
     = (Ok 2,
        mkWorld (mkP4 (go "perforce:1666") (go "alice") [] (go "ws") 2)
                [go "p4 -p perforce:1666 -u alice -c ws -z tag depot -o depot"]).
Proof.
  apply (StreamDepth_cached example_GetClientSpec example_ParseSpec example_sh_Out
           example_new_world).
  vm_compute. reflexivity.
Defined.

Lemma StreamDepth_after_reset_witness :
  exists depot w1 text path,
    Depot example_GetClientSpec example_new_world = (Ok depot, w1)
    /\ example_sh_Out w1 (cmd (self w1) ++ go " -z tag depot -o " ++ depot) = (text, None)
    /\ lookup (example_ParseSpec text) (go "StreamDepth") = Some path
    /\ 2 = slashes path - 1
    /\ 1 <= 2
    /\ mkWorld (mkP4 (go "perforce:1666") (go "alice") [] (go "ws") 2)
               [go "p4 -p perforce:1666 -u alice -c ws -z tag depot -o depot"]
       = set_streamDepthCache 2
           (launch (cmd (self w1) ++ go " -z tag depot -o " ++ depot) w1).
Proof.
  apply (StreamDepth_after_reset example_GetClientSpec example_ParseSpec example_sh_Out
           example_new_world example_new_world
           (mkWorld (mkP4 (go "perforce:1666") (go "alice") [] (go "ws") 2)
                    [go "p4 -p perforce:1666 -u alice -c ws -z tag depot -o depot"])
           [] (go "perforce:1666") (go "alice") [] (go "ws") 2).
  - right. reflexivity.
  - vm_compute. reflexivity.
Defined.

(** After [SetStreamName] the depth is asked for again. *)
Example SetStreamName_then_StreamDepth :
  (_ <- SetStreamName (go "//depot/dev") ;;
   StreamDepth example_GetClientSpec example_ParseSpec example_sh_Out) example_world
  = (Ok 2,
     mkWorld (mkP4 (go "perforce:1666") (go "alice") [] (go "ws") 2)
             [go "p4 -p perforce:1666 -u alice -c ws -z tag depot -o depot"]).
Proof. vm_compute. reflexivity. Qed.

Example DisplayName_New :
  DisplayName (New (go "perforce:1666") (go "alice") [] (go "ws")) = go "perforce:1666".
Proof. reflexivity. Qed.

Example ListDepotFiles_cmd_default :
  ListDepotFiles_cmd (self example_world) []
  = go "p4 -p perforce:1666 -u alice -c ws fstat -T depotFile,headAction,headChange,headType,digest -Ol -F '^(headAction=move/delete | headAction=purge | headAction=archive | headAction=delete)' //ws/...".
Proof. vm_compute. reflexivity. Qed.

Example GetVariable_last_setting :
  GetVariable (example_sh_Pipe example_settings) (go "P4PORT") example_world
  = (Ok (go "backup:1666"),
     launch (go "p4 -p perforce:1666 -u alice -c ws set -q P4PORT") example_world)
  /\ GetVariable (example_sh_Pipe example_settings) (go "P4USER") example_world
     = (Ok [], launch (go "p4 -p perforce:1666 -u alice -c ws set -q P4USER") example_world).
Proof. split; vm_compute; reflexivity. Qed.

Example CreateStreamDepot_two_commands :
  CreateStreamDepot example_sh_Out example_sh_In (go "streams") example_world
  = (Ok tt,
     mkWorld (self example_world)
             [go "p4 -p perforce:1666 -u alice -c ws --field " ++ ["034"%char]
                 ++ go "Type=stream" ++ ["034"%char] ++ go " depot -o streams";
              go "p4 -p perforce:1666 -u alice -c ws depot -i"]).
Proof. vm_compute. reflexivity. Qed.

Example EscapePath_not_one_to_one_on_ill_formed_bytes :
  EscapePath [byte_of_Z 0xFF] = EscapePath [byte_of_Z 0xEF; byte_of_Z 0xBF; byte_of_Z 0xBD].
Proof. vm_compute. reflexivity. Qed.

Lemma EscapePath_injective_witness :
  EscapePath (go "a@b") = EscapePath [byte_of_Z 0x61; byte_of_Z 0x40; byte_of_Z 0x62]
  /\ go "a@b" = [byte_of_Z 0x61; byte_of_Z 0x40; byte_of_Z 0x62].
Proof.
  split; [reflexivity|].
  apply (EscapePath_injective (go "a@b") [byte_of_Z 0x61; byte_of_Z 0x40; byte_of_Z 0x62]);
    reflexivity.
Defined.

Lemma EscapePath_unchanged_witness :
  EscapePath (go "//depot/main/a.txt") = go "//depot/main/a.txt"
  <-> filter reserved (go "//depot/main/a.txt") = [].
Proof.
  apply (EscapePath_unchanged (go "//depot/main/a.txt")). reflexivity.
Defined.

Lemma UnescapePath_plain_witness :
  UnescapePath (go "//depot/a@b#c*d") = Ok (go "//depot/a@b#c*d").
Proof.
  apply (UnescapePath_plain (go "//depot/a@b#c*d")).
  - reflexivity.
  - intros H. cbn in H.
    repeat (destruct H as [H|H]; [discriminate H|]). exact H.
Defined.

Lemma UnescapePath_hex_witness :
  UnescapePath (go "%e9") = Ok (utf8.AppendRune [] (16 * 14 + 9))
  /\ (16 * 14 + 9 < 0x80 ->
      utf8.AppendRune [] (16 * 14 + 9) = [byte_of_Z (16 * 14 + 9)])
  /\ (0x80 <= 16 * 14 + 9 ->
      utf8.AppendRune [] (16 * 14 + 9)
      = [byte_of_Z (0xC0 + (16 * 14 + 9) / 64); byte_of_Z (0x80 + (16 * 14 + 9) mod 64)]).
Proof.
  apply (UnescapePath_hex "e" "9" 14 9); try reflexivity.
Defined.

Example UnescapePath_high_code : UnescapePath (go "%E9") = Ok [byte_of_Z 0xC3; byte_of_Z 0xA9].
Proof. vm_compute. reflexivity. Qed.

Lemma UnescapePath_app_witness :
  UnescapePath (go "a%40" ++ go "b%23") = Ok (go "a@" ++ go "b#").
Proof.
  apply (UnescapePath_app (go "a%40") (go "b%23") (go "a@") (go "b#"));
    vm_compute; reflexivity.
Defined.

Example onLine_short_value_panics :
  onLine 2 (mkParser [] DepotFile_zero (go "//depot/main/")) (go "... depotFile //x")
  = inl (SliceBoundsOutOfRange 13 3).
Proof. vm_compute. reflexivity. Qed.


Lemma onLine_strips_by_length_witness :
  onLine 2 (mkParser [] DepotFile_zero (go "//depot/main/"))
         (go "... depotFile //DEPOT/Main/a.txt")
  = inr (mkParser [] (set_Path DepotFile_zero
                               (skipn (List.length (go "//depot/main/"))
                                      (strings.TrimSpace (go "//DEPOT/Main/a.txt"))))
                  (go "//depot/main/"), None).
Proof.
  apply (onLine_strips_by_length 2 (mkParser [] DepotFile_zero (go "//depot/main/"))
           (go "... depotFile //DEPOT/Main/a.txt") (go "//DEPOT/Main/a.txt") " "%char).
  - discriminate.
  - vm_compute. reflexivity.
  - vm_compute. discriminate.
Defined.


Example example_records_sorted :
  sort.Sort DepotFile (Less example_lowerCase) example_records = rev example_records.
Proof. vm_compute. reflexivity. Qed.

Lemma onLine_tag_by_prefix_witness :
  onLine 2 parser_zero (go "... action" ++ go "Owner bob")
  = inr (with_cur parser_zero (set_Action (cur parser_zero) (go "Owner bob")), None).
Proof.
  apply (onLine_tag_by_prefix 2 parser_zero (go "... action") (go "Owner bob") set_Action).
  - left. reflexivity.
  - reflexivity.
Defined.

Lemma runAndParseDepotFiles_stable_short_witness :
  exists streamDepth w1 st rerr,
    StreamDepth example_GetClientSpec example_ParseSpec example_sh_Out example_world
    = (Ok streamDepth, w1)
    /\ scan_loop (onLine streamDepth)
         (tokens (example_sh_Pipe (flat_map (render (go "//depot/main/")) example_case_pair)
                                  w1 (go "p4 fstat //ws/...")))
         parser_zero None
       = inr (st, rerr)
    /\ forall key, tied example_lowerCase key example_case_pair
                   = tied example_lowerCase key (out st).
Proof.
  apply (runAndParseDepotFiles_stable_short example_lowerCase example_GetClientSpec
           example_ParseSpec example_sh_Out
           (example_sh_Pipe (flat_map (render (go "//depot/main/")) example_case_pair))
           (go "p4 fstat //ws/...") example_world
           (launch (go "p4 fstat //ws/...") example_world) example_case_pair).
  - vm_compute. reflexivity.
  - simpl. lia.
Defined.

Example rewritten_ill_formed :
  rewritten [byte_of_Z 0x61; byte_of_Z 0xFF; byte_of_Z 0x40]
  = [byte_of_Z 0x61; byte_of_Z 0xEF; byte_of_Z 0xBF; byte_of_Z 0xBD; byte_of_Z 0x40]
  /\ EscapePath_size [byte_of_Z 0x61; byte_of_Z 0xFF; byte_of_Z 0x40] = 5
  /\ len (EscapePath [byte_of_Z 0x61; byte_of_Z 0xFF; byte_of_Z 0x40]) = 7.
Proof. repeat split; vm_compute; reflexivity. Qed.
